(** * Auto Linker: a shallow embedding of [src/main.ts]

    The plugin rewrites plain-text mentions of known note names into
    [[[wiki links]]], removes such links again and keeps a one-shot undo
    ledger.  This file embeds the string-level algorithms ([linkWords],
    [removeLinks], [getFileLinks], [getWordsToLink]) together with the
    fragment of ECMAScript regular expressions and string built-ins they
    rely on, and the plugin's state transitions ([autoLinkCurrentFile],
    [extendLinkingToDirectory], [removeLinksFromDirectory],
    [undoLastChanges]).

    Strings are sequences of UTF-16 code units, as in JavaScript. *)

From Stdlib Require Import NArith String Ascii List Lia Bool.
From stdpp Require Import gmap list.

Local Open Scope N_scope.
Set Warnings "-register-all".

(** ** Strings *)

Abbreviation jsstr := (list N).

(** Literal text of the source, as code units. *)
Definition str (s : string) : jsstr :=
  map N_of_ascii (list_ascii_of_string s).

Fixpoint jsstr_eqb (a b : jsstr) : bool :=
  match a, b with
  | [], [] => true
  | x :: a', y :: b' => (x =? y) && jsstr_eqb a' b'
  | _, _ => false
  end.

(** [Array.prototype.includes] on an array of strings. *)
Definition arrayIncludes (l : list jsstr) (x : jsstr) : bool :=
  existsb (jsstr_eqb x) l.

(** [String.prototype.startsWith], [includes] and [endsWith]. *)
Fixpoint startsWith (s p : jsstr) : bool :=
  match p, s with
  | [], _ => true
  | c :: p', d :: s' => (c =? d) && startsWith s' p'
  | _ :: _, [] => false
  end.

Fixpoint includes (s sub : jsstr) : bool :=
  startsWith s sub ||
  match s with
  | [] => false
  | _ :: s' => includes s' sub
  end.

Definition endsWith (s p : jsstr) : bool := startsWith (rev s) (rev p).

(** ECMAScript [WhiteSpace] and [LineTerminator] code units, the ones
    [String.prototype.trim] strips. *)
Definition isLineTerminator (c : N) : bool :=
  (c =? 10) || (c =? 13) || (c =? 8232) || (c =? 8233).

Definition isWhiteSpace (c : N) : bool :=
  (c =? 9) || (c =? 11) || (c =? 12) || (c =? 32) || (c =? 160) ||
  (c =? 5760) || ((8192 <=? c) && (c <=? 8202)) || (c =? 8239) ||
  (c =? 8287) || (c =? 12288) || (c =? 65279) || isLineTerminator c.

Fixpoint trimStart (s : jsstr) : jsstr :=
  match s with
  | c :: s' => if isWhiteSpace c then trimStart s' else s
  | [] => []
  end.

Definition trimEnd (s : jsstr) : jsstr := rev (trimStart (rev s)).

Definition trim (s : jsstr) : jsstr := trimEnd (trimStart s).

(** [s.split(sep)] for a one-unit separator string. *)
Fixpoint splitChar (sep : N) (s : jsstr) : list jsstr :=
  match s with
  | [] => [[]]
  | c :: s' =>
      if c =? sep then [] :: splitChar sep s'
      else match splitChar sep s' with
           | p :: ps => (c :: p) :: ps
           | [] => [[c]]
           end
  end.

(** [arr.join('')]. *)
Definition join (l : list jsstr) : jsstr := concat l.

(** [Boolean(s)] for a string: non-empty. *)
Definition nonEmpty (s : jsstr) : bool :=
  match s with [] => false | _ => true end.

(** ** The host

    The case mappings of non-ASCII text belong to the JavaScript runtime,
    not to the repository; they are taken as parameters.  [unicodeUpper]
    is the upper-case mapping of a single non-ASCII code unit as used by
    the regular expression [Canonicalize] operation (the unit itself when
    the mapping is not a single unit); [toLowerCase] is
    [String.prototype.toLowerCase].

    Whether a write to a document goes through is the host's matter too:
    [writable] tells, by path, whether the host carries out
    [vault.modify]; where it does not, the promise rejects although the
    document can be read.  The host's answer is taken to depend on the
    path only, the same throughout a command. *)
Class Runtime := {
  unicodeUpper : N -> N;
  toLowerCase : jsstr -> jsstr;
  writable : jsstr -> bool
}.

(** ** Regular expressions

    The fragment of ECMAScript patterns that occurs in the source, with
    the backtracking semantics of ECMA-262 (matchers in continuation
    passing style).  Matching runs over a zipper: the text before the
    current position (reversed) and the text after it. *)

Inductive charset : Type :=
| CsChar (c : N)       (* a pattern character, or an identity escape *)
| CsDot                (* . *)
| CsClass (invert : bool) (members : list N).   (* [...] and [^...] *)

Inductive regex : Type :=
| REmpty
| RSet (cs : charset)
| RSeq (r1 r2 : regex)
| RStar (cs : charset)        (* greedy iteration of a one-unit atom *)
| RGroup (r : regex)          (* the capture group: no pattern has two *)
| RBol                        (* ^ *)
| REol                        (* $ *)
| RWordB                      (* \b *)
| RNotAhead (r : regex)       (* (?!r) *)
| RNotBehind (r : regex).     (* (?<!r) *)

Record flags := { ignoreCase : bool; multiline : bool }.

Record mstate := {
  before : jsstr;             (* reversed *)
  after : jsstr;
  capture : option jsstr
}.

Inductive direction := Forward | Backward.

Definition isWordChar (c : N) : bool :=
  ((48 <=? c) && (c <=? 57)) || ((65 <=? c) && (c <=? 90)) ||
  ((97 <=? c) && (c <=? 122)) || (c =? 95).

Definition headIs (p : N -> bool) (s : jsstr) : bool :=
  match s with
  | c :: _ => p c
  | [] => false
  end.

Section Matcher.
Context {rt : Runtime}.

(** [Canonicalize] without the [u] flag: a code unit is compared through
    its upper-case form, except that a non-ASCII unit never folds onto an
    ASCII one. *)
Definition canonicalize (fl : flags) (ch : N) : N :=
  if ignoreCase fl then
    if ch <? 128 then
      if (97 <=? ch) && (ch <=? 122) then ch - 32 else ch
    else
      let cu := unicodeUpper ch in
      if cu <? 128 then ch else cu
  else ch.

Definition csMatches (fl : flags) (cs : charset) (ch : N) : bool :=
  match cs with
  | CsChar c => canonicalize fl c =? canonicalize fl ch
  | CsDot => negb (isLineTerminator ch)
  | CsClass invert members =>
      xorb invert
        (existsb (fun a => canonicalize fl a =? canonicalize fl ch) members)
  end.

Definition stepChar (dir : direction) (st : mstate) : option (N * mstate) :=
  match dir with
  | Forward =>
      match after st with
      | c :: s =>
          Some (c, {| before := c :: before st; after := s;
                      capture := capture st |})
      | [] => None
      end
  | Backward =>
      match before st with
      | c :: p =>
          Some (c, {| before := p; after := c :: after st;
                      capture := capture st |})
      | [] => None
      end
  end.

(** Greedy [cs*]: one more unit first, the continuation as fall-back.
    [n] is the number of units left in the direction of travel. *)
Fixpoint starLoop (n : nat) (fl : flags) (dir : direction) (cs : charset)
    (st : mstate) (k : mstate -> option mstate) : option mstate :=
  match n with
  | O => k st
  | S n' =>
      match stepChar dir st with
      | Some (c, st') =>
          if csMatches fl cs c then
            match starLoop n' fl dir cs st' k with
            | Some r => Some r
            | None => k st
            end
          else k st
      | None => k st
      end
  end.

Definition remaining (dir : direction) (st : mstate) : nat :=
  match dir with
  | Forward => length (after st)
  | Backward => length (before st)
  end.

(** The text a group spans, from the state at its opening parenthesis
    to the state at its closing one. *)
Definition captured (dir : direction) (st st' : mstate) : jsstr :=
  match dir with
  | Forward =>
      firstn (length (after st) - length (after st')) (after st)
  | Backward =>
      rev (firstn (length (before st) - length (before st')) (before st))
  end.

Fixpoint rmatch (fl : flags) (dir : direction) (r : regex) (st : mstate)
    (k : mstate -> option mstate) : option mstate :=
  match r with
  | REmpty => k st
  | RSet cs =>
      match stepChar dir st with
      | Some (c, st') => if csMatches fl cs c then k st' else None
      | None => None
      end
  | RSeq r1 r2 =>
      match dir with
      | Forward => rmatch fl dir r1 st (fun st' => rmatch fl dir r2 st' k)
      | Backward => rmatch fl dir r2 st (fun st' => rmatch fl dir r1 st' k)
      end
  | RStar cs => starLoop (remaining dir st) fl dir cs st k
  | RGroup r1 =>
      rmatch fl dir r1 st
        (fun st' => k {| before := before st'; after := after st';
                         capture := Some (captured dir st st') |})
  | RBol =>
      match before st with
      | [] => k st
      | c :: _ => if multiline fl && isLineTerminator c then k st else None
      end
  | REol =>
      match after st with
      | [] => k st
      | c :: _ => if multiline fl && isLineTerminator c then k st else None
      end
  | RWordB =>
      if xorb (headIs isWordChar (before st)) (headIs isWordChar (after st))
      then k st else None
  | RNotAhead r1 =>
      match rmatch fl Forward r1 st Some with
      | Some _ => None
      | None => k st
      end
  | RNotBehind r1 =>
      match rmatch fl Backward r1 st Some with
      | Some _ => None
      | None => k st
      end
  end.

(** One match attempt at a fixed position. *)
Definition matchAt (fl : flags) (r : regex) (pre suf : jsstr)
    : option mstate :=
  rmatch fl Forward r {| before := pre; after := suf; capture := None |} Some.

Definition matchLen (suf : jsstr) (st : mstate) : nat :=
  (length suf - length (after st))%nat.

(** [s.replace(r, fn)] for a global [r]: every match, left to right, the
    search resuming at the end of the previous match (one unit further
    after an empty match).  [repl matched textBefore textAfter] is the
    replacement text. *)
Fixpoint replaceLoop (fuel : nat) (fl : flags) (r : regex)
    (repl : jsstr -> jsstr -> jsstr -> jsstr) (pre suf : jsstr) : jsstr :=
  match fuel with
  | O => suf
  | S fuel' =>
      match matchAt fl r pre suf with
      | Some st =>
          let n := matchLen suf st in
          repl (firstn n suf) (rev pre) (after st) ++
          match n with
          | O =>
              match suf with
              | [] => []
              | c :: suf' => c :: replaceLoop fuel' fl r repl (c :: pre) suf'
              end
          | S _ => replaceLoop fuel' fl r repl (before st) (after st)
          end
      | None =>
          match suf with
          | [] => []
          | c :: suf' => c :: replaceLoop fuel' fl r repl (c :: pre) suf'
          end
      end
  end.

Definition replaceAll (fl : flags) (r : regex)
    (repl : jsstr -> jsstr -> jsstr -> jsstr) (s : jsstr) : jsstr :=
  replaceLoop (S (length s)) fl r repl [] s.

(** [s.replace(r, x)] for a non-global [r]: the first match only. *)
Fixpoint replaceFirstLoop (fl : flags) (r : regex)
    (repl : jsstr -> jsstr -> jsstr -> jsstr) (pre suf : jsstr) : jsstr :=
  match matchAt fl r pre suf with
  | Some st =>
      repl (firstn (matchLen suf st) suf) (rev pre) (after st) ++ after st
  | None =>
      match suf with
      | [] => []
      | c :: suf' => c :: replaceFirstLoop fl r repl (c :: pre) suf'
      end
  end.

Definition replaceFirst (fl : flags) (r : regex)
    (repl : jsstr -> jsstr -> jsstr -> jsstr) (s : jsstr) : jsstr :=
  replaceFirstLoop fl r repl [] s.

(** [s.split(r)]: the pieces between the matches, each followed by the
    match's capture.  [piece] holds, reversed, the units gathered since
    the last split point. *)
Fixpoint splitLoop (fuel : nat) (fl : flags) (r : regex)
    (piece pre suf : jsstr) : list jsstr :=
  match fuel with
  | O => [rev piece ++ suf]
  | S fuel' =>
      match suf with
      | [] => [rev piece]
      | c :: suf' =>
          match matchAt fl r pre suf with
          | None => splitLoop fuel' fl r (c :: piece) (c :: pre) suf'
          | Some st =>
              match matchLen suf st, piece with
              | O, [] => splitLoop fuel' fl r (c :: piece) (c :: pre) suf'
              | _, _ =>
                  rev piece ::
                  match capture st with
                  | Some g => [g]
                  | None => []
                  end ++
                  splitLoop fuel' fl r [] (before st) (after st)
              end
          end
      end
  end.

Definition split (fl : flags) (r : regex) (s : jsstr) : list jsstr :=
  match s with
  | [] =>
      match matchAt fl r [] [] with
      | Some _ => []
      | None => [[]]
      end
  | _ => splitLoop (2 * length s + 2) fl r [] [] s
  end.

End Matcher.

(** ** Replacement templates and pattern sources *)

(** [GetSubstitution] for a pattern without capture groups: [$$], [$&],
    [$`] and [$'] are expanded; a [$] before anything else (a digit
    included, as no group exists) stands for itself. *)
Fixpoint getSubstitution (matched textBefore textAfter tmpl : jsstr) : jsstr :=
  match tmpl with
  | [] => []
  | c :: rest =>
      if c =? 36 then
        match rest with
        | d :: rest' =>
            if d =? 36 then
              36 :: getSubstitution matched textBefore textAfter rest'
            else if d =? 38 then
              matched ++ getSubstitution matched textBefore textAfter rest'
            else if d =? 96 then
              textBefore ++ getSubstitution matched textBefore textAfter rest'
            else if d =? 39 then
              textAfter ++ getSubstitution matched textBefore textAfter rest'
            else c :: getSubstitution matched textBefore textAfter rest
        | [] => [c]
        end
      else c :: getSubstitution matched textBefore textAfter rest
  end.

(** A string used as the replacement value of [replace]. *)
Definition template (tmpl : jsstr) : jsstr -> jsstr -> jsstr -> jsstr :=
  fun matched textBefore textAfter =>
    getSubstitution matched textBefore textAfter tmpl.

(** [new RegExp(src)] for a source made of pattern characters and identity
    escapes, the only shape the plugin builds from user text. *)
Fixpoint compileEscaped (src : jsstr) : regex :=
  match src with
  | [] => REmpty
  | c :: rest =>
      if c =? 92 then
        match rest with
        | d :: rest' => RSeq (RSet (CsChar d)) (compileEscaped rest')
        | [] => REmpty
        end
      else RSeq (RSet (CsChar c)) (compileEscaped rest)
  end.

Definition noFlags : flags := {| ignoreCase := false; multiline := false |}.
Definition flagsG : flags := noFlags.   (* g: handled by the caller's loop *)
Definition flagsGI : flags := {| ignoreCase := true; multiline := false |}.
Definition flagsM : flags := {| ignoreCase := false; multiline := true |}.

(** The characters of the class in [escapeRegExp]:
    [. * + ? ^ $ { } ( ) | [ ] \]. *)
Definition regExpSpecials : list N :=
  [46; 42; 43; 63; 94; 36; 123; 125; 40; 41; 124; 91; 93; 92].

Section Plugin.
Context {rt : Runtime}.

(** [string.replace(/[.*+?^${}()|[\]\\]/g, '\\$&')] *)
Definition escapeRegExp (s : jsstr) : jsstr :=
  replaceAll flagsG (RSet (CsClass false regExpSpecials))
    (template (str "\$&")) s.

(** ** Settings *)

Record AutoLinkerSettings := {
  existingFilesOnly : bool;
  specifiedDirectory : jsstr;
  excludedBlocks : jsstr;
  blacklistedStrings : jsstr;
  whitelistedStrings : jsstr;
  linksToRemove : jsstr;
  debugMode : bool
}.

Definition DEFAULT_SETTINGS : AutoLinkerSettings := {|
  existingFilesOnly := false;
  specifiedDirectory := [];
  excludedBlocks := [];
  blacklistedStrings := [];
  whitelistedStrings := [];
  linksToRemove := [];
  debugMode := false
|}.

(** [s.split(',').map((x) => x.trim().toLowerCase()).filter(Boolean)] *)
Definition parseList (s : jsstr) : list jsstr :=
  List.filter nonEmpty (map (fun x => toLowerCase (trim x)) (splitChar 44 s)).

(** [s.split(',').map((x) => x.trim()).filter(Boolean)] *)
Definition parseListCased (s : jsstr) : list jsstr :=
  List.filter nonEmpty (map trim (splitChar 44 s)).

(** ** The vault *)

Record TFile := { path : jsstr; basename : jsstr; extension : jsstr }.

Inductive TAbstractFile : Type :=
| AFile (f : TFile)
| AFolder (folderPath : jsstr) (children : list TAbstractFile).

(** The folder tree and the documents' contents.  A file of the tree
    without an entry in [data] cannot be read or written: the host's
    promise rejects. *)
Record Vault := { root : TAbstractFile; data : gmap jsstr jsstr }.

Definition read (v : Vault) (f : TFile) : option jsstr :=
  data v !! path f.

Definition modify (v : Vault) (f : TFile) (content : jsstr) : option Vault :=
  match data v !! path f with
  | Some _ =>
      if writable (path f)
      then Some {| root := root v; data := <[path f := content]> (data v) |}
      else None
  | None => None
  end.

Definition abstractPath (a : TAbstractFile) : jsstr :=
  match a with
  | AFile f => path f
  | AFolder p _ => p
  end.

Fixpoint findByPath (p : jsstr) (a : TAbstractFile) : option TAbstractFile :=
  if jsstr_eqb (abstractPath a) p then Some a
  else
    match a with
    | AFile _ => None
    | AFolder _ ch =>
        (fix go (l : list TAbstractFile) : option TAbstractFile :=
           match l with
           | [] => None
           | x :: l' =>
               match findByPath p x with
               | Some r => Some r
               | None => go l'
               end
           end) ch
    end.

Definition getAbstractFileByPath (v : Vault) (p : jsstr)
    : option TAbstractFile :=
  findByPath p (root v).

(** [fileExists]: the link without a trailing [.md], plus [.md], names a
    file of the vault. *)
Definition fileExists (v : Vault) (link : jsstr) : bool :=
  let linkWithoutExtension :=
    replaceFirst noFlags (RSeq (compileEscaped (str "\.md")) REol)
      (template []) link in
  match getAbstractFileByPath v (linkWithoutExtension ++ str ".md") with
  | Some (AFile _) => true
  | _ => false
  end.

(** ** Section-aware linking *)

(** [(?<!\[\[)\b(word)\b(?!\]\])] *)
Definition linkPattern (word : jsstr) : regex :=
  RSeq (RNotBehind (compileEscaped (str "\[\[")))
    (RSeq RWordB
       (RSeq (RGroup (compileEscaped (escapeRegExp word)))
          (RSeq RWordB (RNotAhead (compileEscaped (str "\]\]")))))).

(** [/^(#.*$)/m] *)
Definition headingPattern : regex :=
  RSeq RBol (RGroup (RSeq (RSet (CsChar 35)) (RSeq (RStar CsDot) REol))).

(** The callback of [replace] in [linkWords]. *)
Definition wrapMatch (s : AutoLinkerSettings) (v : Vault)
    : jsstr -> jsstr -> jsstr -> jsstr :=
  fun matched _ _ =>
    if existingFilesOnly s && negb (fileExists v matched) then matched
    else str "[[" ++ matched ++ str "]]".

(** The guard around the replacement of one word. *)
Definition isLinkable (s : AutoLinkerSettings) (word : jsstr) : bool :=
  let lowercaseWord := toLowerCase word in
  negb (arrayIncludes (parseList (blacklistedStrings s)) lowercaseWord) &&
  ((length (parseList (whitelistedStrings s)) =? 0)%nat ||
   arrayIncludes (parseList (whitelistedStrings s)) lowercaseWord).

(** The body of [for (const word of wordsToLink)]. *)
Definition linkWord (s : AutoLinkerSettings) (v : Vault)
    (section word : jsstr) : jsstr :=
  if isLinkable s word then
    replaceAll flagsGI (linkPattern word) (wrapMatch s v) section
  else section.

(** The loop over the sections, [isExcludedBlock] threaded through. *)
Fixpoint linkSections (s : AutoLinkerSettings) (v : Vault)
    (wordsToLink : list jsstr) (isExcludedBlock : bool)
    (sections : list jsstr) : list jsstr :=
  match sections with
  | [] => []
  | sec :: rest =>
      if startsWith sec (str "#") then
        sec ::
        linkSections s v wordsToLink
          (existsb (fun block => includes (toLowerCase sec) block)
             (parseList (excludedBlocks s)))
          rest
      else if negb isExcludedBlock then
        fold_left (linkWord s v) wordsToLink sec ::
        linkSections s v wordsToLink isExcludedBlock rest
      else sec :: linkSections s v wordsToLink isExcludedBlock rest
  end.

Definition linkWords (s : AutoLinkerSettings) (v : Vault)
    (content : jsstr) (wordsToLink : list jsstr) : jsstr :=
  let sections := split flagsM headingPattern content in
  join (linkSections s v wordsToLink false sections).

(** ** Corpus scan *)

(** [[^\]]] *)
Definition notBracket : charset := CsClass true [93].

(** [/\[\[([^\]]+)\]\]/g] *)
Definition linkRegex : regex :=
  RSeq (compileEscaped (str "\[\["))
    (RSeq (RGroup (RSeq (RSet notBracket) (RStar notBracket)))
       (compileEscaped (str "\]\]"))).

(** [r.exec(s)] for a global [r] whose [lastIndex] is at the zipper's
    position: the first position from there on at which [r] matches. *)
Fixpoint execFrom (fl : flags) (r : regex) (pre suf : jsstr)
    : option mstate :=
  match matchAt fl r pre suf with
  | Some st => Some st
  | None =>
      match suf with
      | [] => None
      | c :: suf' => execFrom fl r (c :: pre) suf'
      end
  end.

(** [match[1].split('|')[0].trim()] *)
Definition targetOf (match1 : jsstr) : jsstr :=
  trim (hd [] (splitChar 124 match1)).

(** [!link.includes('.') || link.endsWith('.md')] *)
Definition retains (link : jsstr) : bool :=
  negb (includes link (str ".")) || endsWith link (str ".md").

(** The [while ((match = linkRegex.exec(content)) !== null)] loop. *)
Fixpoint fileLinksLoop (fuel : nat) (pre suf : jsstr) : list jsstr :=
  match fuel with
  | O => []
  | S fuel' =>
      match execFrom flagsG linkRegex pre suf with
      | None => []
      | Some st =>
          let link := targetOf (default [] (capture st)) in
          (if retains link then [link] else []) ++
          fileLinksLoop fuel' (before st) (after st)
      end
  end.

(** [getFileLinks], on the content read from the file. *)
Definition fileLinks (content : jsstr) : list jsstr :=
  fileLinksLoop (S (length content)) [] content.

Definition getFileLinks (v : Vault) (f : TFile) : option (list jsstr) :=
  content ← read v f; Some (fileLinks content).

(** [Set.prototype.add]: a set keeps its elements in insertion order. *)
Definition setAdd (links : list jsstr) (link : jsstr) : list jsstr :=
  if arrayIncludes links link then links else links ++ [link].

Fixpoint processFolder (v : Vault) (folder : TAbstractFile)
    (links : list jsstr) : option (list jsstr) :=
  match folder with
  | AFile _ => Some links
  | AFolder _ ch =>
      (fix go (l : list TAbstractFile) (links : list jsstr)
         : option (list jsstr) :=
         match l with
         | [] => Some links
         | child :: l' =>
             match child with
             | AFile f =>
                 if jsstr_eqb (extension f) (str "md") then
                   match getFileLinks v f with
                   | Some fileLinks => go l' (fold_left setAdd fileLinks links)
                   | None => None
                   end
                 else go l' links
             | AFolder _ _ =>
                 match processFolder v child links with
                 | Some links' => go l' links'
                 | None => None
                 end
             end
         end) ch links
  end.

Definition getVaultLinks (v : Vault) : option (list jsstr) :=
  processFolder v (root v) [].

(** [getWordsToLink]: the vocabulary, pruned by a non-empty whitelist. *)
Definition getWordsToLink (s : AutoLinkerSettings) (v : Vault)
    : option (list jsstr) :=
  vaultLinks ← getVaultLinks v;
  let words := fold_left setAdd vaultLinks [] in
  let whitelist := parseList (whitelistedStrings s) in
  if (0 <? length whitelist)%nat then
    Some (List.filter (fun word => arrayIncludes whitelist (toLowerCase word))
            words)
  else Some words.

Fixpoint getMarkdownFiles (folder : TAbstractFile) : list TFile :=
  match folder with
  | AFile _ => []
  | AFolder _ ch =>
      (fix go (l : list TAbstractFile) : list TFile :=
         match l with
         | [] => []
         | child :: l' =>
             match child with
             | AFile f =>
                 if jsstr_eqb (extension f) (str "md") then f :: go l'
                 else go l'
             | AFolder _ _ => getMarkdownFiles child ++ go l'
             end
         end) ch
  end.

(** ** Link removal *)

(** [new RegExp(`\[\[${this.escapeRegExp(link)}\]\]`, 'gi')] *)
Definition removePattern (link : jsstr) : regex :=
  compileEscaped (str "\[\[" ++ escapeRegExp link ++ str "\]\]").

Definition removeLinks (content : jsstr) (linksToRemove : list jsstr)
    : jsstr :=
  fold_left
    (fun newContent link =>
       replaceAll flagsGI (removePattern link) (template link) newContent)
    linksToRemove content.

(** ** The plugin's state and commands *)

Record Change := { file : TFile; oldContent : jsstr }.

(** The notices shown to the user, by message. *)
Inductive Notice : Type :=
| NoticeCompleted (basename : jsstr)       (* Auto-linking completed for .. *)
| NoticeNoActiveFile                       (* No active Markdown file to auto-link *)
| NoticeFailed (path : jsstr)              (* Failed to auto-link file: .. *)
| NoticeInvalidDirectory                   (* Invalid directory specified *)
| NoticeExtended (files : nat) (dir : jsstr)  (* Linking extended to .. files in .. *)
| NoticeRemoved (files : nat) (dir : jsstr)   (* Removed links from .. file(s) in .. *)
| NoticeNothingToUndo                      (* No changes to undo *)
| NoticeUndid (files : nat).               (* Undid changes in .. file(s) *)

Record AutoLinkerPlugin := {
  settings : AutoLinkerSettings;
  vault : Vault;
  activeFile : option TFile;    (* the active Markdown view's file *)
  lastChanges : list Change;
  notices : list Notice
}.

Definition notify (p : AutoLinkerPlugin) (n : Notice) : AutoLinkerPlugin :=
  {| settings := settings p; vault := vault p; activeFile := activeFile p;
     lastChanges := lastChanges p; notices := notices p ++ [n] |}.

Definition setVault (p : AutoLinkerPlugin) (v : Vault) : AutoLinkerPlugin :=
  {| settings := settings p; vault := v; activeFile := activeFile p;
     lastChanges := lastChanges p; notices := notices p |}.

Definition setLastChanges (p : AutoLinkerPlugin) (l : list Change)
    : AutoLinkerPlugin :=
  {| settings := settings p; vault := vault p; activeFile := activeFile p;
     lastChanges := l; notices := notices p |}.

(** How an [async] method ends: it returns, or its promise rejects. *)
Inductive completion := Returned | Rejected.

(** [autoLinkFile]: every rejection inside is caught and reported. *)
Definition autoLinkFile (p : AutoLinkerPlugin) (f : TFile)
    : AutoLinkerPlugin :=
  match read (vault p) f with
  | None => notify p (NoticeFailed (path f))
  | Some content =>
      match getWordsToLink (settings p) (vault p) with
      | None => notify p (NoticeFailed (path f))
      | Some wordsToLink =>
          let linkedContent :=
            linkWords (settings p) (vault p) content wordsToLink in
          if negb (jsstr_eqb content linkedContent) then
            let p1 :=
              setLastChanges p
                (lastChanges p ++ [{| file := f; oldContent := content |}]) in
            match modify (vault p1) f linkedContent with
            | Some v' => setVault p1 v'
            | None => notify p1 (NoticeFailed (path f))
            end
          else p
      end
  end.

Definition autoLinkCurrentFile (p : AutoLinkerPlugin) : AutoLinkerPlugin :=
  let p0 := setLastChanges p [] in
  match activeFile p0 with
  | Some f => notify (autoLinkFile p0 f) (NoticeCompleted (basename f))
  | None => notify p0 NoticeNoActiveFile
  end.

Definition extendLinkingToDirectory (p : AutoLinkerPlugin)
    : AutoLinkerPlugin :=
  match getAbstractFileByPath (vault p) (specifiedDirectory (settings p)) with
  | Some (AFolder dp ch) =>
      let files := getMarkdownFiles (AFolder dp ch) in
      notify (fold_left autoLinkFile files p)
        (NoticeExtended (length files) (specifiedDirectory (settings p)))
  | _ => notify p NoticeInvalidDirectory
  end.

(** The [for (const file of files)] loop of [removeLinksFromDirectory];
    a failing read or write rejects the whole command. *)
Fixpoint removeLoop (links : list jsstr) (files : list TFile)
    (p : AutoLinkerPlugin) (totalRemoved : nat)
    : AutoLinkerPlugin * option nat :=
  match files with
  | [] => (p, Some totalRemoved)
  | f :: files' =>
      match read (vault p) f with
      | None => (p, None)
      | Some content =>
          let newContent := removeLinks content links in
          if negb (jsstr_eqb content newContent) then
            match modify (vault p) f newContent with
            | Some v' => removeLoop links files' (setVault p v') (S totalRemoved)
            | None => (p, None)
            end
          else removeLoop links files' p totalRemoved
      end
  end.

Definition removeLinksFromDirectory (p : AutoLinkerPlugin)
    : AutoLinkerPlugin * completion :=
  match getAbstractFileByPath (vault p) (specifiedDirectory (settings p)) with
  | Some (AFolder dp ch) =>
      let files := getMarkdownFiles (AFolder dp ch) in
      let linksToRemove := parseListCased (linksToRemove (settings p)) in
      match removeLoop linksToRemove files p 0 with
      | (p', Some totalRemoved) =>
          (notify p'
             (NoticeRemoved totalRemoved (specifiedDirectory (settings p))),
           Returned)
      | (p', None) => (p', Rejected)
      end
  | _ => (notify p NoticeInvalidDirectory, Returned)
  end.

(** The [for (const change of this.lastChanges)] loop of
    [undoLastChanges]. *)
Fixpoint undoLoop (changes : list Change) (v : Vault) : Vault * completion :=
  match changes with
  | [] => (v, Returned)
  | change :: rest =>
      match modify v (file change) (oldContent change) with
      | Some v' => undoLoop rest v'
      | None => (v, Rejected)
      end
  end.

Definition undoLastChanges (p : AutoLinkerPlugin)
    : AutoLinkerPlugin * completion :=
  if (length (lastChanges p) =? 0)%nat then
    (notify p NoticeNothingToUndo, Returned)
  else
    match undoLoop (lastChanges p) (vault p) with
    | (v', Returned) =>
        (setLastChanges
           (notify (setVault p v') (NoticeUndid (length (lastChanges p))))
           [],
         Returned)
    | (v', Rejected) => (setVault p v', Rejected)
    end.

End Plugin.

(** * Vocabulary of the statements *)

Section Vocabulary.
Context {rt : Runtime}.

Definition advances (st st' : mstate) : Prop :=
  exists x, after st = x ++ after st' /\ before st' = rev x ++ before st.

(** Where a line ends: at the end of the text or before a line
    terminator. *)
Definition atLineEnd (suf : jsstr) : Prop :=
  suf = [] \/ headIs isLineTerminator suf = true.

(** Body chunks and heading lines alternate, a body chunk first. *)
Inductive chunks : list jsstr -> Prop :=
| chunks_last body :
    startsWith body (str "#") = false -> chunks [body]
| chunks_cons body h rest :
    startsWith body (str "#") = false ->
    startsWith h (str "#") = true ->
    chunks rest -> chunks (body :: h :: rest).

(** The pattern that matches the units of [w] one after the other. *)
Definition litRegex (w : jsstr) : regex :=
  foldr (fun c r => RSeq (RSet (CsChar c)) r) REmpty w.

(** [suf] starts with [w], up to [Canonicalize]. *)
Fixpoint matchesLit (fl : flags) (w suf : jsstr) : bool :=
  match w, suf with
  | [], _ => true
  | c :: w', d :: suf' =>
      (canonicalize fl c =? canonicalize fl d) && matchesLit fl w' suf'
  | _ :: _, [] => false
  end.

(** What the loop reads off a match. *)
Definition execData (st : mstate) : jsstr * option jsstr :=
  (after st, capture st).

(** Writing the recorded texts back, in the order of the records. *)
Definition restore (d : gmap jsstr jsstr) (changes : list Change)
    : gmap jsstr jsstr :=
  foldl (fun d c => <[path (file c) := oldContent c]> d) d changes.

(** Every record is of a document that is there and can be written. *)
Definition recorded (d : gmap jsstr jsstr) (changes : list Change) : Prop :=
  forall c, c ∈ changes ->
    is_Some (d !! path (file c)) /\ writable (path (file c)) = true.

Definition ledgerPaths (changes : list Change) : list jsstr :=
  (fun c => path (file c)) <$> changes.

(** The state of a run under way: [p0] at its start, [p] now, [visited]
    the files handled so far. *)
Definition runInvariant (p0 p : AutoLinkerPlugin) (visited : list TFile)
    : Prop :=
  root (vault p) = root (vault p0) /\
  (forall c, c ∈ lastChanges p ->
     data (vault p0) !! path (file c) = Some (oldContent c) /\
     is_Some (data (vault p) !! path (file c)) /\
     path (file c) ∈ path <$> visited) /\
  (forall k : jsstr, k ∉ ledgerPaths (lastChanges p) ->
     data (vault p) !! k = data (vault p0) !! k) /\
  NoDup (ledgerPaths (lastChanges p)).

Definition isSpecial (c : N) : bool :=
  existsb (fun a => a =? c) regExpSpecials.

Definition escapeUnit (c : N) : jsstr :=
  if isSpecial c then [92; c] else [c].

(** The link pattern matches [word] at a position: no [[[] just before,
    a word boundary, the units of [word] up to case, a word boundary, no
    []]] just after. *)
Definition linkMatch (word pre suf : jsstr) : bool :=
  negb (startsWith pre [91; 91]) &&
  xorb (headIs isWordChar pre) (headIs isWordChar suf) &&
  matchesLit flagsGI word suf &&
  xorb (headIs isWordChar (rev (firstn (length word) suf) ++ pre))
       (headIs isWordChar (skipn (length word) suf)) &&
  negb (startsWith (skipn (length word) suf) [93; 93]).

(** A non-empty run of word characters (letters, digits, underscore). *)
Definition tokenWord (w : jsstr) : bool :=
  nonEmpty w && forallb isWordChar w.

Section RunVocabulary.
Variables (s : AutoLinkerSettings) (v : Vault).

(** Whether the callback wraps the matched text. *)
Definition wraps (m : jsstr) : bool :=
  negb (existingFilesOnly s && negb (fileExists v m)).

(** The replacement loop of one word, from a position on. *)
Definition relink (w : jsstr) (fuel : nat) (pre suf : jsstr) : jsstr :=
  replaceLoop fuel flagsGI (linkPattern w) (wrapMatch s v) pre suf.

(** No occurrence of [w'] in the text is one the callback would wrap. *)
Definition noWrap (w' pre text : jsstr) : Prop :=
  forall a b, text = a ++ b -> linkMatch w' (rev a ++ pre) b = true ->
              wraps (firstn (length w') b) = false.

(** The text before a position, in the input and in the output of a
    run: either both end alike, or the output has just closed a link. *)
Definition ctxSame (pre preO : jsstr) : Prop :=
  hd_error pre = hd_error preO /\
  (startsWith pre [91; 91] = true -> startsWith preO [91; 91] = true).

Definition ctxRel (pre preO suf : jsstr) : Prop :=
  ctxSame pre preO \/
  (headIs isWordChar pre = true /\ headIs isWordChar preO = false /\
   headIs isWordChar suf = false).

(** A position is at the start of a line: nothing, or a line terminator,
    stands before it. *)
Definition lineStart (pre : jsstr) : bool :=
  match pre with
  | [] => true
  | c :: _ => isLineTerminator c
  end.

Definition lineEnd (suf : jsstr) : bool :=
  match suf with
  | [] => true
  | c :: _ => isLineTerminator c
  end.

(** Whether the position after [a] starts a line, [sol] telling whether
    the position before [a] does. *)
Definition solAfter (sol : bool) (a : jsstr) : bool :=
  match rev a with
  | [] => sol
  | d :: _ => isLineTerminator d
  end.

(** No [#] of the chunk stands at the start of a line. *)
Definition bodyOK (sol : bool) (b : jsstr) : Prop :=
  forall a b', b = a ++ 35 :: b' -> solAfter sol a = false.

(** A section list that [split] would produce: whole heading lines
    between chunks without a heading line. *)
Inductive wellSplit : bool -> list jsstr -> Prop :=
| wellSplit_last sol b : bodyOK sol b -> wellSplit sol [b]
| wellSplit_cons sol b g l :
    bodyOK sol b -> solAfter sol b = true ->
    Forall (fun c => isLineTerminator c = false) g ->
    lineEnd (join l) = true ->
    wellSplit false l ->
    wellSplit sol (b :: (35 :: g) :: l).

(** The text put in place of a match: the match, wrapped or not. *)
Definition replacement (m : jsstr) : jsstr :=
  if wraps m then [91; 91] ++ m ++ [93; 93] else m.

Section WordsVocabulary.
Variable ws : list jsstr.

(** What [linkSections] puts in place of a body chunk. *)
Definition chunkLinked (isExcludedBlock : bool) (b : jsstr) : jsstr :=
  if negb isExcludedBlock then fold_left (linkWord s v) ws b else b.

Definition firstIsBody (l : list jsstr) : Prop :=
  match l with
  | b :: _ => headIs (N.eqb 35) b = false
  | [] => True
  end.

End WordsVocabulary.

End RunVocabulary.

(** The file, if any, that the vault holds at a path. *)
Definition isFileAt (v : Vault) (p : jsstr) : bool :=
  match getAbstractFileByPath v p with
  | Some (AFile _) => true
  | _ => false
  end.

(** The second text is the first with units [[] and []] put in. *)
Inductive bracketsInserted : jsstr -> jsstr -> Prop :=
| bracketsInserted_nil : bracketsInserted [] []
| bracketsInserted_keep c a b :
    bracketsInserted a b -> bracketsInserted (c :: a) (c :: b)
| bracketsInserted_open a b :
    bracketsInserted a b -> bracketsInserted a (91 :: b)
| bracketsInserted_close a b :
    bracketsInserted a b -> bracketsInserted a (93 :: b).

Definition isBracket (c : N) : bool := (c =? 91) || (c =? 93).

(** A text with its bracket units taken out. *)
Definition withoutBrackets (s : jsstr) : jsstr :=
  List.filter (fun c => negb (isBracket c)) s.

(** A file lies in a folder, at any depth. *)
Inductive fileIn (f : TFile) : TAbstractFile -> Prop :=
| fileIn_child p ch : AFile f ∈ ch -> fileIn f (AFolder p ch)
| fileIn_sub p ch sub :
    sub ∈ ch -> fileIn f sub -> fileIn f (AFolder p ch).

(** The Markdown files that one child of a folder contributes. *)
Definition childFiles (child : TAbstractFile) : list TFile :=
  match child with
  | AFile f => if jsstr_eqb (extension f) (str "md") then [f] else []
  | AFolder _ _ => getMarkdownFiles child
  end.

(** The links of a list of files, gathered one file after the other
    into a set. *)
Fixpoint scanFiles (v : Vault) (files : list TFile) (links : list jsstr)
    : option (list jsstr) :=
  match files with
  | [] => Some links
  | f :: rest =>
      match getFileLinks v f with
      | Some fileLinks => scanFiles v rest (fold_left setAdd fileLinks links)
      | None => None
      end
  end.

(** The text of the last record the ledger holds for a path. *)
Fixpoint lastRecord (k : jsstr) (changes : list Change) : option jsstr :=
  match changes with
  | [] => None
  | c :: rest =>
      match lastRecord k rest with
      | Some t => Some t
      | None =>
          if jsstr_eqb (path (file c)) k then Some (oldContent c) else None
      end
  end.

(** Whether removing the links changes the text of a file. *)
Definition removalChanges (v : Vault) (links : list jsstr) (f : TFile)
    : bool :=
  match read v f with
  | Some content => negb (jsstr_eqb content (removeLinks content links))
  | None => false
  end.

(** The word stands somewhere in the text, up to [Canonicalize]. *)
Fixpoint occursIn (fl : flags) (w s : jsstr) : bool :=
  matchesLit fl w s ||
  match s with
  | [] => false
  | _ :: s' => occursIn fl w s'
  end.

(** A term that is not empty and holds no bracket. *)
Definition plainTerm (w : jsstr) : bool :=
  nonEmpty w && forallb (fun c => negb (isBracket c)) w.

(** The pattern of [w] matches nowhere in the text. *)
Definition noMatch (w pre text : jsstr) : Prop :=
  forall a b, text = a ++ b -> linkMatch w (rev a ++ pre) b = false.

(** The text before a position, in the input and in the output of a run
    that wraps every match: either both end alike, or the output has
    just closed a link around a match of the input. *)
Definition ctxPlain (pre preO suf : jsstr) : Prop :=
  ctxSame pre preO \/
  (headIs isWordChar preO = false /\ startsWith preO [91; 91] = false /\
   headIs (N.eqb 91) pre = false /\
   xorb (headIs isWordChar pre) (headIs isWordChar suf) = true).

(** The text up to the first []], when the unit after it is a []] too,
    with the text after the two. *)
Fixpoint untilClose (s : jsstr) : option (jsstr * jsstr) :=
  match s with
  | [] => None
  | c :: s' =>
      if c =? 93
      then match s' with
           | d :: rest => if d =? 93 then Some ([], rest) else None
           | [] => None
           end
      else match untilClose s' with
           | Some (body, rest) => Some (c :: body, rest)
           | None => None
           end
  end.

(** The link that opens a text: [[[body]]rest] with a [body] that is not
    empty and holds no []]. *)
Definition bracketed (s : jsstr) : option (jsstr * jsstr) :=
  match s with
  | c :: d :: s' =>
      if (c =? 91) && (d =? 91)
      then match untilClose s' with
           | Some (b :: body, rest) => Some (b :: body, rest)
           | _ => None
           end
      else None
  | _ => None
  end.

(** The text after the last [.] of a name that has one. *)
Definition suffixOf (link : jsstr) : option jsstr :=
  match rev (splitChar 46 link) with
  | e :: _ :: _ => Some e
  | _ => None
  end.

(** A suffix that reads as a file extension: not empty, and made of
    letters, digits and underscores. *)
Definition extensionLike (e : jsstr) : bool :=
  nonEmpty e && forallb isWordChar e.

(** The rule of retention in the words of the specification: a target is
    kept when it has no extension-like suffix, or its suffix is [md]. *)
Definition retainsAsSpecified (link : jsstr) : bool :=
  match suffixOf link with
  | Some e => negb (extensionLike e) || jsstr_eqb e (str "md")
  | None => true
  end.

End Vocabulary.

(** * Scenario data

    Concrete vaults and settings, on ASCII text, where the host's case
    tables are known. *)

Definition asciiLower (c : N) : N :=
  if (65 <=? c) && (c <=? 90) then c + 32 else c.

(** The host tables on ASCII text; other units are left alone. *)
Definition asciiRuntime : Runtime :=
  {| unicodeUpper := fun c => c; toLowerCase := map asciiLower;
     writable := fun _ => true |}.

(** The same host, but it lets no document of the folder [notes] be
    written. *)
Definition lockedRuntime : Runtime :=
  {| unicodeUpper := fun c => c; toLowerCase := map asciiLower;
     writable := fun p => negb (startsWith p (str "notes/")) |}.

Definition mdFile (p b : string) : TFile :=
  {| path := str p; basename := str b; extension := str "md" |}.

Definition noteA : TFile := mdFile "notes/A.md" "A".
Definition noteB : TFile := mdFile "notes/B.md" "B".
Definition noteC : TFile := mdFile "C.md" "C".

(** A vault with two notes in the folder [notes] and one at the root. *)
Definition tripVault : Vault :=
  {| root :=
       AFolder (str "/")
         [AFolder (str "notes") [AFile noteA; AFile noteB]; AFile noteC];
     data :=
       <[str "notes/A.md" := str "See [[Paris]]."]>
         (<[str "notes/B.md" := str "Paris is nice."]>
            (<[str "C.md" := str "Paris again"]> ∅)) |}.

Definition tripSettings : AutoLinkerSettings :=
  {| existingFilesOnly := false; specifiedDirectory := str "notes";
     excludedBlocks := str "Tasks"; blacklistedStrings := str "Rome";
     whitelistedStrings := []; linksToRemove := str "Paris";
     debugMode := false |}.

Definition tripPlugin : AutoLinkerPlugin :=
  {| settings := tripSettings; vault := tripVault; activeFile := Some noteC;
     lastChanges := []; notices := [] |}.

Definition alphaOnly : AutoLinkerSettings :=
  {| existingFilesOnly := false; specifiedDirectory := [];
     excludedBlocks := []; blacklistedStrings := [];
     whitelistedStrings := str "Alpha"; linksToRemove := [];
     debugMode := false |}.

(** A vault whose only note links to [Alpha] and to [Beta]. *)
Definition greekVault : Vault :=
  {| root := AFolder (str "/") [AFile (mdFile "Greek.md" "Greek")];
     data := <[str "Greek.md" := str "[[Alpha]] and [[Beta]]"]> ∅ |}.

(** A vault whose only note holds a link with a blank target. *)
Definition blankVault : Vault :=
  {| root := AFolder (str "/") [AFile (mdFile "Blank.md" "Blank")];
     data := <[str "Blank.md" := str "[[ ]] cat"]> ∅ |}.

(** A document with a leading chunk and two headed sections. *)
Definition tasksDocument : jsstr :=
  str "intro Paris" ++ [10] ++ str "# Tasks in Paris" ++ [10] ++
  str "visit Paris" ++ [10] ++ str "## Other" ++ [10] ++ str "more Paris".

Definition emptyVault : Vault :=
  {| root := AFolder (str "/") []; data := ∅ |}.

Definition existingOnly : AutoLinkerSettings :=
  {| existingFilesOnly := true; specifiedDirectory := [];
     excludedBlocks := []; blacklistedStrings := [];
     whitelistedStrings := []; linksToRemove := [];
     debugMode := false |}.

(** A vault with the notes [go go] and [Go], the first linking to
    both. *)
Definition goVault : Vault :=
  {| root :=
       AFolder (str "/")
         [AFile (mdFile "go go.md" "go go"); AFile (mdFile "Go.md" "Go")];
     data :=
       <[str "go go.md" := str "[[go go]] and [[Go]]"]>
         (<[str "Go.md" := str "Go"]> ∅) |}.

(** A vault whose only note holds a link to [x] and one whose target
    has brackets in it. *)
Definition nestVault : Vault :=
  {| root := AFolder (str "/") [AFile (mdFile "Nest.md" "Nest")];
     data := <[str "Nest.md" := str "[[x]] and [[a[[]]"]> ∅ |}.

(** A vault whose tree lists a note that cannot be read. *)
Definition brokenVault : Vault :=
  {| root :=
       AFolder (str "/")
         [AFolder (str "notes") [AFile noteA; AFile noteB]; AFile noteC];
     data :=
       <[str "notes/B.md" := str "Paris is nice."]>
         (<[str "C.md" := str "Paris again"]> ∅) |}.

Definition brokenPlugin : AutoLinkerPlugin :=
  {| settings := tripSettings; vault := brokenVault; activeFile := Some noteC;
     lastChanges := []; notices := [] |}.

(** A plugin whose ledger holds two records of one file. *)
Definition twiceRecorded : AutoLinkerPlugin :=
  {| settings := tripSettings; vault := tripVault; activeFile := Some noteC;
     lastChanges :=
       [{| file := noteB; oldContent := str "first" |};
        {| file := noteB; oldContent := str "second" |}];
     notices := [] |}.

(** * Properties *)

Section Theory.
Context {rt : Runtime}.

(** ** Strings *)

Lemma jsstr_eqb_eq (a b : jsstr) : jsstr_eqb a b = true <-> a = b.
Proof.
  revert b. induction a as [|x a IH]; intros [|y b]; simpl; split;
    try congruence; try discriminate.
  - intros H. apply andb_true_iff in H as [Hx Hab].
    apply N.eqb_eq in Hx. apply IH in Hab. congruence.
  - intros H. injection H as -> ->. rewrite N.eqb_refl. simpl.
    now apply IH.
Qed.

Lemma jsstr_eqb_refl (a : jsstr) : jsstr_eqb a a = true.
Proof. now apply jsstr_eqb_eq. Qed.

Lemma arrayIncludes_elem (l : list jsstr) (x : jsstr) :
  arrayIncludes l x = true <-> x ∈ l.
Proof.
  unfold arrayIncludes. rewrite existsb_exists. split.
  - intros (y & Hin & Heq). apply jsstr_eqb_eq in Heq. subst y.
    now apply list_elem_of_In.
  - intros Hin. exists x. split; [now apply list_elem_of_In|].
    apply jsstr_eqb_refl.
Qed.

(** ** Forward matching consumes a prefix of the remaining text *)

Lemma advances_refl st : advances st st.
Proof. now exists []. Qed.

Lemma advances_trans st1 st2 st3 :
  advances st1 st2 -> advances st2 st3 -> advances st1 st3.
Proof.
  intros (x & Hx1 & Hx2) (y & Hy1 & Hy2). exists (x ++ y). split.
  - rewrite Hx1, Hy1. now rewrite app_assoc.
  - rewrite Hy2, Hx2, rev_app_distr. now rewrite app_assoc.
Qed.

Lemma stepChar_forward st c st' :
  stepChar Forward st = Some (c, st') ->
  after st = c :: after st' /\ before st' = c :: before st /\
  capture st' = capture st.
Proof.
  unfold stepChar. destruct (after st) as [|d s] eqn:E; [discriminate|].
  intros [= <- <-]. simpl. auto.
Qed.

Lemma stepChar_advances st c st' :
  stepChar Forward st = Some (c, st') -> advances st st'.
Proof.
  intros H. apply stepChar_forward in H as (H1 & H2 & _).
  exists [c]. simpl. auto.
Qed.

Lemma starLoop_forward n fl cs st k res :
  starLoop n fl Forward cs st k = Some res ->
  exists st', advances st st' /\ k st' = Some res.
Proof.
  revert st. induction n as [|n IH]; intros st; cbn [starLoop].
  - intros H. exists st. split; [apply advances_refl|exact H].
  - destruct (stepChar Forward st) as [[c st1]|] eqn:Es.
    + destruct (csMatches fl cs c).
      * destruct (starLoop n fl Forward cs st1 k) as [r|] eqn:El.
        -- intros Hr. injection Hr as Hr. subst r.
           destruct (IH _ El) as (st' & Ha & Hk).
           exists st'. split; [|exact Hk].
           eapply advances_trans; [eapply stepChar_advances; eauto|exact Ha].
        -- intros H. exists st. split; [apply advances_refl|exact H].
      * intros H. exists st. split; [apply advances_refl|exact H].
    + intros H. exists st. split; [apply advances_refl|exact H].
Qed.

Lemma rmatch_forward fl r : forall st k res,
  rmatch fl Forward r st k = Some res ->
  exists st', advances st st' /\ k st' = Some res.
Proof.
  induction r as [|cs|r1 IH1 r2 IH2|cs|r1 IH1| | | |r1 IH1|r1 IH1];
    intros st k res; cbn [rmatch].
  - intros H. exists st. split; [apply advances_refl|exact H].
  - destruct (stepChar Forward st) as [[c st1]|] eqn:Es; [|discriminate].
    destruct (csMatches fl cs c); [|discriminate].
    intros H. exists st1. split; [eapply stepChar_advances; eauto|exact H].
  - intros H. apply IH1 in H as (st1 & Ha1 & H).
    apply IH2 in H as (st2 & Ha2 & H).
    exists st2. split; [eapply advances_trans; eauto|exact H].
  - apply starLoop_forward.
  - intros H. apply IH1 in H as (st1 & Ha1 & H).
    eexists. split; [|exact H]. exact Ha1.
  - destruct (before st) as [|c p].
    + intros H. exists st. split; [apply advances_refl|exact H].
    + destruct (multiline fl && isLineTerminator c); [|discriminate].
      intros H. exists st. split; [apply advances_refl|exact H].
  - destruct (after st) as [|c p].
    + intros H. exists st. split; [apply advances_refl|exact H].
    + destruct (multiline fl && isLineTerminator c); [|discriminate].
      intros H. exists st. split; [apply advances_refl|exact H].
  - destruct (xorb _ _); [|discriminate].
    intros H. exists st. split; [apply advances_refl|exact H].
  - destruct (rmatch fl Forward r1 st Some); [discriminate|].
    intros H. exists st. split; [apply advances_refl|exact H].
  - destruct (rmatch fl Backward r1 st Some); [discriminate|].
    intros H. exists st. split; [apply advances_refl|exact H].
Qed.

Lemma matchAt_advances fl r pre suf st :
  matchAt fl r pre suf = Some st ->
  exists x, suf = x ++ after st /\ before st = rev x ++ pre.
Proof.
  unfold matchAt. intros H. apply rmatch_forward in H as (st' & Ha & [= ->]).
  exact Ha.
Qed.

Lemma captured_forward st st' x :
  after st = x ++ after st' -> captured Forward st st' = x.
Proof.
  intros H. unfold captured. rewrite H, length_app.
  replace (length x + length (after st') - length (after st'))%nat
    with (length x) by lia.
  now rewrite firstn_app, firstn_all, Nat.sub_diag, firstn_O, app_nil_r.
Qed.

Lemma rmatch_group fl dir r st k :
  rmatch fl dir (RGroup r) st k =
  rmatch fl dir r st
    (fun st' => k {| before := before st'; after := after st';
                     capture := Some (captured dir st st') |}).
Proof. reflexivity. Qed.

Lemma rmatch_seq fl r1 r2 st k :
  rmatch fl Forward (RSeq r1 r2) st k =
  rmatch fl Forward r1 st (fun st' => rmatch fl Forward r2 st' k).
Proof. reflexivity. Qed.

Lemma rmatch_bol fl st k :
  rmatch fl Forward RBol st k =
  match before st with
  | [] => k st
  | c :: _ => if multiline fl && isLineTerminator c then k st else None
  end.
Proof. reflexivity. Qed.

Lemma rmatch_set fl cs st k :
  rmatch fl Forward (RSet cs) st k =
  match after st with
  | c :: suf =>
      if csMatches fl cs c
      then k {| before := c :: before st; after := suf;
                capture := capture st |}
      else None
  | [] => None
  end.
Proof. cbn [rmatch]. unfold stepChar. now destruct (after st). Qed.

Lemma rmatch_eol fl st k :
  rmatch fl Forward REol st k =
  match after st with
  | [] => k st
  | c :: _ => if multiline fl && isLineTerminator c then k st else None
  end.
Proof. reflexivity. Qed.

Lemma rmatch_star fl cs st k :
  rmatch fl Forward (RStar cs) st k =
  starLoop (length (after st)) fl Forward cs st k.
Proof. reflexivity. Qed.

Lemma starLoop_S n fl cs st k :
  starLoop (S n) fl Forward cs st k =
  match after st with
  | c :: suf =>
      if csMatches fl cs c then
        match starLoop n fl Forward cs
                {| before := c :: before st; after := suf;
                   capture := capture st |} k with
        | Some r => Some r
        | None => k st
        end
      else k st
  | [] => k st
  end.
Proof. cbn [starLoop]. unfold stepChar. now destruct (after st). Qed.

(** ** Sections partition the text *)

(** A heading match captures the whole matched line. *)
Lemma heading_match pre suf st :
  matchAt flagsM headingPattern pre suf = Some st ->
  exists g, capture st = Some g /\ suf = g ++ after st /\
            before st = rev g ++ pre.
Proof.
  unfold matchAt, headingPattern. rewrite rmatch_seq, rmatch_bol.
  cbn [before].
  set (st0 := {| before := pre; after := suf; capture := None |}).
  assert (Hg : rmatch flagsM Forward
                 (RGroup (RSeq (RSet (CsChar 35)) (RSeq (RStar CsDot) REol)))
                 st0 Some = Some st ->
               exists g, capture st = Some g /\ suf = g ++ after st /\
                         before st = rev g ++ pre).
  { rewrite rmatch_group. intros H.
    apply rmatch_forward in H as (st' & (x & Hx1 & Hx2) & [= <-]).
    exists x. split; [|split]; [|exact Hx1|exact Hx2].
    cbn [capture]. f_equal. now apply (captured_forward st0 st' x). }
  destruct pre as [|c pre']; [exact Hg|].
  destruct (multiline flagsM && isLineTerminator c); [exact Hg|discriminate].
Qed.

Lemma splitLoop_join fuel : forall piece pre suf,
  join (splitLoop fuel flagsM headingPattern piece pre suf) = rev piece ++ suf.
Proof.
  unfold join. induction fuel as [|fuel IH]; intros piece pre suf;
    cbn [splitLoop].
  - simpl. now rewrite app_nil_r.
  - destruct suf as [|c suf'].
    + simpl. reflexivity.
    + destruct (matchAt flagsM headingPattern pre (c :: suf')) as [st|] eqn:Em.
      * destruct (heading_match _ _ _ Em) as (g & Hc & Hs & _).
        assert (Hstep : concat (splitLoop fuel flagsM headingPattern
                                  (c :: piece) (c :: pre) suf')
                        = rev piece ++ c :: suf').
        { rewrite IH. simpl. now rewrite <- app_assoc. }
        assert (Hcut : concat (rev piece ::
                          match capture st with Some g0 => [g0] | None => [] end
                          ++ splitLoop fuel flagsM headingPattern []
                               (before st) (after st))
                       = rev piece ++ c :: suf').
        { rewrite Hc. simpl. rewrite IH. simpl. now rewrite <- Hs. }
        destruct (matchLen (c :: suf') st); destruct piece; assumption.
      * rewrite IH. simpl. now rewrite <- app_assoc.
Qed.

Lemma split_join (content : jsstr) :
  join (split flagsM headingPattern content) = content.
Proof.
  unfold split. destruct content as [|c content'].
  - reflexivity.
  - now rewrite splitLoop_join.
Qed.

Lemma linkSections_no_words s v : forall isExcludedBlock sections,
  linkSections s v [] isExcludedBlock sections = sections.
Proof.
  intros b sections. revert b.
  induction sections as [|sec rest IH]; intros b; cbn [linkSections].
  - reflexivity.
  - destruct (startsWith sec (str "#")); [now rewrite IH|].
    destruct (negb b); simpl; now rewrite IH.
Qed.

(** C2.  Splitting a text into heading and body sections and joining the
    sections again gives the text back, whatever the text; and linking
    with an empty word list returns the text unchanged. *)
Theorem C2_split_join_partition (content : jsstr) :
  join (split flagsM headingPattern content) = content /\
  forall s v, linkWords s v content [] = content.
Proof.
  split.
  - apply split_join.
  - intros s v. unfold linkWords. rewrite linkSections_no_words.
    apply split_join.
Qed.

(** ** Whitelist and blacklist gating *)

Lemma isLinkable_blacklisted s word :
  toLowerCase word ∈ parseList (blacklistedStrings s) ->
  isLinkable s word = false.
Proof.
  intros H. unfold isLinkable. apply arrayIncludes_elem in H.
  now rewrite H.
Qed.

Lemma isLinkable_not_whitelisted s word :
  parseList (whitelistedStrings s) <> [] ->
  toLowerCase word ∉ parseList (whitelistedStrings s) ->
  isLinkable s word = false.
Proof.
  intros Hne Hnot. unfold isLinkable.
  destruct (parseList (whitelistedStrings s)) as [|a l] eqn:E;
    [congruence|].
  replace (arrayIncludes (a :: l) (toLowerCase word)) with false.
  - simpl. apply andb_false_r.
  - symmetry. apply not_true_is_false. intros Hin.
    apply arrayIncludes_elem in Hin. contradiction.
Qed.

Lemma linkWord_not_linkable s v sec word :
  isLinkable s word = false -> linkWord s v sec word = sec.
Proof. intros H. unfold linkWord. now rewrite H. Qed.

Lemma linkSections_ext s v ws ws' :
  (forall sec, fold_left (linkWord s v) ws sec
               = fold_left (linkWord s v) ws' sec) ->
  forall sections b,
    linkSections s v ws b sections = linkSections s v ws' b sections.
Proof.
  intros Hext sections.
  induction sections as [|sec rest IH]; intros b; cbn [linkSections].
  - reflexivity.
  - destruct (startsWith sec (str "#")); [now rewrite IH|].
    destruct (negb b); rewrite IH; [now rewrite Hext|reflexivity].
Qed.

Lemma getWordsToLink_whitelisted s v wordsToLink :
  getWordsToLink s v = Some wordsToLink ->
  parseList (whitelistedStrings s) <> [] ->
  forall word, word ∈ wordsToLink ->
    toLowerCase word ∈ parseList (whitelistedStrings s).
Proof.
  unfold getWordsToLink. destruct (getVaultLinks v) as [vaultLinks|];
    [|discriminate].
  cbn [mbind option_bind].
  destruct (parseList (whitelistedStrings s)) as [|a l] eqn:E.
  - congruence.
  - cbn [length Nat.ltb Nat.leb]. intros [= <-] _ word Hin.
    apply list_elem_of_In, filter_In in Hin as [_ Hin].
    now apply arrayIncludes_elem.
Qed.

(** C5.  A term whose lower-case form is blacklisted is never linked,
    whitelisted or not; with a non-empty whitelist a term whose
    lower-case form is not whitelisted is never linked.  Such a term has
    no effect wherever it stands in the word list, and a non-empty
    whitelist already prunes the vocabulary in [getWordsToLink]. *)
Theorem C5_whitelist_blacklist_gating s v :
  (forall word,
     toLowerCase word ∈ parseList (blacklistedStrings s) \/
     (parseList (whitelistedStrings s) <> [] /\
      toLowerCase word ∉ parseList (whitelistedStrings s)) ->
     isLinkable s word = false /\
     (forall sec, linkWord s v sec word = sec) /\
     (forall content words1 words2,
        linkWords s v content (words1 ++ word :: words2)
        = linkWords s v content (words1 ++ words2))) /\
  (forall wordsToLink,
     getWordsToLink s v = Some wordsToLink ->
     parseList (whitelistedStrings s) <> [] ->
     forall word, word ∈ wordsToLink ->
       toLowerCase word ∈ parseList (whitelistedStrings s)).
Proof.
  split; [|apply getWordsToLink_whitelisted].
  intros word Hword.
  assert (Hl : isLinkable s word = false).
  { destruct Hword as [Hb|[Hne Hw]].
    - now apply isLinkable_blacklisted.
    - now apply isLinkable_not_whitelisted. }
  split; [exact Hl|]. split.
  - intros sec. now apply linkWord_not_linkable.
  - intros content words1 words2. unfold linkWords. f_equal.
    apply linkSections_ext. intros sec.
    rewrite !fold_left_app. cbn [fold_left].
    now rewrite linkWord_not_linkable.
Qed.

(** ** Headings and excluded sections *)

Lemma linkSections_length s v ws : forall sections b,
  length (linkSections s v ws b sections) = length sections.
Proof.
  induction sections as [|sec rest IH]; intros b; cbn [linkSections].
  - reflexivity.
  - destruct (startsWith sec (str "#")); [simpl; now rewrite IH|].
    destruct (negb b); simpl; now rewrite IH.
Qed.

(** A heading is copied, whatever the flag. *)
Lemma linkSections_heading s v ws : forall sections b (i : nat) h,
  sections !! i = Some h -> startsWith h (str "#") = true ->
  linkSections s v ws b sections !! i = Some h.
Proof.
  induction sections as [|sec rest IH]; intros b i h Hi Hh;
    [discriminate|].
  cbn [linkSections]. destruct i as [|i].
  - injection Hi as ->. now rewrite Hh.
  - cbn in Hi. destruct (startsWith sec (str "#")); [now apply IH|].
    destruct (negb b); now apply IH.
Qed.

(** While no heading intervenes, a chunk is treated by the flag alone. *)
Lemma linkSections_body s v ws : forall sections b (j : nat) body,
  sections !! j = Some body ->
  (forall (k : nat) x, (k <= j)%nat -> sections !! k = Some x ->
                       startsWith x (str "#") = false) ->
  linkSections s v ws b sections !! j
  = Some (if b then body else fold_left (linkWord s v) ws body).
Proof.
  induction sections as [|sec rest IH]; intros b j body Hj Hno;
    [discriminate|].
  cbn [linkSections].
  rewrite (Hno 0%nat sec); [|lia|reflexivity].
  destruct j as [|j].
  - injection Hj as ->. now destruct b.
  - assert (Hrest : linkSections s v ws b rest !! j
                    = Some (if b then body
                            else fold_left (linkWord s v) ws body)).
    { apply IH; [exact Hj|]. intros k x Hk Hx.
      apply (Hno (S k) x); [lia|exact Hx]. }
    now destruct b.
Qed.

(** The flag set at a heading. *)
Lemma linkSections_after_heading s v ws :
  forall sections b (i j : nat) h body,
  sections !! i = Some h -> startsWith h (str "#") = true ->
  (i < j)%nat -> sections !! j = Some body ->
  (forall (k : nat) x, (i < k <= j)%nat -> sections !! k = Some x ->
                       startsWith x (str "#") = false) ->
  linkSections s v ws b sections !! j
  = Some (if existsb (fun block => includes (toLowerCase h) block)
               (parseList (excludedBlocks s))
          then body else fold_left (linkWord s v) ws body).
Proof.
  induction sections as [|sec rest IH]; intros b i j h body Hi Hh Hij Hj Hno;
    [discriminate|].
  destruct j as [|j]; [lia|].
  destruct i as [|i].
  - injection Hi as ->. cbn [linkSections]. rewrite Hh.
    change ((h :: ?l) !! S j) with (l !! j).
    apply linkSections_body; [exact Hj|].
    intros k x Hk Hx. apply (Hno (S k) x); [lia|exact Hx].
  - cbn [linkSections].
    assert (Hgo : forall b', linkSections s v ws b' rest !! j
              = Some (if existsb (fun block => includes (toLowerCase h) block)
                           (parseList (excludedBlocks s))
                      then body else fold_left (linkWord s v) ws body)).
    { intros b'. apply (IH b' i j h body); [exact Hi|exact Hh|lia|exact Hj|].
      intros k x Hk Hx. apply (Hno (S k) x); [lia|exact Hx]. }
    destruct (startsWith sec (str "#")); [apply Hgo|].
    destruct (negb b); apply Hgo.
Qed.

(** *** The shape of the section list *)

(** A heading match is a whole line that starts with [#]. *)
Lemma heading_match_line pre suf st :
  matchAt flagsM headingPattern pre suf = Some st ->
  exists g, capture st = Some (35 :: g) /\ suf = (35 :: g) ++ after st /\
            atLineEnd (after st).
Proof.
  unfold matchAt, headingPattern.
  rewrite rmatch_seq, rmatch_bol. cbn [before].
  set (st0 := {| before := pre; after := suf; capture := None |}).
  assert (Hg : rmatch flagsM Forward
                 (RGroup (RSeq (RSet (CsChar 35)) (RSeq (RStar CsDot) REol)))
                 st0 Some = Some st ->
               exists g, capture st = Some (35 :: g) /\
                         suf = (35 :: g) ++ after st /\ atLineEnd (after st)).
  { rewrite rmatch_group, rmatch_seq, rmatch_set. cbn [after st0].
    destruct suf as [|c suf']; [discriminate|].
    cbn [csMatches canonicalize ignoreCase flagsM].
    destruct (35 =? c) eqn:Ec; [|discriminate].
    apply N.eqb_eq in Ec. subst c.
    rewrite rmatch_seq. intros H.
    apply rmatch_forward in H as (st2 & (x & Hx & _) & H).
    cbn [after] in Hx. rewrite rmatch_eol in H.
    assert (Hst : atLineEnd (after st2) /\
                  st = {| before := before st2; after := after st2;
                          capture := Some (captured Forward st0 st2) |}).
    { unfold atLineEnd. revert H.
      destruct (after st2) as [|d rest] eqn:E2.
      - intros [= <-]. split; [now left|reflexivity].
      - destruct (multiline flagsM && isLineTerminator d) eqn:Ed;
          [|discriminate].
        intros [= <-]. split; [|reflexivity].
        right. cbn [headIs]. now apply andb_true_iff in Ed as [_ Ed]. }
    destruct Hst as [Hend ->]. cbn [capture after].
    exists x. split; [|split]; [| |exact Hend].
    - f_equal. apply (captured_forward st0 st2 (35 :: x)).
      cbn [after st0]. simpl. now rewrite Hx.
    - simpl. now rewrite Hx. }
  destruct pre as [|c pre']; [exact Hg|].
  destruct (multiline flagsM && isLineTerminator c); [exact Hg|discriminate].
Qed.

(** At the start of a line, a [#] always opens a heading match. *)
Lemma starLoop_dot_eol n : forall st (K : mstate -> option mstate),
  (forall st', K st' <> None) ->
  length (after st) = n ->
  starLoop n flagsM Forward CsDot st
    (fun st' => rmatch flagsM Forward REol st' K) <> None.
Proof.
  induction n as [|n IH]; intros st K HK Hlen.
  - cbn [starLoop]. rewrite rmatch_eol.
    destruct (after st); [apply HK|discriminate].
  - rewrite starLoop_S. destruct (after st) as [|c suf] eqn:E;
      [discriminate|].
    cbn [csMatches]. destruct (isLineTerminator c) eqn:Ec; cbn [negb].
    + rewrite rmatch_eol, E. cbn [multiline flagsM andb]. rewrite Ec.
      apply HK.
    + specialize (IH {| before := c :: before st; after := suf;
                        capture := capture st |} K HK).
      destruct (starLoop n flagsM Forward CsDot _ _); [discriminate|].
      exfalso. apply IH; [|reflexivity]. cbn [after]. simpl in Hlen. lia.
Qed.

Lemma heading_match_at_line_start pre suf :
  pre = [] \/ headIs isLineTerminator pre = true ->
  matchAt flagsM headingPattern pre (35 :: suf) <> None.
Proof.
  intros Hpre. unfold matchAt, headingPattern.
  rewrite rmatch_seq, rmatch_bol. cbn [before].
  assert (Hg : rmatch flagsM Forward
                 (RGroup (RSeq (RSet (CsChar 35)) (RSeq (RStar CsDot) REol)))
                 {| before := pre; after := 35 :: suf; capture := None |}
                 Some <> None).
  { rewrite rmatch_group, rmatch_seq, rmatch_set. cbn [after].
    cbn [csMatches canonicalize ignoreCase flagsM]. rewrite N.eqb_refl.
    rewrite rmatch_seq, rmatch_star.
    apply starLoop_dot_eol; [discriminate|reflexivity]. }
  destruct Hpre as [->|Hpre]; [exact Hg|].
  destruct pre as [|c pre']; [discriminate|]. cbn [headIs] in Hpre.
  rewrite Hpre. exact Hg.
Qed.

Lemma startsWith_hash (s : jsstr) :
  startsWith s (str "#") = headIs (N.eqb 35) s.
Proof.
  destruct s as [|c s']; [reflexivity|].
  change (str "#") with [35]. cbn [startsWith headIs].
  destruct (35 =? c); destruct s'; reflexivity.
Qed.

Lemma startsWith_hash_snoc (piece : jsstr) c :
  piece <> [] ->
  startsWith (rev (c :: piece)) (str "#") = startsWith (rev piece) (str "#").
Proof.
  intros Hne. rewrite !startsWith_hash. cbn [rev].
  destruct (rev piece) as [|d q] eqn:E; [|reflexivity].
  exfalso. apply Hne. apply (f_equal (@rev N)) in E.
  now rewrite rev_involutive in E.
Qed.

Lemma lineTerminator_not_hash c : isLineTerminator c = true -> c <> 35.
Proof. intros H ->. discriminate. Qed.

Lemma splitLoop_chunks fuel : forall piece pre suf,
  (length suf < fuel)%nat ->
  startsWith (rev piece) (str "#") = false ->
  (piece = [] -> pre = [] \/ atLineEnd suf) ->
  chunks (splitLoop fuel flagsM headingPattern piece pre suf).
Proof.
  induction fuel as [|fuel IH]; intros piece pre suf Hfuel Hpiece Hfresh;
    [lia|].
  cbn [splitLoop]. destruct suf as [|c suf'].
  - now apply chunks_last.
  - destruct (matchAt flagsM headingPattern pre (c :: suf')) as [st|] eqn:Em.
    + destruct (heading_match_line _ _ _ Em) as (g & Hc & Hs & Hend).
      assert (Hlen : matchLen (c :: suf') st = S (length g)).
      { unfold matchLen. rewrite Hs at 1. rewrite length_app. simpl. lia. }
      rewrite Hlen, Hc.
      assert (Hshort : (length (after st) < fuel)%nat).
      { apply (f_equal (@length N)) in Hs. rewrite length_app in Hs.
        simpl in Hs, Hfuel. lia. }
      assert (Hout : chunks (rev piece :: [35 :: g] ++
                       splitLoop fuel flagsM headingPattern []
                         (before st) (after st))).
      { apply chunks_cons;
          [exact Hpiece|now rewrite startsWith_hash|].
        apply IH; [exact Hshort|reflexivity|]. intros _. now right. }
      destruct piece; exact Hout.
    + apply IH.
      * simpl in Hfuel. lia.
      * destruct piece as [|d piece'].
        -- rewrite startsWith_hash. cbn [rev app headIs].
           apply N.eqb_neq. intros <-.
           destruct (Hfresh eq_refl) as [->|[Hnil|Hterm]].
           ++ now apply (heading_match_at_line_start [] suf'); [left|].
           ++ discriminate.
           ++ cbn [headIs] in Hterm. discriminate.
        -- rewrite startsWith_hash_snoc; [exact Hpiece|discriminate].
      * discriminate.
Qed.

Lemma split_chunks (content : jsstr) :
  chunks (split flagsM headingPattern content).
Proof.
  unfold split. destruct content as [|c content'].
  - cbv. now apply chunks_last.
  - apply splitLoop_chunks; [simpl; lia|reflexivity|]. intros _. now left.
Qed.

Lemma chunks_parity l : chunks l ->
  forall (i : nat) x, l !! i = Some x ->
    startsWith x (str "#") = Nat.odd i.
Proof.
  induction 1 as [body Hb|body h rest Hb Hh _ IH]; intros i x Hi.
  - destruct i as [|i]; [|discriminate]. now injection Hi as <-.
  - destruct i as [|[|i]].
    + now injection Hi as <-.
    + now injection Hi as <-.
    + change (rest !! i = Some x) in Hi. rewrite (IH i x Hi).
      now rewrite Nat.odd_succ_succ.
Qed.

(** C6.  The sections of a document are body chunks and heading lines in
    turn, a body chunk first.  A heading line never receives a link.
    The body chunk under a heading whose lower-cased text contains an
    excluded-section rule receives no link either, whatever the word
    list, and the body chunk under any other heading is scanned.  The
    leading body chunk, which no heading precedes, is scanned. *)
Theorem C6_heading_exclusion s v content wordsToLink :
  let sections := split flagsM headingPattern content in
  let linked := linkSections s v wordsToLink false sections in
  chunks sections /\
  linkWords s v content wordsToLink = join linked /\
  length linked = length sections /\
  (forall (i : nat) h,
     sections !! i = Some h -> startsWith h (str "#") = true ->
     linked !! i = Some h) /\
  (forall (i : nat) h body rule,
     sections !! i = Some h -> startsWith h (str "#") = true ->
     sections !! S i = Some body ->
     rule ∈ parseList (excludedBlocks s) ->
     includes (toLowerCase h) rule = true ->
     linked !! S i = Some body) /\
  (forall (i : nat) h body,
     sections !! i = Some h -> startsWith h (str "#") = true ->
     sections !! S i = Some body ->
     (forall rule, rule ∈ parseList (excludedBlocks s) ->
                   includes (toLowerCase h) rule = false) ->
     linked !! S i = Some (fold_left (linkWord s v) wordsToLink body)) /\
  (forall body,
     sections !! 0%nat = Some body ->
     startsWith body (str "#") = false /\
     linked !! 0%nat = Some (fold_left (linkWord s v) wordsToLink body)).
Proof.
  intros sections linked.
  pose proof (split_chunks content) as Hch. fold sections in Hch.
  pose proof (chunks_parity _ Hch) as Hpar.
  assert (Hunder : forall (i : nat) h body,
            sections !! i = Some h -> startsWith h (str "#") = true ->
            sections !! S i = Some body ->
            linked !! S i
            = Some (if existsb (fun block => includes (toLowerCase h) block)
                         (parseList (excludedBlocks s))
                    then body
                    else fold_left (linkWord s v) wordsToLink body)).
  { intros i h body Hi Hh Hb.
    apply (linkSections_after_heading s v wordsToLink sections false i (S i) h);
      [exact Hi|exact Hh|lia|exact Hb|].
    intros k x Hk Hx. assert (k = S i) as -> by lia.
    rewrite (Hpar _ _ Hx). rewrite (Hpar _ _ Hi) in Hh.
    rewrite Nat.odd_succ. rewrite <- Nat.negb_odd. now rewrite Hh. }
  split; [exact Hch|]. split; [reflexivity|].
  split; [apply linkSections_length|].
  split; [|split; [|split]].
  - intros i h Hi Hh. now apply linkSections_heading.
  - intros i h body rule Hi Hh Hb Hrule Hinc.
    rewrite (Hunder i h body Hi Hh Hb).
    replace (existsb _ _) with true; [reflexivity|].
    symmetry. apply existsb_exists. exists rule.
    split; [now apply list_elem_of_In|exact Hinc].
  - intros i h body Hi Hh Hb Hnone.
    rewrite (Hunder i h body Hi Hh Hb).
    replace (existsb _ _) with false; [reflexivity|].
    symmetry. apply not_true_is_false. intros Hex.
    apply existsb_exists in Hex as (rule & Hin & Hinc).
    apply list_elem_of_In in Hin. rewrite (Hnone rule Hin) in Hinc.
    discriminate.
  - intros body Hb.
    assert (Hbody : startsWith body (str "#") = false)
      by apply (Hpar _ _ Hb).
    split; [exact Hbody|].
    apply (linkSections_body s v wordsToLink sections false 0%nat body Hb).
    intros k x Hk Hx. assert (k = 0%nat) as -> by lia.
    rewrite Hb in Hx. now injection Hx as <-.
Qed.

(** ** Literal patterns *)

Lemma rmatch_lit fl w : forall st k,
  rmatch fl Forward (litRegex w) st k =
  if matchesLit fl w (after st)
  then k {| before := rev (firstn (length w) (after st)) ++ before st;
            after := skipn (length w) (after st);
            capture := capture st |}
  else None.
Proof.
  induction w as [|c w IH]; intros st k.
  - cbn. now destruct st.
  - cbn [litRegex foldr]. fold (litRegex w). rewrite rmatch_seq, rmatch_set.
    destruct (after st) as [|d suf] eqn:E; [reflexivity|].
    cbn [matchesLit csMatches].
    destruct (canonicalize fl c =? canonicalize fl d); [|reflexivity].
    rewrite IH. cbn [after before capture andb length firstn skipn rev].
    destruct (matchesLit fl w suf); [|reflexivity].
    now rewrite <- app_assoc.
Qed.

Lemma matchesLit_length fl w suf :
  matchesLit fl w suf = true -> (length w <= length suf)%nat.
Proof.
  revert suf. induction w as [|c w IH]; intros [|d suf]; simpl;
    try lia; try discriminate.
  intros H. apply andb_true_iff in H as [_ H]. apply IH in H. lia.
Qed.

Lemma compileEscaped_open : compileEscaped (str "\[\[") = litRegex [91; 91].
Proof. reflexivity. Qed.

Lemma compileEscaped_close : compileEscaped (str "\]\]") = litRegex [93; 93].
Proof. reflexivity. Qed.

(** Without [i], [Canonicalize] is the identity. *)
Lemma matchesLit_exact w suf :
  matchesLit flagsG w suf = true <-> exists rest, suf = w ++ rest.
Proof.
  revert suf. induction w as [|c w IH]; intros suf.
  - split; [intros _; now exists suf|reflexivity].
  - destruct suf as [|d suf]; cbn [matchesLit].
    + split; [discriminate|]. intros (rest & H). discriminate.
    + cbn [canonicalize ignoreCase flagsG noFlags].
      rewrite andb_true_iff, N.eqb_eq, IH. split.
      * intros (Hc & rest & Hs). subst. now exists rest.
      * intros (rest & H). simpl in H. injection H as Hc Hs. subst.
        split; [reflexivity|]. now exists rest.
Qed.

(** ** The link extractor *)

Lemma notBracket_matches c :
  csMatches flagsG notBracket c = true <-> c <> 93.
Proof.
  cbn [csMatches notBracket existsb canonicalize ignoreCase flagsG noFlags].
  rewrite orb_false_r. destruct (93 =? c) eqn:E; simpl.
  - apply N.eqb_eq in E. split; [intros H; discriminate H|congruence].
  - apply N.eqb_neq in E. split; [congruence|reflexivity].
Qed.

(** A successful [cs*] has consumed a run of units of [cs]. *)
Lemma starLoop_run n fl cs : forall st k res,
  starLoop n fl Forward cs st k = Some res ->
  exists x st',
    after st = x ++ after st' /\ before st' = rev x ++ before st /\
    capture st' = capture st /\
    Forall (fun c => csMatches fl cs c = true) x /\ k st' = Some res.
Proof.
  induction n as [|n IH]; intros st k res.
  - cbn [starLoop]. intros H. exists [], st. now repeat split.
  - rewrite starLoop_S. destruct (after st) as [|c suf] eqn:E.
    + intros H. exists [], st. rewrite E. now repeat split.
    + destruct (csMatches fl cs c) eqn:Ec.
      * destruct (starLoop n fl Forward cs _ k) as [r|] eqn:El.
        -- intros Hr. injection Hr as Hr. subst r.
           apply IH in El as (x & st' & H1 & H2 & H3 & H4 & H5).
           cbn [after before capture] in H1, H2, H3.
           exists (c :: x), st'. rewrite H1. split; [reflexivity|].
           split; [|split; [exact H3|split; [now constructor|exact H5]]].
           rewrite H2. cbn [rev]. now rewrite <- app_assoc.
        -- intros H. exists [], st. rewrite E. now repeat split.
      * intros H. exists [], st. rewrite E. now repeat split.
Qed.

(** The greedy run succeeds as soon as the continuation accepts it. *)
Lemma starLoop_greedy fl cs k res : forall x n st tail,
  Forall (fun c => csMatches fl cs c = true) x ->
  after st = x ++ tail ->
  headIs (csMatches fl cs) tail = false ->
  (length (after st) <= n)%nat ->
  k {| before := rev x ++ before st; after := tail; capture := capture st |}
  = Some res ->
  starLoop n fl Forward cs st k = Some res.
Proof.
  induction x as [|c x IH]; intros n st tail Hx Hafter Htail Hn Hk.
  - cbn [rev app] in Hk, Hafter.
    assert (Hst : k st = Some res).
    { rewrite <- Hk. f_equal. destruct st. cbn in *. now subst. }
    destruct n as [|n]; [exact Hst|]. rewrite starLoop_S, Hafter.
    destruct tail as [|d tail']; [exact Hst|].
    cbn [headIs] in Htail. now rewrite Htail.
  - destruct n as [|n]; [rewrite Hafter in Hn; simpl in Hn; lia|].
    rewrite starLoop_S, Hafter. cbn [app].
    inversion Hx as [|? ? Hc Hx']; subst. rewrite Hc.
    rewrite (IH n _ tail Hx'); [reflexivity|reflexivity|exact Htail| |].
    + cbn [after]. rewrite Hafter in Hn. simpl in Hn. lia.
    + cbn [before capture]. rewrite <- Hk. cbn [rev].
      now rewrite <- app_assoc.
Qed.

Lemma linkRegex_matches pre body rest :
  body <> [] -> Forall (fun c => c <> 93) body ->
  matchAt flagsG linkRegex pre ([91; 91] ++ body ++ [93; 93] ++ rest)
  = Some {| before := rev ([91; 91] ++ body ++ [93; 93]) ++ pre;
            after := rest; capture := Some body |}.
Proof.
  intros Hne Hbody. destruct body as [|b0 body']; [congruence|].
  inversion Hbody as [|? ? Hb0 Hbody']; subst.
  unfold matchAt, linkRegex.
  rewrite rmatch_seq, compileEscaped_open, rmatch_lit.
  cbn [after matchesLit canonicalize ignoreCase flagsG noFlags app].
  rewrite !N.eqb_refl. cbn [andb length firstn skipn rev app before capture].
  rewrite rmatch_seq, rmatch_group, rmatch_seq, rmatch_set.
  cbn [after before capture].
  apply notBracket_matches in Hb0. rewrite Hb0.
  rewrite rmatch_star. cbn [after].
  apply (starLoop_greedy flagsG notBracket _ _ body' _ _ (93 :: 93 :: rest)).
  - eapply Forall_impl; [exact Hbody'|]. intros c Hc.
    now apply notBracket_matches.
  - reflexivity.
  - cbn [headIs]. apply not_true_is_false. intros H.
    now apply notBracket_matches in H.
  - cbn [after]. lia.
  - cbn [before capture after]. rewrite compileEscaped_close, rmatch_lit.
    cbn [after matchesLit canonicalize ignoreCase flagsG noFlags].
    rewrite !N.eqb_refl.
    cbn [andb length firstn skipn rev app before capture].
    f_equal. f_equal.
    + rewrite !rev_app_distr. cbn [rev app]. now rewrite <- !app_assoc.
    + f_equal. apply captured_forward. cbn [after]. reflexivity.
Qed.

Lemma linkRegex_match_inv pre suf st :
  matchAt flagsG linkRegex pre suf = Some st ->
  exists body,
    body <> [] /\ Forall (fun c => c <> 93) body /\
    suf = [91; 91] ++ body ++ [93; 93] ++ after st.
Proof.
  unfold matchAt, linkRegex.
  rewrite rmatch_seq, compileEscaped_open, rmatch_lit. cbn [after].
  destruct (matchesLit flagsG [91; 91] suf) eqn:Eopen; [|discriminate].
  apply matchesLit_exact in Eopen as (suf2 & ->).
  cbn [length firstn skipn app rev before capture].
  rewrite rmatch_seq, rmatch_group, rmatch_seq, rmatch_set.
  cbn [after before capture].
  change (skipn 0 suf2) with suf2. change (firstn 0 suf2) with (@nil N).
  destruct suf2 as [|b0 suf3]; [discriminate|].
  destruct (csMatches flagsG notBracket b0) eqn:Eb0; [|discriminate].
  rewrite rmatch_star. intros H.
  apply starLoop_run in H as (x & st' & H1 & _ & _ & Hx & H).
  cbn [after] in H1. rewrite compileEscaped_close, rmatch_lit in H.
  cbn [after] in H.
  destruct (matchesLit flagsG [93; 93] (after st')) eqn:Eclose;
    [|discriminate].
  apply matchesLit_exact in Eclose as (rest & Hrest).
  injection H as <-. cbn [after]. rewrite Hrest.
  cbn [length skipn app].
  exists (b0 :: x). split; [discriminate|]. split.
  - constructor; [now apply notBracket_matches|].
    eapply Forall_impl; [exact Hx|]. intros c Hc.
    now apply notBracket_matches.
  - rewrite H1, Hrest. reflexivity.
Qed.

Lemma execFrom_eq fl r pre suf :
  execFrom fl r pre suf =
  match matchAt fl r pre suf with
  | Some st => Some st
  | None =>
      match suf with
      | [] => None
      | c :: suf' => execFrom fl r (c :: pre) suf'
      end
  end.
Proof. now destruct suf. Qed.

Lemma linkRegex_data pre suf st :
  matchAt flagsG linkRegex pre suf = Some st ->
  exists body,
    body <> [] /\ Forall (fun c => c <> 93) body /\
    suf = [91; 91] ++ body ++ [93; 93] ++ after st /\
    capture st = Some body.
Proof.
  intros Hm. destruct (linkRegex_match_inv _ _ _ Hm) as (body & Hne & Hb & Hs).
  exists body. repeat split; try assumption.
  rewrite Hs in Hm. rewrite linkRegex_matches in Hm by assumption.
  now injection Hm as <-.
Qed.

Lemma linkRegex_indep pre pre' suf :
  option_map execData (matchAt flagsG linkRegex pre suf)
  = option_map execData (matchAt flagsG linkRegex pre' suf).
Proof.
  destruct (matchAt flagsG linkRegex pre suf) as [st|] eqn:E;
    destruct (matchAt flagsG linkRegex pre' suf) as [st'|] eqn:E';
    try reflexivity.
  - destruct (linkRegex_data _ _ _ E) as (b & Hne & Hb & Hs & Hc).
    destruct (linkRegex_data _ _ _ E') as (b' & Hne' & Hb' & Hs' & Hc').
    rewrite Hs in E' at 1. rewrite linkRegex_matches in E' by assumption.
    injection E' as <-. cbn. unfold execData. now rewrite Hc.
  - destruct (linkRegex_data _ _ _ E) as (b & Hne & Hb & Hs & Hc).
    rewrite Hs in E'. rewrite linkRegex_matches in E' by assumption.
    discriminate.
  - destruct (linkRegex_data _ _ _ E') as (b & Hne & Hb & Hs & Hc).
    rewrite Hs in E. rewrite linkRegex_matches in E by assumption.
    discriminate.
Qed.

Lemma execFrom_indep suf : forall pre pre',
  option_map execData (execFrom flagsG linkRegex pre suf)
  = option_map execData (execFrom flagsG linkRegex pre' suf).
Proof.
  induction suf as [|c suf IH]; intros pre pre';
    rewrite (execFrom_eq _ _ pre), (execFrom_eq _ _ pre');
    pose proof (linkRegex_indep pre pre') as Hm.
  - specialize (Hm []).
    destruct (matchAt flagsG linkRegex pre []);
      destruct (matchAt flagsG linkRegex pre' []); try discriminate;
      [exact Hm|reflexivity].
  - specialize (Hm (c :: suf)).
    destruct (matchAt flagsG linkRegex pre (c :: suf));
      destruct (matchAt flagsG linkRegex pre' (c :: suf)); try discriminate;
      [exact Hm|apply IH].
Qed.

Lemma execFrom_shorter suf : forall pre st,
  execFrom flagsG linkRegex pre suf = Some st ->
  (length (after st) < length suf)%nat.
Proof.
  induction suf as [|c suf IH]; intros pre st; rewrite execFrom_eq.
  - destruct (matchAt flagsG linkRegex pre []) as [st'|] eqn:E;
      [|discriminate].
    destruct (linkRegex_data _ _ _ E) as (b & _ & _ & Hs & _). discriminate.
  - destruct (matchAt flagsG linkRegex pre (c :: suf)) as [st'|] eqn:E.
    + intros [= <-].
      destruct (linkRegex_data _ _ _ E) as (b & _ & _ & Hs & _).
      rewrite Hs. rewrite !length_app. simpl. lia.
    + intros H. apply IH in H. simpl. lia.
Qed.

(** The loop does not depend on the text already passed, nor on spare
    fuel. *)
Lemma fileLinksLoop_indep n : forall suf fuel fuel' pre pre',
  (length suf <= n)%nat ->
  (length suf < fuel)%nat -> (length suf < fuel')%nat ->
  fileLinksLoop fuel pre suf = fileLinksLoop fuel' pre' suf.
Proof.
  induction n as [|n IH]; intros suf fuel fuel' pre pre' Hn Hf Hf';
    (destruct fuel as [|fuel]; [lia|]); (destruct fuel' as [|fuel']; [lia|]);
    cbn [fileLinksLoop];
    pose proof (execFrom_indep suf pre pre') as Hd;
    destruct (execFrom flagsG linkRegex pre suf) as [st|] eqn:E;
    destruct (execFrom flagsG linkRegex pre' suf) as [st'|] eqn:E';
    try discriminate; try reflexivity;
    injection Hd as Ha Hc; rewrite Hc; f_equal;
    apply execFrom_shorter in E; apply execFrom_shorter in E';
    rewrite Ha in *.
  - lia.
  - apply IH; lia.
Qed.

Lemma linkRegex_not_open pre suf :
  headIs (N.eqb 91) suf = false ->
  matchAt flagsG linkRegex pre suf = None.
Proof.
  intros Hh. destruct (matchAt flagsG linkRegex pre suf) as [st|] eqn:E;
    [|reflexivity].
  destruct (linkRegex_data _ _ _ E) as (b & _ & _ & Hs & _).
  rewrite Hs in Hh. discriminate.
Qed.

Lemma execFrom_skip skipped : forall pre suf,
  Forall (fun c => c <> 91) skipped ->
  execFrom flagsG linkRegex pre (skipped ++ suf)
  = execFrom flagsG linkRegex (rev skipped ++ pre) suf.
Proof.
  induction skipped as [|c skipped IH]; intros pre suf Hs;
    [reflexivity|].
  inversion Hs as [|? ? Hc Hs']; subst.
  cbn [app]. rewrite execFrom_eq, linkRegex_not_open.
  - rewrite IH by assumption. cbn [rev]. now rewrite <- app_assoc.
  - cbn [headIs]. now apply N.eqb_neq.
Qed.

Lemma fileLinks_no_link (text : jsstr) :
  Forall (fun c => c <> 91) text -> fileLinks text = [].
Proof.
  intros Ht. unfold fileLinks. cbn [fileLinksLoop].
  replace (execFrom flagsG linkRegex [] text)
    with (execFrom flagsG linkRegex [] (text ++ []))
    by now rewrite app_nil_r.
  rewrite execFrom_skip by assumption.
  rewrite execFrom_eq, linkRegex_not_open; reflexivity.
Qed.

Lemma fileLinks_first_link (skipped inner post : jsstr) :
  Forall (fun c => c <> 91) skipped ->
  inner <> [] -> Forall (fun c => c <> 93) inner ->
  fileLinks (skipped ++ str "[[" ++ inner ++ str "]]" ++ post)
  = (if retains (targetOf inner) then [targetOf inner] else [])
    ++ fileLinks post.
Proof.
  intros Hs Hne Hi. unfold fileLinks at 1. cbn [fileLinksLoop].
  rewrite execFrom_skip by assumption.
  change (str "[[") with [91; 91]. change (str "]]") with [93; 93].
  rewrite execFrom_eq, linkRegex_matches by assumption.
  cbn [capture default after before]. f_equal.
  apply (fileLinksLoop_indep (length post)); [lia| |unfold fileLinks; lia].
  rewrite !length_app. simpl. lia.
Qed.

Lemma notin_Forall (c : N) (l : jsstr) :
  c ∉ l <-> Forall (fun x => x <> c) l.
Proof.
  rewrite Forall_forall. split.
  - intros Hn x Hx ->. now apply Hn.
  - intros Hf Hin. now apply (Hf c Hin).
Qed.

Lemma splitChar_hd_cons sep c s :
  c <> sep ->
  hd [] (splitChar sep (c :: s)) = c :: hd [] (splitChar sep s).
Proof.
  intros Hc. cbn [splitChar]. apply N.eqb_neq in Hc. rewrite Hc.
  destruct s as [|d s']; [reflexivity|].
  destruct (splitChar sep (d :: s')) as [|p ps] eqn:E; [|reflexivity].
  exfalso. cbn [splitChar] in E. destruct (d =? sep); [discriminate|].
  destruct (splitChar sep s'); discriminate.
Qed.

Lemma splitChar_hd_whole sep (t : jsstr) :
  sep ∉ t -> hd [] (splitChar sep t) = t.
Proof.
  induction t as [|c t IH]; intros Hn; [reflexivity|].
  rewrite splitChar_hd_cons.
  - rewrite IH; [reflexivity|]. intros Hin. apply Hn. now right.
  - intros ->. apply Hn. now left.
Qed.

Lemma splitChar_hd_before sep (t rest : jsstr) :
  sep ∉ t -> hd [] (splitChar sep (t ++ sep :: rest)) = t.
Proof.
  induction t as [|c t IH]; intros Hn.
  - cbn [app splitChar]. now rewrite N.eqb_refl.
  - cbn [app]. rewrite splitChar_hd_cons.
    + rewrite IH; [reflexivity|]. intros Hin. apply Hn. now right.
    + intros ->. apply Hn. now left.
Qed.

Lemma startsWith_nil (s : jsstr) : startsWith s [] = true.
Proof. now destruct s. Qed.

Lemma startsWith_prefix (s p : jsstr) :
  startsWith s p = true <-> exists t, s = p ++ t.
Proof.
  revert s. induction p as [|c p IH]; intros s.
  - rewrite startsWith_nil. split; [intros _; now exists s|reflexivity].
  - destruct s as [|d s]; cbn [startsWith].
    + split; [discriminate|]. intros (t & H). discriminate.
    + rewrite andb_true_iff, N.eqb_eq, IH. split.
      * intros (Hc & t & Hs). subst. now exists t.
      * intros (t & H). simpl in H. injection H as Hc Hs. subst.
        split; [reflexivity|]. now exists t.
Qed.

Lemma endsWith_suffix (s p : jsstr) :
  endsWith s p = true <-> exists stem, s = stem ++ p.
Proof.
  unfold endsWith. rewrite startsWith_prefix. split.
  - intros (t & H). exists (rev t).
    apply (f_equal (@rev N)) in H.
    rewrite rev_involutive, rev_app_distr, rev_involutive in H. exact H.
  - intros (stem & ->). exists (rev stem). apply rev_app_distr.
Qed.

Lemma includes_unit (s : jsstr) c :
  includes s [c] = true <-> c ∈ s.
Proof.
  induction s as [|d s IH].
  - cbn. split; [discriminate|]. intros H. inversion H.
  - cbn [includes startsWith]. rewrite startsWith_nil, andb_true_r.
    rewrite orb_true_iff, N.eqb_eq, IH. split.
    + intros [->|H]; [now left|now right].
    + intros H. inversion H; subst; [now left|now right].
Qed.

Lemma retains_spec (link : jsstr) :
  retains link = true <->
  (46 ∉ link \/ exists stem, link = stem ++ str ".md").
Proof.
  unfold retains. rewrite orb_true_iff, negb_true_iff, endsWith_suffix.
  change (str ".") with [46].
  split; (intros [H|H]; [left|now right]).
  - intros Hin. apply includes_unit in Hin. congruence.
  - apply not_true_is_false. intros Hin. now apply includes_unit in Hin.
Qed.

Lemma trimStart_drops (s : jsstr) :
  exists ws, s = ws ++ trimStart s.
Proof.
  induction s as [|c s [ws IH]]; [now exists []|]. cbn [trimStart].
  destruct (isWhiteSpace c).
  - exists (c :: ws). cbn [app]. now rewrite <- IH.
  - now exists [].
Qed.

Lemma trimStart_head (s : jsstr) : headIs isWhiteSpace (trimStart s) = false.
Proof.
  induction s as [|c s IH]; [reflexivity|]. cbn [trimStart].
  destruct (isWhiteSpace c) eqn:E; [exact IH|]. exact E.
Qed.

Lemma trimStart_fixed (s : jsstr) :
  headIs isWhiteSpace s = false -> trimStart s = s.
Proof. destruct s as [|c s]; [reflexivity|]. cbn. now intros ->. Qed.

Lemma trimStart_snoc (x : jsstr) c :
  isWhiteSpace c = false -> exists u, trimStart (x ++ [c]) = u ++ [c].
Proof.
  intros Hc. induction x as [|d x [u IH]]; cbn [app trimStart].
  - rewrite Hc. now exists [].
  - destruct (isWhiteSpace d).
    + exists u. exact IH.
    + now exists (d :: x).
Qed.

Lemma trimEnd_idem (s : jsstr) : trimEnd (trimEnd s) = trimEnd s.
Proof.
  unfold trimEnd. rewrite rev_involutive.
  now rewrite (trimStart_fixed _ (trimStart_head _)).
Qed.

Lemma trimEnd_head (t : jsstr) :
  headIs isWhiteSpace t = false -> headIs isWhiteSpace (trimEnd t) = false.
Proof.
  destruct t as [|c t]; [reflexivity|]. cbn [headIs]. intros Hc.
  unfold trimEnd. cbn [rev].
  destruct (trimStart_snoc (rev t) c Hc) as [u ->].
  rewrite rev_app_distr. exact Hc.
Qed.

Lemma trim_idem (s : jsstr) : trim (trim s) = trim s.
Proof.
  unfold trim.
  rewrite (trimStart_fixed (trimEnd (trimStart s)))
    by apply trimEnd_head, trimStart_head.
  apply trimEnd_idem.
Qed.

Lemma elem_of_rev (l : jsstr) c : c ∈ rev l <-> c ∈ l.
Proof. rewrite !list_elem_of_In. symmetry. apply in_rev. Qed.

Lemma trim_elem (s : jsstr) c : c ∈ trim s -> c ∈ s.
Proof.
  unfold trim, trimEnd. intros H. rewrite elem_of_rev in H.
  destruct (trimStart_drops (rev (trimStart s))) as [ws Hws].
  assert (H1 : c ∈ rev (trimStart s)).
  { rewrite Hws. apply elem_of_app. now right. }
  rewrite elem_of_rev in H1.
  destruct (trimStart_drops s) as [ws' Hs]. rewrite Hs.
  apply elem_of_app. now right.
Qed.

Lemma trimStart_space (ws x : jsstr) :
  Forall (fun c => isWhiteSpace c = true) ws ->
  trimStart (ws ++ x) = trimStart x.
Proof.
  induction 1 as [|c ws Hc _ IH]; [reflexivity|].
  cbn [app trimStart]. now rewrite Hc.
Qed.

Lemma headIs_app (p : N -> bool) (x y : jsstr) :
  x <> [] -> headIs p (x ++ y) = headIs p x.
Proof. now destruct x. Qed.

Lemma trim_core (ws1 core ws2 : jsstr) :
  Forall (fun c => isWhiteSpace c = true) ws1 ->
  Forall (fun c => isWhiteSpace c = true) ws2 ->
  headIs isWhiteSpace core = false ->
  headIs isWhiteSpace (rev core) = false ->
  trim (ws1 ++ core ++ ws2) = core.
Proof.
  intros H1 H2 Hhead Hlast. unfold trim. rewrite (trimStart_space _ _ H1).
  destruct core as [|c core].
  - cbn [app]. replace (trimStart ws2) with (@nil N); [reflexivity|].
    rewrite <- (app_nil_r ws2) at 1. now rewrite (trimStart_space _ _ H2).
  - rewrite trimStart_fixed by exact Hhead.
    unfold trimEnd. rewrite rev_app_distr, trimStart_space.
    + rewrite (trimStart_fixed _ Hlast). apply rev_involutive.
    + rewrite Forall_forall in *. intros x Hx. apply H2.
      now apply elem_of_rev.
Qed.

Lemma isWhiteSpace_spec c :
  isWhiteSpace c = true <->
  (c ∈ [9; 10; 11; 12; 13; 32; 160; 5760; 8232; 8233; 8239; 8287; 12288;
        65279] \/ 8192 <= c <= 8202).
Proof.
  unfold isWhiteSpace, isLineTerminator.
  rewrite !elem_of_cons, elem_of_nil.
  rewrite !orb_true_iff, andb_true_iff, !N.eqb_eq, !N.leb_le. lia.
Qed.

Lemma untilClose_spec : forall s body rest : jsstr,
  untilClose s = Some (body, rest) <->
  s = body ++ [93; 93] ++ rest /\ (93 ∉ body).
Proof.
  induction s as [|c s IH]; intros body rest; cbn [untilClose].
  - split; [discriminate|]. intros [H _]. now destruct body.
  - destruct (N.eqb_spec c 93) as [->|Hc].
    + split.
      * destruct s as [|d s]; [discriminate|].
        destruct (N.eqb_spec d 93) as [->|Hd]; [|discriminate].
        intros [= <- <-]. split; [reflexivity|]. intros H. inversion H.
      * intros [H Hb]. destruct body as [|b body].
        -- cbn [app] in H. injection H as ->. now rewrite N.eqb_refl.
        -- exfalso. cbn [app] in H. injection H as <- _. apply Hb. now left.
    + split.
      * case_eq (untilClose s); [intros [b r] E|discriminate].
        intros [= <- <-]. apply IH in E as [-> Hb].
        split; [reflexivity|]. intros H.
        apply elem_of_cons in H as [H|H]; [congruence|now apply Hb].
      * intros [H Hb]. destruct body as [|b body].
        -- cbn [app] in H. injection H as H _. congruence.
        -- cbn [app] in H. injection H as <- ->.
           apply not_elem_of_cons in Hb as [_ Hb].
           now rewrite (proj2 (IH body rest) (conj eq_refl Hb)).
Qed.

Lemma bracketed_spec (s body rest : jsstr) :
  bracketed s = Some (body, rest) <->
  s = str "[[" ++ body ++ str "]]" ++ rest /\ body <> [] /\ (93 ∉ body).
Proof.
  change (str "[[") with [91; 91]. change (str "]]") with [93; 93].
  unfold bracketed. split.
  - destruct s as [|c [|d s]]; try discriminate.
    destruct (N.eqb_spec c 91) as [->|]; [|discriminate].
    destruct (N.eqb_spec d 91) as [->|]; [|discriminate]. cbn [andb].
    destruct (untilClose s) as [[[|b0 b] r]|] eqn:E; try discriminate.
    intros [= <- <-]. apply untilClose_spec in E as [-> Hb].
    split; [reflexivity|]. split; [discriminate|exact Hb].
  - intros (-> & Hne & Hb). cbn [app]. rewrite !N.eqb_refl. cbn [andb].
    rewrite (proj2 (untilClose_spec (body ++ 93 :: 93 :: rest) body rest)
               (conj eq_refl Hb)).
    destruct body; [congruence|reflexivity].
Qed.

Lemma fileLinks_unfold (text : jsstr) :
  fileLinks text =
  match bracketed text with
  | Some (body, rest) =>
      (if retains (targetOf body) then [targetOf body] else [])
      ++ fileLinks rest
  | None =>
      match text with
      | [] => []
      | _ :: rest => fileLinks rest
      end
  end.
Proof.
  destruct (bracketed text) as [[body rest]|] eqn:E.
  - apply bracketed_spec in E as (-> & Hne & Hb).
    apply (fileLinks_first_link [] body rest); [constructor|exact Hne|].
    now apply notin_Forall.
  - assert (Hm : matchAt flagsG linkRegex [] text = None).
    { destruct (matchAt flagsG linkRegex [] text) as [st|] eqn:Em;
        [|reflexivity].
      destruct (linkRegex_data _ _ _ Em) as (body & Hne & Hb & Hs & _).
      assert (Eb : bracketed text = Some (body, after st)).
      { apply bracketed_spec. split; [exact Hs|]. split; [exact Hne|].
        now apply notin_Forall. }
      congruence. }
    unfold fileLinks at 1. cbn [fileLinksLoop]. rewrite execFrom_eq, Hm.
    destruct text as [|c rest]; [reflexivity|].
    unfold fileLinks. cbn [length].
    change (match execFrom flagsG linkRegex [c] rest with
            | Some st =>
                (if retains (targetOf (default [] (capture st)))
                 then [targetOf (default [] (capture st))] else [])
                ++ fileLinksLoop (S (length rest)) (before st) (after st)
            | None => []
            end)
      with (fileLinksLoop (S (S (length rest))) [c] rest).
    apply (fileLinksLoop_indep (length rest)); lia.
Qed.

(** C8, as amended.  The extractor lists the link targets of a text,
    whatever the text, in order of appearance: when the text opens with
    a link [[[body]]rest], whose [body] is not empty and holds no []],
    the target of [body] comes first and the targets of [rest] follow;
    otherwise the scan moves on by one unit.  In particular a text
    without [[] yields nothing, and a link after text without [[] is
    the first one.  The target is the text before the first [|],
    trimmed: the white space around it (the units that ECMAScript's
    [trim] strips) is dropped and nothing else.  It is kept exactly when
    it contains no [.] at all or ends in [.md]; and the targets of a
    file are those of its text, the read failing when the file cannot be
    read. *)
Theorem C8_corpus_link_extractor :
  (forall s body rest : jsstr,
     bracketed s = Some (body, rest) <->
     s = str "[[" ++ body ++ str "]]" ++ rest /\ body <> [] /\ (93 ∉ body)) /\
  (forall text : jsstr,
     fileLinks text =
     match bracketed text with
     | Some (body, rest) =>
         (if retains (targetOf body) then [targetOf body] else [])
         ++ fileLinks rest
     | None =>
         match text with
         | [] => []
         | _ :: rest => fileLinks rest
         end
     end) /\
  (forall text : jsstr, 91 ∉ text -> fileLinks text = []) /\
  (forall skipped inner post : jsstr,
     91 ∉ skipped -> inner <> [] -> 93 ∉ inner ->
     fileLinks (skipped ++ str "[[" ++ inner ++ str "]]" ++ post)
     = (if retains (targetOf inner) then [targetOf inner] else [])
       ++ fileLinks post) /\
  (forall target : jsstr, 124 ∉ target -> targetOf target = trim target) /\
  (forall target display : jsstr,
     124 ∉ target ->
     targetOf (target ++ str "|" ++ display) = trim target) /\
  (forall ws1 core ws2 : jsstr,
     Forall (fun c => isWhiteSpace c = true) ws1 ->
     Forall (fun c => isWhiteSpace c = true) ws2 ->
     headIs isWhiteSpace core = false ->
     headIs isWhiteSpace (rev core) = false ->
     trim (ws1 ++ core ++ ws2) = core) /\
  (forall c : N,
     isWhiteSpace c = true <->
     (c ∈ [9; 10; 11; 12; 13; 32; 160; 5760; 8232; 8233; 8239; 8287; 12288;
           65279] \/ 8192 <= c <= 8202)) /\
  (forall link : jsstr,
     retains link = true <->
     (46 ∉ link \/ exists stem, link = stem ++ str ".md")) /\
  (forall v f content,
     read v f = Some content -> getFileLinks v f = Some (fileLinks content)) /\
  (forall v f, read v f = None -> getFileLinks v f = None).
Proof.
  split; [|split; [|split; [|split; [|split; [|split; [|split;
    [|split; [|split; [|split]]]]]]]]].
  - apply bracketed_spec.
  - apply fileLinks_unfold.
  - intros text Ht. apply fileLinks_no_link. now apply notin_Forall.
  - intros skipped inner post Hs Hne Hi.
    apply fileLinks_first_link; [now apply notin_Forall|exact Hne|].
    now apply notin_Forall.
  - intros target Ht. unfold targetOf. now rewrite splitChar_hd_whole.
  - intros target display Ht. unfold targetOf.
    change (str "|" ++ display) with (124 :: display).
    now rewrite splitChar_hd_before.
  - apply trim_core.
  - apply isWhiteSpace_spec.
  - apply retains_spec.
  - intros v f content Hr. unfold getFileLinks. now rewrite Hr.
  - intros v f Hr. unfold getFileLinks. now rewrite Hr.
Qed.

(** ** The change ledger *)

Lemma modify_Some v f content :
  is_Some (data v !! path f) -> writable (path f) = true ->
  modify v f content
  = Some {| root := root v; data := <[path f := content]> (data v) |}.
Proof. intros [x Hx] Hw. unfold modify. now rewrite Hx, Hw. Qed.

Lemma undoLoop_restores changes : forall v,
  recorded (data v) changes ->
  undoLoop changes v
  = ({| root := root v; data := restore (data v) changes |}, Returned).
Proof.
  induction changes as [|c rest IH]; intros v Hrec.
  - now destruct v.
  - cbn [undoLoop].
    destruct (Hrec c (list_elem_of_here _ _)) as [Hc Hw].
    rewrite modify_Some by assumption.
    rewrite IH; [reflexivity|].
    intros c' Hc'. destruct (Hrec c' (list_elem_of_further _ _ _ Hc'))
      as [H1 H2].
    split; [|exact H2]. cbn [data]. apply lookup_insert_is_Some'. now right.
Qed.

Lemma restore_other changes : forall d (k : jsstr),
  (forall c, c ∈ changes -> path (file c) <> k) ->
  restore d changes !! k = d !! k.
Proof.
  induction changes as [|c rest IH]; intros d k Hk; [reflexivity|].
  cbn [restore foldl]. fold (restore (<[path (file c) := oldContent c]> d) rest).
  rewrite IH.
  - apply lookup_insert_ne. apply Hk. now left.
  - intros c' Hc'. apply Hk. now right.
Qed.

Lemma restore_recorded changes : forall d c,
  NoDup ((fun c => path (file c)) <$> changes) ->
  c ∈ changes ->
  restore d changes !! path (file c) = Some (oldContent c).
Proof.
  induction changes as [|c0 rest IH]; intros d c Hnd Hc.
  - inversion Hc.
  - cbn [restore foldl].
    fold (restore (<[path (file c0) := oldContent c0]> d) rest).
    cbn [fmap list_fmap] in Hnd. apply NoDup_cons in Hnd as [Hnotin Hnd].
    apply elem_of_cons in Hc as [->|Hc].
    + rewrite restore_other; [apply lookup_insert_eq|].
      intros c' Hc' Heq. apply Hnotin. rewrite <- Heq.
      apply list_elem_of_fmap. now exists c'.
    + now apply IH.
Qed.

Lemma undoLastChanges_empty p :
  lastChanges p = [] ->
  undoLastChanges p = (notify p NoticeNothingToUndo, Returned).
Proof. intros H. unfold undoLastChanges. now rewrite H. Qed.

Lemma undoLastChanges_restores p :
  lastChanges p <> [] ->
  recorded (data (vault p)) (lastChanges p) ->
  undoLastChanges p
  = ({| settings := settings p;
        vault := {| root := root (vault p);
                    data := restore (data (vault p)) (lastChanges p) |};
        activeFile := activeFile p;
        lastChanges := [];
        notices := notices p ++ [NoticeUndid (length (lastChanges p))] |},
     Returned).
Proof.
  intros Hne Hrec. unfold undoLastChanges.
  destruct (lastChanges p) as [|c l] eqn:E; [congruence|].
  cbn [length Nat.eqb]. now rewrite undoLoop_restores.
Qed.

(** *** One run of the single-file command, then undo *)

(** What [autoLinkFile] can end in: nothing done, a notice only, the
    document rewritten and recorded, or, when the host refuses the
    write, the record pushed all the same and the failure notice. *)
Lemma autoLinkFile_cases p f :
  (autoLinkFile p f = p \/
   exists n, autoLinkFile p f = notify p n) \/
  (exists content linkedContent,
     data (vault p) !! path f = Some content /\
     writable (path f) = true /\
     autoLinkFile p f
     = {| settings := settings p;
          vault := {| root := root (vault p);
                      data := <[path f := linkedContent]> (data (vault p)) |};
          activeFile := activeFile p;
          lastChanges :=
            lastChanges p ++ [{| file := f; oldContent := content |}];
          notices := notices p |}) \/
  (exists content,
     data (vault p) !! path f = Some content /\
     writable (path f) = false /\
     autoLinkFile p f
     = {| settings := settings p;
          vault := vault p;
          activeFile := activeFile p;
          lastChanges :=
            lastChanges p ++ [{| file := f; oldContent := content |}];
          notices := notices p ++ [NoticeFailed (path f)] |}).
Proof.
  unfold autoLinkFile, read.
  destruct (data (vault p) !! path f) as [content|] eqn:Er;
    [|left; right; eauto].
  destruct (getWordsToLink (settings p) (vault p)) as [ws|];
    [|left; right; eauto].
  destruct (negb (jsstr_eqb content _)); [|left; now left].
  right. unfold modify. cbn [setLastChanges vault]. rewrite Er.
  destruct (writable (path f)) eqn:Ew.
  - left. exists content, (linkWords (settings p) (vault p) content ws).
    split; [reflexivity|]. split; reflexivity.
  - right. exists content. split; [reflexivity|]. split; reflexivity.
Qed.

Lemma autoLinkCurrentFile_undo p :
  vault (fst (undoLastChanges (autoLinkCurrentFile p))) = vault p /\
  ((forall f, activeFile p = Some f -> writable (path f) = true) ->
   lastChanges (fst (undoLastChanges (autoLinkCurrentFile p))) = [] /\
   snd (undoLastChanges (autoLinkCurrentFile p)) = Returned).
Proof.
  unfold autoLinkCurrentFile. cbn [activeFile setLastChanges].
  destruct (activeFile p) as [f|];
    [|destruct p; split; [reflexivity|intros _; split; reflexivity]].
  destruct (autoLinkFile_cases (setLastChanges p []) f)
    as [[->| [n ->]]|[(c & l & Hc & Hyes & ->)|(c & Hc & Hno & ->)]].
  - destruct p; split; [reflexivity|intros _; split; reflexivity].
  - destruct p; split; [reflexivity|intros _; split; reflexivity].
  - cbn [lastChanges setLastChanges vault app] in *. unfold undoLastChanges.
    cbn [notify lastChanges length Nat.eqb undoLoop vault file oldContent].
    unfold modify. cbn [data]. rewrite lookup_insert_eq, Hyes.
    cbn [undoLoop setVault notify setLastChanges vault lastChanges fst snd
         root data].
    split; [|intros _; split; reflexivity].
    destruct (vault p) as [r d]. cbn [root data] in *.
    f_equal. rewrite insert_insert_eq. now apply insert_id.
  - cbn [lastChanges setLastChanges vault app] in *. unfold undoLastChanges.
    cbn [notify lastChanges length Nat.eqb undoLoop vault file oldContent].
    unfold modify. rewrite Hc, Hno.
    cbn [setVault vault fst snd lastChanges].
    split; [now destruct (vault p)|].
    intros Hw. specialize (Hw f eq_refl). congruence.
Qed.

(** *** How a linking run fills the ledger *)

Lemma autoLinkFile_ledger p f :
  exists l, lastChanges (autoLinkFile p f) = lastChanges p ++ l /\
            (length l <= 1)%nat.
Proof.
  destruct (autoLinkFile_cases p f)
    as [[->| [n ->]]|[(c & l & Hc & _ & ->)|(c & Hc & _ & ->)]].
  - exists []. rewrite app_nil_r. split; [reflexivity|simpl; lia].
  - exists []. cbn [notify lastChanges]. rewrite app_nil_r.
    split; [reflexivity|simpl; lia].
  - eexists. split; [reflexivity|]. simpl. lia.
  - eexists. split; [reflexivity|]. simpl. lia.
Qed.

Lemma autoLinkFiles_ledger files : forall p,
  exists l, lastChanges (fold_left autoLinkFile files p) = lastChanges p ++ l.
Proof.
  induction files as [|f files IH]; intros p; cbn [fold_left].
  - exists []. now rewrite app_nil_r.
  - destruct (IH (autoLinkFile p f)) as (l2 & ->).
    destruct (autoLinkFile_ledger p f) as (l1 & -> & _).
    exists (l1 ++ l2). now rewrite app_assoc.
Qed.

(** The directory run never drops a record it finds in the ledger. *)
Lemma extendLinkingToDirectory_keeps_ledger p :
  exists l, lastChanges (extendLinkingToDirectory p) = lastChanges p ++ l.
Proof.
  unfold extendLinkingToDirectory.
  destruct (getAbstractFileByPath _ _) as [[f|dp ch]|];
    try (exists []; cbn [notify lastChanges]; now rewrite app_nil_r).
  cbn [notify lastChanges]. apply autoLinkFiles_ledger.
Qed.

(** The single-file run starts from an empty ledger. *)
Lemma autoLinkCurrentFile_ledger p :
  (length (lastChanges (autoLinkCurrentFile p)) <= 1)%nat.
Proof.
  unfold autoLinkCurrentFile. cbn [activeFile setLastChanges].
  destruct (activeFile p) as [f|]; [|cbn; lia].
  cbn [notify lastChanges].
  destruct (autoLinkFile_ledger (setLastChanges p []) f) as (l & -> & Hl).
  cbn. exact Hl.
Qed.

(** *** One directory run from an empty ledger, then undo *)

Lemma runInvariant_step p0 p visited f :
  runInvariant p0 p visited ->
  path f ∉ path <$> visited ->
  runInvariant p0 (autoLinkFile p f) (visited ++ [f]).
Proof.
  intros (Hroot & Hrec & Hother & Hnd) Hf.
  assert (Hweak : runInvariant p0 p (visited ++ [f])).
  { split; [exact Hroot|]. split; [|split; assumption].
    intros c Hc. destruct (Hrec c Hc) as (H1 & H2 & H3).
    repeat split; try assumption. rewrite fmap_app. apply elem_of_app.
    now left. }
  assert (Hfresh : path f ∉ ledgerPaths (lastChanges p)).
  { intros Hin. apply list_elem_of_fmap in Hin as (c' & Heq & Hc').
    apply Hf. rewrite Heq. now apply (Hrec c' Hc'). }
  assert (Hnd' : forall c,
             NoDup (ledgerPaths
                      (lastChanges p ++ [{| file := f; oldContent := c |}]))).
  { intros c. unfold ledgerPaths. rewrite fmap_app. apply NoDup_app.
    split; [exact Hnd|]. split; [|cbn; apply NoDup_singleton].
    intros k Hk Hk'. cbn in Hk'. apply list_elem_of_singleton in Hk'.
    subst k. now apply Hfresh. }
  destruct (autoLinkFile_cases p f)
    as [[->| [n ->]]|[(c & l & Hc & _ & ->)|(c & Hc & _ & ->)]];
    [exact Hweak|exact Hweak| |].
  - unfold runInvariant. cbn [vault root data lastChanges].
    split; [exact Hroot|]. split; [|split].
    + intros c' Hc'. apply elem_of_app in Hc' as [Hc'|Hc'].
      * destruct (Hrec c' Hc') as (H1 & H2 & H3). split; [exact H1|].
        split; [apply lookup_insert_is_Some'; now right|].
        rewrite fmap_app. apply elem_of_app. now left.
      * apply list_elem_of_singleton in Hc'. subst c'. cbn [file oldContent].
        split; [now rewrite <- (Hother _ Hfresh)|].
        split; [apply lookup_insert_is_Some'; now left|].
        rewrite fmap_app. apply elem_of_app. right. cbn. now left.
    + intros k Hk. unfold ledgerPaths in Hk. rewrite fmap_app in Hk.
      rewrite lookup_insert_ne.
      * apply Hother. intros Hin. apply Hk. apply elem_of_app. now left.
      * intros <-. apply Hk. apply elem_of_app. right. cbn. now left.
    + apply Hnd'.
  - unfold runInvariant. cbn [vault root data lastChanges].
    split; [exact Hroot|]. split; [|split].
    + intros c' Hc'. apply elem_of_app in Hc' as [Hc'|Hc'].
      * destruct (Hrec c' Hc') as (H1 & H2 & H3). split; [exact H1|].
        split; [exact H2|].
        rewrite fmap_app. apply elem_of_app. now left.
      * apply list_elem_of_singleton in Hc'. subst c'. cbn [file oldContent].
        split; [now rewrite <- (Hother _ Hfresh)|].
        split; [now rewrite Hc|].
        rewrite fmap_app. apply elem_of_app. right. cbn. now left.
    + intros k Hk. unfold ledgerPaths in Hk. rewrite fmap_app in Hk.
      apply Hother. intros Hin. apply Hk. apply elem_of_app. now left.
    + apply Hnd'.
Qed.

Lemma runInvariant_files p0 files : forall p visited,
  runInvariant p0 p visited ->
  NoDup (path <$> (visited ++ files)) ->
  runInvariant p0 (fold_left autoLinkFile files p) (visited ++ files).
Proof.
  induction files as [|f files IH]; intros p visited Hinv Hnd;
    cbn [fold_left].
  - now rewrite app_nil_r.
  - replace (visited ++ f :: files) with ((visited ++ [f]) ++ files)
      in * by now rewrite <- app_assoc.
    apply IH; [|exact Hnd]. apply runInvariant_step; [exact Hinv|].
    rewrite !fmap_app in Hnd. apply NoDup_app in Hnd as (Hnd & _ & _).
    apply NoDup_app in Hnd as (_ & Hdisj & _).
    intros Hin. apply (Hdisj _ Hin). cbn. now left.
Qed.

Lemma runInvariant_restore p0 p visited :
  runInvariant p0 p visited ->
  (forall c, c ∈ lastChanges p ->
     is_Some (data (vault p) !! path (file c)) /\
     path (file c) ∈ path <$> visited) /\
  restore (data (vault p)) (lastChanges p) = data (vault p0).
Proof.
  intros (Hroot & Hrec & Hother & Hnd). split.
  - intros c Hc. destruct (Hrec c Hc) as (_ & H2 & H3). now split.
  - apply map_eq. intros k.
    destruct (decide (k ∈ ledgerPaths (lastChanges p))) as [Hin|Hnot].
    + apply list_elem_of_fmap in Hin as (c & -> & Hc).
      rewrite restore_recorded by assumption.
      symmetry. now apply (Hrec c Hc).
    + rewrite restore_other; [now apply Hother|].
      intros c Hc Heq. apply Hnot. rewrite <- Heq.
      apply list_elem_of_fmap. now exists c.
Qed.

Lemma extendLinkingToDirectory_undo p :
  lastChanges p = [] ->
  (forall dp ch,
     getAbstractFileByPath (vault p) (specifiedDirectory (settings p))
     = Some (AFolder dp ch) ->
     NoDup (path <$> getMarkdownFiles (AFolder dp ch)) /\
     forall f, f ∈ getMarkdownFiles (AFolder dp ch) ->
               writable (path f) = true) ->
  let p' := fst (undoLastChanges (extendLinkingToDirectory p)) in
  vault p' = vault p /\ lastChanges p' = [] /\
  snd (undoLastChanges (extendLinkingToDirectory p)) = Returned.
Proof.
  intros Hempty Hnd. unfold extendLinkingToDirectory.
  destruct (getAbstractFileByPath _ _) as [[f|dp ch]|] eqn:Edir;
    try (cbn zeta; rewrite undoLastChanges_empty by exact Hempty;
         cbn; now rewrite Hempty).
  destruct (Hnd dp ch eq_refl) as [Hnd' Hwr]. clear Hnd. rename Hnd' into Hnd.
  set (files := getMarkdownFiles (AFolder dp ch)) in *.
  assert (Hinv : runInvariant p (fold_left autoLinkFile files p)
                   ([] ++ files)).
  { apply runInvariant_files; [|exact Hnd].
    unfold runInvariant. rewrite Hempty.
    split; [reflexivity|]. split; [|split; [reflexivity|constructor]].
    intros c0 Hc. inversion Hc. }
  set (p1 := fold_left autoLinkFile files p) in *.
  destruct (runInvariant_restore _ _ _ Hinv) as [Hpres Hrest].
  assert (Hrec : recorded (data (vault p1)) (lastChanges p1)).
  { intros c Hc. destruct (Hpres c Hc) as [H1 H2]. split; [exact H1|].
    cbn [app] in H2. apply list_elem_of_fmap in H2 as (f & -> & Hf).
    now apply Hwr. }
  destruct Hinv as (Hroot & _).
  cbn zeta. destruct (lastChanges p1) as [|c l] eqn:El.
  - rewrite undoLastChanges_empty by (cbn; exact El).
    cbn [fst snd notify vault lastChanges]. rewrite El.
    repeat split. cbn [restore foldl] in Hrest.
    destruct (vault p1), (vault p). cbn in *. congruence.
  - rewrite undoLastChanges_restores.
    + cbn [fst snd notify vault lastChanges]. rewrite El, Hrest, Hroot.
      repeat split. now destruct (vault p).
    + cbn [notify lastChanges]. rewrite El. discriminate.
    + cbn [notify lastChanges vault]. rewrite El. exact Hrec.
Qed.

(** C4.  With an empty ledger undo only reports that there is nothing to
    undo and leaves every document as it is.  Otherwise, when the
    recorded documents are there and the host lets them be written, it
    writes each record's old text back to its document, in the order of
    the records, reports the number of records and empties the ledger;
    with one record per document every recorded document then holds its
    recorded text.  After a single-file run undo gives every document
    its text from before the run, and it empties the ledger when the
    host lets the active file be written; after a directory run that
    started from an empty ledger it does both when the host lets the
    files of the directory be written. *)
Theorem C4_undo_restores_recorded_content :
  (forall p, lastChanges p = [] ->
     undoLastChanges p = (notify p NoticeNothingToUndo, Returned)) /\
  (forall p, lastChanges p <> [] ->
     recorded (data (vault p)) (lastChanges p) ->
     undoLastChanges p
     = ({| settings := settings p;
           vault := {| root := root (vault p);
                       data := restore (data (vault p)) (lastChanges p) |};
           activeFile := activeFile p;
           lastChanges := [];
           notices := notices p ++ [NoticeUndid (length (lastChanges p))] |},
        Returned)) /\
  (forall p c, NoDup (ledgerPaths (lastChanges p)) -> c ∈ lastChanges p ->
     restore (data (vault p)) (lastChanges p) !! path (file c)
     = Some (oldContent c)) /\
  (forall p,
     vault (fst (undoLastChanges (autoLinkCurrentFile p))) = vault p /\
     ((forall f, activeFile p = Some f -> writable (path f) = true) ->
      lastChanges (fst (undoLastChanges (autoLinkCurrentFile p))) = [] /\
      snd (undoLastChanges (autoLinkCurrentFile p)) = Returned)) /\
  (forall p, lastChanges p = [] ->
     (forall dp ch,
        getAbstractFileByPath (vault p) (specifiedDirectory (settings p))
        = Some (AFolder dp ch) ->
        NoDup (path <$> getMarkdownFiles (AFolder dp ch)) /\
        forall f, f ∈ getMarkdownFiles (AFolder dp ch) ->
                  writable (path f) = true) ->
     vault (fst (undoLastChanges (extendLinkingToDirectory p))) = vault p /\
     lastChanges (fst (undoLastChanges (extendLinkingToDirectory p))) = [] /\
     snd (undoLastChanges (extendLinkingToDirectory p)) = Returned).
Proof.
  split; [exact undoLastChanges_empty|].
  split; [exact undoLastChanges_restores|].
  split; [intros p c; apply restore_recorded|].
  split; [exact autoLinkCurrentFile_undo|exact extendLinkingToDirectory_undo].
Qed.

(** ** Link removal and the ledger *)

Lemma removeLoop_frame links files : forall p n,
  lastChanges (fst (removeLoop links files p n)) = lastChanges p /\
  root (vault (fst (removeLoop links files p n))) = root (vault p) /\
  forall k : jsstr,
    is_Some (data (vault p) !! k) ->
    is_Some (data (vault (fst (removeLoop links files p n))) !! k).
Proof.
  induction files as [|f files IH]; intros p n; cbn [removeLoop].
  - cbn. auto.
  - unfold read, modify.
    destruct (data (vault p) !! path f) as [content|] eqn:Er; [|cbn; auto].
    destruct (negb (jsstr_eqb content (removeLinks content links)));
      [|apply IH].
    destruct (writable (path f)); [|cbn; auto].
    destruct (IH (setVault p {| root := root (vault p);
                                data := <[path f := removeLinks content links]>
                                          (data (vault p)) |}) (S n))
      as (H1 & H2 & H3).
    split; [exact H1|]. split; [exact H2|].
    intros k Hk. apply H3. cbn [setVault vault data].
    apply lookup_insert_is_Some'. now right.
Qed.

Lemma removeLinksFromDirectory_frame p :
  lastChanges (fst (removeLinksFromDirectory p)) = lastChanges p /\
  root (vault (fst (removeLinksFromDirectory p))) = root (vault p) /\
  forall k : jsstr,
    is_Some (data (vault p) !! k) ->
    is_Some (data (vault (fst (removeLinksFromDirectory p))) !! k).
Proof.
  unfold removeLinksFromDirectory.
  destruct (getAbstractFileByPath _ _) as [[f|dp ch]|]; try (cbn; now auto).
  pose proof (removeLoop_frame (parseListCased (linksToRemove (settings p)))
                (getMarkdownFiles (AFolder dp ch)) p 0) as Hf.
  destruct (removeLoop _ _ p 0) as [p' [total|]]; exact Hf.
Qed.

(** C10.  Removing links from a directory leaves the ledger as it was.
    With an empty ledger a following undo has nothing to undo, so the
    removal stays; with records of an earlier linking run, a following
    undo writes those records' texts over the documents. *)
Theorem C10_removal_leaves_ledger p :
  let p1 := fst (removeLinksFromDirectory p) in
  lastChanges p1 = lastChanges p /\
  (lastChanges p = [] ->
   undoLastChanges p1 = (notify p1 NoticeNothingToUndo, Returned)) /\
  (lastChanges p <> [] ->
   recorded (data (vault p)) (lastChanges p) ->
   undoLastChanges p1
   = ({| settings := settings p1;
         vault := {| root := root (vault p1);
                     data := restore (data (vault p1)) (lastChanges p) |};
         activeFile := activeFile p1;
         lastChanges := [];
         notices := notices p1 ++ [NoticeUndid (length (lastChanges p))] |},
      Returned)).
Proof.
  intros p1. destruct (removeLinksFromDirectory_frame p) as (Hl & _ & Hd).
  fold p1 in Hl, Hd. split; [exact Hl|]. split.
  - intros He. apply undoLastChanges_empty. now rewrite Hl.
  - intros Hne Hrec. rewrite <- Hl. apply undoLastChanges_restores.
    + now rewrite Hl.
    + rewrite Hl. intros c Hc. destruct (Hrec c Hc) as [H1 H2].
      split; [now apply Hd|exact H2].
Qed.

End Theory.

Section Linking.
Context {rt : Runtime}.

(** ** Patterns built from user text *)

Lemma matchLen_one c (suf' : jsstr) pre cap :
  matchLen (c :: suf') {| before := pre; after := suf'; capture := cap |}
  = 1%nat.
Proof. unfold matchLen. cbn [after length]. lia. Qed.

Lemma escapeLoop_spec fuel : forall pre suf,
  (length suf < fuel)%nat ->
  replaceLoop fuel flagsG (RSet (CsClass false regExpSpecials))
    (template (str "\$&")) pre suf
  = flat_map escapeUnit suf.
Proof.
  induction fuel as [|fuel IH]; intros pre suf Hfuel; [lia|].
  cbn [replaceLoop]. unfold matchAt. rewrite rmatch_set. cbn [after].
  destruct suf as [|c suf']; [reflexivity|].
  cbn [flat_map]. unfold escapeUnit, isSpecial.
  cbn [csMatches canonicalize ignoreCase flagsG noFlags xorb].
  destruct (existsb (fun a => a =? c) regExpSpecials).
  - cbn [before after capture]. rewrite matchLen_one.
    cbn [firstn app]. rewrite IH by (simpl in Hfuel; lia). reflexivity.
  - rewrite IH by (simpl in Hfuel; lia). reflexivity.
Qed.

Lemma escapeRegExp_spec (s : jsstr) :
  escapeRegExp s = flat_map escapeUnit s.
Proof. unfold escapeRegExp, replaceAll. apply escapeLoop_spec. lia. Qed.

Lemma compileEscaped_escaped (w src : jsstr) :
  compileEscaped (flat_map escapeUnit w ++ src)
  = foldr (fun c r => RSeq (RSet (CsChar c)) r) (compileEscaped src) w.
Proof.
  induction w as [|c w IH]; [reflexivity|].
  cbn [flat_map foldr]. rewrite <- IH, <- app_assoc.
  unfold escapeUnit at 1. destruct (isSpecial c) eqn:Ec.
  - reflexivity.
  - cbn [app compileEscaped].
    destruct (c =? 92) eqn:E92; [|reflexivity].
    apply N.eqb_eq in E92. subst c. discriminate Ec.
Qed.

Lemma compileEscaped_word (w : jsstr) :
  compileEscaped (escapeRegExp w) = litRegex w.
Proof.
  rewrite escapeRegExp_spec.
  rewrite <- (app_nil_r (flat_map escapeUnit w)).
  apply compileEscaped_escaped.
Qed.

Lemma litRegex_app (w1 w2 : jsstr) :
  foldr (fun c r => RSeq (RSet (CsChar c)) r) (litRegex w2) w1
  = litRegex (w1 ++ w2).
Proof. unfold litRegex. now rewrite foldr_app. Qed.

Lemma removePattern_lit (link : jsstr) :
  removePattern link = litRegex ([91; 91] ++ link ++ [93; 93]).
Proof.
  unfold removePattern. rewrite escapeRegExp_spec.
  change (str "\[\[" ++ flat_map escapeUnit link ++ str "\]\]")
    with (92 :: 91 :: 92 :: 91 :: flat_map escapeUnit link ++ str "\]\]").
  cbn [compileEscaped N.eqb Pos.eqb]. rewrite compileEscaped_escaped.
  rewrite compileEscaped_close, litRegex_app. reflexivity.
Qed.

(** *** A removal term without [$] *)

Lemma getSubstitution_plain (matched textBefore textAfter tmpl : jsstr) :
  36 ∉ tmpl -> getSubstitution matched textBefore textAfter tmpl = tmpl.
Proof.
  induction tmpl as [|c rest IH]; intros Hno; [reflexivity|].
  cbn [getSubstitution].
  destruct (N.eqb_spec c 36) as [->|_].
  - exfalso. apply Hno. now left.
  - f_equal. apply IH. intros Hin. apply Hno. now right.
Qed.

Lemma matchesLit_app fl (w1 w2 x1 x2 : jsstr) :
  length w1 = length x1 ->
  matchesLit fl (w1 ++ w2) (x1 ++ x2)
  = matchesLit fl w1 x1 && matchesLit fl w2 x2.
Proof.
  revert x1. induction w1 as [|c w1 IH]; intros [|d x1] Hlen;
    try discriminate.
  - reflexivity.
  - cbn [app matchesLit]. rewrite IH by (simpl in Hlen; lia).
    now rewrite andb_assoc.
Qed.

Lemma matchesLit_nil fl (w : jsstr) :
  w <> [] -> matchesLit fl w [] = false.
Proof. now destruct w. Qed.

(** A bracketed text that equals a [$]-free term up to case is replaced
    by the term as configured. *)
Lemma removeLinks_unwraps (link inner : jsstr) :
  36 ∉ link -> length inner = length link ->
  matchesLit flagsGI link inner = true ->
  removeLinks (str "[[" ++ inner ++ str "]]") [link] = link.
Proof.
  intros Hno Hlen Hm. cbn [removeLinks fold_left].
  change (str "[[") with [91; 91]. change (str "]]") with [93; 93].
  set (text := [91; 91] ++ inner ++ [93; 93]).
  unfold replaceAll. cbn [replaceLoop]. unfold matchAt.
  rewrite (removePattern_lit link), rmatch_lit. cbn [after before capture].
  assert (Htext : length ([91; 91] ++ link ++ [93; 93]) = length text).
  { unfold text. rewrite !length_app. cbn [length]. lia. }
  assert (Hlit : matchesLit flagsGI ([91; 91] ++ link ++ [93; 93]) text
                 = true).
  { unfold text. rewrite (matchesLit_app _ [91; 91] _ [91; 91]) by reflexivity.
    rewrite (matchesLit_app _ link _ inner) by (symmetry; exact Hlen).
    rewrite Hm. reflexivity. }
  rewrite Hlit, Htext, firstn_all, skipn_all.
  unfold matchLen. cbn [after length]. rewrite Nat.sub_0_r.
  unfold template. rewrite getSubstitution_plain by exact Hno.
  destruct (length text) as [|n] eqn:En; [discriminate|].
  cbn [replaceLoop]. unfold matchAt.
  rewrite rmatch_lit. cbn [after].
  rewrite matchesLit_nil by discriminate. now rewrite app_nil_r.
Qed.

(** ** The link pattern at one position *)

(** Brackets have no case: [Canonicalize] compares them exactly. *)
Lemma canonicalize_bracket (c d : N) :
  c = 91 \/ c = 93 ->
  (canonicalize flagsGI c =? canonicalize flagsGI d) = (c =? d).
Proof.
  intros Hc.
  assert (Hcc : canonicalize flagsGI c = c) by (now destruct Hc as [-> | ->]).
  rewrite Hcc. unfold canonicalize. cbn [ignoreCase flagsGI].
  destruct (N.ltb_spec d 128) as [Hd|Hd].
  - destruct (N.leb_spec 97 d) as [H1|H1]; destruct (N.leb_spec d 122) as [H2|H2];
      cbn [andb]; try reflexivity.
    destruct (N.eqb_spec c (d - 32)), (N.eqb_spec c d); try reflexivity; lia.
  - destruct (N.ltb_spec (unicodeUpper d) 128) as [Hu|Hu]; [reflexivity|].
    destruct (N.eqb_spec c (unicodeUpper d)), (N.eqb_spec c d);
      try reflexivity; lia.
Qed.

Lemma rmatch_wordb fl st k :
  rmatch fl Forward RWordB st k =
  if xorb (headIs isWordChar (before st)) (headIs isWordChar (after st))
  then k st else None.
Proof. reflexivity. Qed.

Lemma lookbehind_open st k :
  rmatch flagsGI Forward (RNotBehind (litRegex [91; 91])) st k =
  if startsWith (before st) [91; 91] then None else k st.
Proof.
  cbn [rmatch litRegex foldr]. unfold stepChar.
  destruct (before st) as [|d1 p]; [reflexivity|].
  cbn [before after capture csMatches startsWith].
  rewrite canonicalize_bracket by now left.
  destruct (91 =? d1); [|reflexivity].
  destruct p as [|d2 p']; [reflexivity|].
  cbn [before after capture csMatches startsWith andb].
  rewrite canonicalize_bracket by now left.
  rewrite startsWith_nil, andb_true_r.
  now destruct (91 =? d2).
Qed.

Lemma matchesLit_close (suf : jsstr) :
  matchesLit flagsGI [93; 93] suf = startsWith suf [93; 93].
Proof.
  destruct suf as [|d1 [|d2 s]]; cbn [matchesLit startsWith];
    rewrite ?canonicalize_bracket by (now right); try reflexivity.
  now rewrite startsWith_nil.
Qed.

Lemma lookahead_close st k :
  rmatch flagsGI Forward (RNotAhead (litRegex [93; 93])) st k =
  if startsWith (after st) [93; 93] then None else k st.
Proof.
  cbn [rmatch]. rewrite rmatch_lit, matchesLit_close.
  now destruct (startsWith (after st) [93; 93]).
Qed.

Lemma matchAt_linkPattern word pre suf :
  matchAt flagsGI (linkPattern word) pre suf =
  if linkMatch word pre suf
  then Some {| before := rev (firstn (length word) suf) ++ pre;
               after := skipn (length word) suf;
               capture := Some (firstn (length word) suf) |}
  else None.
Proof.
  unfold matchAt, linkPattern, linkMatch.
  rewrite compileEscaped_open, compileEscaped_close, compileEscaped_word.
  rewrite rmatch_seq, lookbehind_open. cbn [before].
  destruct (startsWith pre [91; 91]); [reflexivity|]. cbn [negb andb].
  rewrite rmatch_seq, rmatch_wordb. cbn [before after].
  destruct (xorb (headIs isWordChar pre) (headIs isWordChar suf));
    [|reflexivity]. cbn [andb].
  rewrite rmatch_seq, rmatch_group, rmatch_lit. cbn [before after capture].
  destruct (matchesLit flagsGI word suf) eqn:El; [|reflexivity]. cbn [andb].
  rewrite rmatch_seq, rmatch_wordb. cbn [before after].
  destruct (xorb _ _); [|reflexivity]. cbn [andb].
  rewrite lookahead_close. cbn [after].
  destruct (startsWith (skipn (length word) suf) [93; 93]); [reflexivity|].
  cbn [negb]. f_equal. f_equal. f_equal.
  apply captured_forward. cbn [after]. symmetry. apply firstn_skipn.
Qed.

Lemma linkMatch_length word pre suf :
  linkMatch word pre suf = true -> (length word <= length suf)%nat.
Proof.
  unfold linkMatch. intros H.
  repeat (apply andb_true_iff in H as [H ?]).
  now apply (matchesLit_length flagsGI).
Qed.

(** One turn of the global replacement loop on the link pattern. *)
Lemma replaceLoop_link fuel word repl pre suf :
  word <> [] ->
  replaceLoop (S fuel) flagsGI (linkPattern word) repl pre suf =
  if linkMatch word pre suf
  then repl (firstn (length word) suf) (rev pre) (skipn (length word) suf) ++
       replaceLoop fuel flagsGI (linkPattern word) repl
         (rev (firstn (length word) suf) ++ pre) (skipn (length word) suf)
  else match suf with
       | [] => []
       | c :: suf' =>
           c :: replaceLoop fuel flagsGI (linkPattern word) repl (c :: pre) suf'
       end.
Proof.
  intros Hne. cbn [replaceLoop]. rewrite matchAt_linkPattern.
  destruct (linkMatch word pre suf) eqn:Em; [|reflexivity].
  apply linkMatch_length in Em.
  unfold matchLen. cbn [after before]. rewrite length_skipn.
  replace (length suf - (length suf - length word))%nat
    with (length word) by lia.
  destruct word as [|c word']; [congruence|]. reflexivity.
Qed.

(** ** Terms made of word characters *)

Lemma isWordChar_spec c :
  isWordChar c = true <->
  (48 <= c <= 57 \/ 65 <= c <= 90 \/ 97 <= c <= 122 \/ c = 95).
Proof.
  unfold isWordChar.
  rewrite !orb_true_iff, !andb_true_iff, !N.leb_le, N.eqb_eq. tauto.
Qed.

Lemma canonicalize_cases c :
  (97 <= c <= 122 /\ canonicalize flagsGI c = c - 32) \/
  (c < 128 /\ ~ 97 <= c <= 122 /\ canonicalize flagsGI c = c) \/
  (128 <= c /\ 128 <= canonicalize flagsGI c).
Proof.
  unfold canonicalize. cbn [ignoreCase flagsGI].
  destruct (N.ltb_spec c 128) as [Hc|Hc].
  - destruct (N.leb_spec 97 c) as [H1|H1];
      destruct (N.leb_spec c 122) as [H2|H2]; cbn [andb];
      [left|right; left|right; left|right; left]; repeat split; lia.
  - right; right. split; [exact Hc|].
    destruct (N.ltb_spec (unicodeUpper c) 128); lia.
Qed.

(** Units that fold onto each other are word characters together. *)
Lemma canonicalize_word c d :
  canonicalize flagsGI c = canonicalize flagsGI d ->
  isWordChar c = isWordChar d.
Proof.
  intros H. apply eq_true_iff_eq. rewrite !isWordChar_spec.
  destruct (canonicalize_cases c) as [[? Hc]|[(? & ? & Hc)|[? Hc]]];
    destruct (canonicalize_cases d) as [[? Hd]|[(? & ? & Hd)|[? Hd]]];
    rewrite ?Hc, ?Hd in H; lia.
Qed.

Lemma tokenWord_spec w :
  tokenWord w = true <-> w <> [] /\ Forall (fun c => isWordChar c = true) w.
Proof.
  unfold tokenWord. rewrite andb_true_iff, forallb_forall, Forall_forall.
  split; intros [Hne Hw]; (split; [now destruct w|]);
    intros c Hc; apply Hw; now apply list_elem_of_In.
Qed.

Lemma matchesLit_words w : forall suf,
  Forall (fun c => isWordChar c = true) w ->
  matchesLit flagsGI w suf = true ->
  Forall (fun c => isWordChar c = true) (firstn (length w) suf).
Proof.
  induction w as [|c w IH]; intros suf Hw Hm; [constructor|].
  destruct suf as [|d suf]; [discriminate|].
  cbn [matchesLit] in Hm. apply andb_true_iff in Hm as [Hc Hm].
  apply N.eqb_eq in Hc. inversion Hw as [|? ? Hcw Hw']; subst.
  cbn [length firstn]. constructor.
  - now rewrite <- (canonicalize_word c d Hc).
  - now apply IH.
Qed.

Lemma matchesLit_firstn fl w : forall suf,
  matchesLit fl w suf = true -> length (firstn (length w) suf) = length w.
Proof.
  intros suf H. apply matchesLit_length in H. rewrite length_firstn. lia.
Qed.

(** Only the first [length w] units matter. *)
Lemma matchesLit_prefix fl w : forall m r r',
  length m = length w ->
  matchesLit fl w (m ++ r) = matchesLit fl w (m ++ r').
Proof.
  induction w as [|c w IH]; intros m r r' Hlen; [reflexivity|].
  destruct m as [|d m]; [discriminate|].
  cbn [app matchesLit]. f_equal. apply IH. simpl in Hlen. lia.
Qed.

Lemma headIs_rev_words (m pre : jsstr) :
  m <> [] -> Forall (fun c => isWordChar c = true) m ->
  headIs isWordChar (rev m ++ pre) = true.
Proof.
  intros Hne Hm. destruct (rev m) as [|d q] eqn:E.
  - exfalso. apply Hne. apply (f_equal (@rev N)) in E.
    now rewrite rev_involutive in E.
  - cbn [app headIs]. rewrite Forall_forall in Hm. apply Hm.
    apply list_elem_of_In, in_rev. rewrite E. now left.
Qed.

Lemma headIs_words (m r : jsstr) :
  m <> [] -> Forall (fun c => isWordChar c = true) m ->
  headIs isWordChar (m ++ r) = true.
Proof.
  intros Hne Hm. destruct m as [|c m]; [congruence|].
  cbn. now inversion Hm.
Qed.

(** What a match of a token word amounts to. *)
Lemma linkMatch_token w pre suf :
  tokenWord w = true ->
  linkMatch w pre suf =
  negb (startsWith pre [91; 91]) && negb (headIs isWordChar pre) &&
  matchesLit flagsGI w suf &&
  negb (headIs isWordChar (skipn (length w) suf)) &&
  negb (startsWith (skipn (length w) suf) [93; 93]).
Proof.
  intros Hw. apply tokenWord_spec in Hw as [Hne Hw]. unfold linkMatch.
  destruct (matchesLit flagsGI w suf) eqn:Em.
  - pose proof (matchesLit_words w suf Hw Em) as Hm.
    pose proof (matchesLit_firstn _ w suf Em) as Hlen.
    assert (Hmne : firstn (length w) suf <> []).
    { intros E. rewrite E in Hlen. destruct w; [congruence|discriminate]. }
    rewrite (headIs_rev_words _ pre Hmne Hm).
    replace (headIs isWordChar suf) with true.
    + destruct (startsWith pre [91; 91]), (headIs isWordChar pre),
        (headIs isWordChar (skipn (length w) suf)),
        (startsWith (skipn (length w) suf) [93; 93]); reflexivity.
    + rewrite <- (firstn_skipn (length w) suf). symmetry.
      now apply headIs_words.
  - now rewrite !andb_false_r.
Qed.

Lemma linkMatch_token_inv w pre suf :
  tokenWord w = true -> linkMatch w pre suf = true ->
  exists m r,
    suf = m ++ r /\ m = firstn (length w) suf /\ length m = length w /\
    m <> [] /\ Forall (fun c => isWordChar c = true) m /\
    startsWith pre [91; 91] = false /\ headIs isWordChar pre = false /\
    headIs isWordChar r = false /\ startsWith r [93; 93] = false.
Proof.
  intros Hw Hm. rewrite linkMatch_token in Hm by exact Hw.
  apply tokenWord_spec in Hw as [Hne Hw].
  repeat (apply andb_true_iff in Hm as [Hm ?]).
  exists (firstn (length w) suf), (skipn (length w) suf).
  pose proof (matchesLit_firstn _ w suf ltac:(eassumption)) as Hlen.
  repeat split; try (now apply negb_true_iff).
  - symmetry. apply firstn_skipn.
  - exact Hlen.
  - intros E. rewrite E in Hlen. destruct w; [congruence|discriminate].
  - now apply matchesLit_words.
Qed.

Lemma linkMatch_token_intro w pre m r r0 :
  tokenWord w = true -> length m = length w ->
  matchesLit flagsGI w (m ++ r0) = true ->
  startsWith pre [91; 91] = false -> headIs isWordChar pre = false ->
  headIs isWordChar r = false -> startsWith r [93; 93] = false ->
  linkMatch w pre (m ++ r) = true.
Proof.
  intros Hw Hlen Hm Hopen Hpre Hr Hclose.
  rewrite linkMatch_token by exact Hw.
  rewrite (matchesLit_prefix _ w m r r0 Hlen), Hm.
  rewrite <- Hlen, drop_app_length.
  now rewrite Hopen, Hpre, Hr, Hclose.
Qed.

(** ** Linking one chunk, run after run *)

Section Relink.
Variables (s : AutoLinkerSettings) (v : Vault).

Lemma wrapMatch_wraps m x y :
  wrapMatch s v m x y = if wraps s v m then [91; 91] ++ m ++ [93; 93] else m.
Proof.
  unfold wrapMatch, wraps.
  now destruct (existingFilesOnly s && negb (fileExists v m)).
Qed.

Lemma relink_S w fuel pre suf :
  tokenWord w = true ->
  relink s v w (S fuel) pre suf =
  if linkMatch w pre suf
  then (if wraps s v (firstn (length w) suf)
        then [91; 91] ++ firstn (length w) suf ++ [93; 93]
        else firstn (length w) suf) ++
       relink s v w fuel (rev (firstn (length w) suf) ++ pre)
         (skipn (length w) suf)
  else match suf with
       | [] => []
       | c :: suf' => c :: relink s v w fuel (c :: pre) suf'
       end.
Proof.
  intros Hw. apply tokenWord_spec in Hw as [Hne _]. unfold relink.
  rewrite replaceLoop_link by exact Hne. now rewrite wrapMatch_wraps.
Qed.

Lemma linkWord_relink sec w :
  linkWord s v sec w =
  if isLinkable s w then relink s v w (S (length sec)) [] sec else sec.
Proof. reflexivity. Qed.

Lemma linkMatch_nonword w pre suf :
  tokenWord w = true -> headIs isWordChar suf = false ->
  linkMatch w pre suf = false.
Proof.
  intros Hw Hs. apply not_true_is_false. intros Hm.
  destruct (linkMatch_token_inv w pre suf Hw Hm)
    as (m & r & -> & _ & _ & Hne & Hwm & _).
  rewrite headIs_words in Hs by assumption. discriminate.
Qed.

Lemma linkMatch_inside w pre suf :
  tokenWord w = true -> headIs isWordChar pre = true ->
  linkMatch w pre suf = false.
Proof.
  intros Hw Hp. apply not_true_is_false. intros Hm.
  destruct (linkMatch_token_inv w pre suf Hw Hm)
    as (m & r & _ & _ & _ & _ & _ & _ & Hpre & _).
  congruence.
Qed.

Lemma relink_nonword w fuel pre suf :
  tokenWord w = true -> headIs isWordChar suf = false ->
  relink s v w (S fuel) pre suf =
  match suf with
  | [] => []
  | d :: suf' => d :: relink s v w fuel (d :: pre) suf'
  end.
Proof.
  intros Hw Hs. rewrite relink_S by exact Hw.
  now rewrite linkMatch_nonword.
Qed.

(** Inside a run of word characters nothing matches. *)
Lemma relink_inside w x : forall fuel pre rest,
  tokenWord w = true ->
  Forall (fun c => isWordChar c = true) x ->
  headIs isWordChar pre = true ->
  relink s v w fuel pre (x ++ rest)
  = x ++ relink s v w (fuel - length x) (rev x ++ pre) rest.
Proof.
  induction x as [|c x IH]; intros fuel pre rest Hw Hx Hpre.
  - cbn. now rewrite Nat.sub_0_r.
  - inversion Hx as [|? ? Hc Hx']; subst. destruct fuel as [|fuel].
    + reflexivity.
    + rewrite relink_S by exact Hw. rewrite linkMatch_inside by assumption.
      cbn [app]. rewrite IH by assumption.
      cbn [length rev Nat.sub]. now rewrite <- app_assoc.
Qed.

(** Every text splits into its leading run of word characters and the
    rest. *)
Lemma word_span (t : jsstr) :
  exists x rest, t = x ++ rest /\
    Forall (fun c => isWordChar c = true) x /\
    headIs isWordChar rest = false.
Proof.
  induction t as [|c t (x & rest & -> & Hx & Hr)].
  - exists [], []. repeat split. constructor.
  - destruct (isWordChar c) eqn:Ec.
    + exists (c :: x), rest. repeat split; [now constructor|exact Hr].
    + exists [], (c :: x ++ rest). repeat split; [constructor|exact Ec].
Qed.

Lemma token_unique (x x' r r' : jsstr) :
  x ++ r = x' ++ r' ->
  Forall (fun c => isWordChar c = true) x ->
  Forall (fun c => isWordChar c = true) x' ->
  headIs isWordChar r = false -> headIs isWordChar r' = false ->
  x = x' /\ r = r'.
Proof.
  revert x'. induction x as [|c x IH]; intros x' Heq Hx Hx' Hr Hr'.
  - destruct x' as [|c' x']; [now split|].
    cbn in Heq. subst r. inversion Hx'; subst. cbn in Hr. congruence.
  - destruct x' as [|c' x'].
    + cbn in Heq. subst r'. inversion Hx; subst. cbn in Hr'. congruence.
    + cbn in Heq. injection Heq as -> Heq.
      inversion Hx; inversion Hx'; subst.
      destruct (IH x' Heq) as [-> ->]; auto.
Qed.

Lemma noWrap_shift w' pre x text :
  noWrap s v w' pre (x ++ text) -> noWrap s v w' (rev x ++ pre) text.
Proof.
  intros H a b -> Hm. apply (H (x ++ a) b).
  - now rewrite app_assoc.
  - now rewrite rev_app_distr, <- app_assoc.
Qed.

Lemma noWrap_nil w' pre : tokenWord w' = true -> noWrap s v w' pre [].
Proof.
  intros Hw a b Hab Hm. symmetry in Hab.
  apply app_eq_nil in Hab as [-> ->].
  rewrite linkMatch_nonword in Hm by (exact Hw || reflexivity).
  discriminate.
Qed.

(** Such a text is left as it is. *)
Lemma relink_stable w' fuel : forall pre suf,
  tokenWord w' = true -> noWrap s v w' pre suf -> relink s v w' fuel pre suf = suf.
Proof.
  induction fuel as [|fuel IH]; intros pre suf Hw Hno; [reflexivity|].
  rewrite relink_S by exact Hw.
  destruct (linkMatch w' pre suf) eqn:Em.
  - rewrite (Hno [] suf eq_refl Em).
    rewrite IH; [apply firstn_skipn|exact Hw|].
    apply noWrap_shift. now rewrite firstn_skipn.
  - destruct suf as [|c suf']; [reflexivity|]. f_equal.
    apply IH; [exact Hw|]. now apply (noWrap_shift w' pre [c]).
Qed.

Lemma linkMatch_matchesLit w pre suf :
  linkMatch w pre suf = true -> matchesLit flagsGI w suf = true.
Proof.
  unfold linkMatch. intros H.
  now repeat (apply andb_true_iff in H as [H ?]).
Qed.

Lemma relink_head_nonword w fuel pre suf :
  tokenWord w = true -> headIs isWordChar suf = false ->
  headIs isWordChar (relink s v w fuel pre suf) = false.
Proof.
  intros Hw Hs. destruct fuel as [|fuel]; [exact Hs|].
  rewrite relink_nonword by assumption.
  destruct suf as [|d suf']; [reflexivity|exact Hs].
Qed.

Lemma relink_close w fuel pre rest :
  tokenWord w = true -> (2 <= fuel)%nat ->
  startsWith rest [93; 93] = true ->
  startsWith (relink s v w fuel pre rest) [93; 93] = true.
Proof.
  intros Hw Hfuel Hr. apply startsWith_prefix in Hr as (t & ->).
  destruct fuel as [|[|fuel]]; [lia|lia|].
  cbn [app]. rewrite relink_nonword by (exact Hw || reflexivity).
  rewrite relink_nonword by (exact Hw || reflexivity).
  apply startsWith_prefix. eexists. reflexivity.
Qed.

Lemma headIs_hd (f : N -> bool) (p q : jsstr) :
  hd_error p = hd_error q -> headIs f p = headIs f q.
Proof. destruct p, q; cbn; congruence. Qed.

Lemma startsWith_two c (p : jsstr) :
  startsWith (c :: p) [91; 91] = (91 =? c) && headIs (N.eqb 91) p.
Proof.
  cbn [startsWith]. f_equal. destruct p as [|d p']; [reflexivity|].
  cbn [startsWith headIs]. now rewrite startsWith_nil, andb_true_r.
Qed.

Lemma word_not_open (p : jsstr) :
  headIs isWordChar p = true -> headIs (N.eqb 91) p = false.
Proof.
  destruct p as [|d p']; [reflexivity|]. cbn [headIs]. intros Hd.
  destruct (N.eqb_spec 91 d) as [<-|]; [discriminate|reflexivity].
Qed.

Lemma word_not_opened (p : jsstr) :
  headIs isWordChar p = true -> startsWith p [91; 91] = false.
Proof.
  destruct p as [|d p']; [reflexivity|]. intros Hd.
  rewrite startsWith_two. apply word_not_open in Hd. cbn [headIs] in Hd.
  now rewrite Hd.
Qed.

Lemma ctxRel_copy pre preO c suf' :
  ctxRel pre preO (c :: suf') -> ctxSame (c :: pre) (c :: preO).
Proof.
  intros Hrel. split; [reflexivity|]. rewrite !startsWith_two.
  intros H. apply andb_true_iff in H as [Hc Hp]. rewrite Hc. cbn [andb].
  destruct Hrel as [[Hhd _]|(Hw & _ & _)].
  - now rewrite <- (headIs_hd _ _ _ Hhd).
  - apply word_not_open in Hw. congruence.
Qed.

Lemma ctxSame_after_words m pre preO :
  m <> [] -> Forall (fun c => isWordChar c = true) m ->
  ctxSame (rev m ++ pre) (rev m ++ preO).
Proof.
  intros Hne Hm. split.
  - destruct (rev m) as [|d q] eqn:E; [|reflexivity].
    exfalso. apply Hne. apply (f_equal (@rev N)) in E.
    now rewrite rev_involutive in E.
  - intros H. rewrite word_not_opened in H; [discriminate|].
    now apply headIs_rev_words.
Qed.

Lemma linkMatch_facts w p b :
  tokenWord w = true -> linkMatch w p b = true ->
  headIs isWordChar b = true /\ startsWith p [91; 91] = false /\
  headIs isWordChar p = false.
Proof.
  intros Hw Hm.
  destruct (linkMatch_token_inv w p b Hw Hm)
    as (m & r & -> & _ & _ & Hne & Hwm & Hopen & Hpre & _).
  repeat split; try assumption. now apply headIs_words.
Qed.

(** Where a position of the output falls, when the output starts with a
    wrapped match. *)
Lemma split_wrapped (m O1 a b preO : jsstr) :
  m <> [] -> Forall (fun c => isWordChar c = true) m ->
  ([91; 91] ++ m ++ [93; 93]) ++ O1 = a ++ b ->
  (exists a', a = ([91; 91] ++ m ++ [93; 93]) ++ a' /\ O1 = a' ++ b) \/
  headIs isWordChar b = false \/
  startsWith (rev a ++ preO) [91; 91] = true \/
  headIs isWordChar (rev a ++ preO) = true.
Proof.
  intros Hne Hm Hab.
  destruct a as [|a0 [|a1 a2]].
  - right; left. cbn in Hab. now subst b.
  - right; left. cbn in Hab. injection Hab as _ Hab. now subst b.
  - cbn [app] in Hab. injection Hab as <- <- Hab.
    rewrite <- app_assoc in Hab.
    apply app_eq_app in Hab as (l & [[Hm2 Hb]|[Ha2 Hb]]).
    + destruct a2 as [|a3 a4].
      * right; right; left. cbn [rev app]. now rewrite startsWith_two.
      * right; right; right.
        change (91 :: 91 :: a3 :: a4) with ([91; 91] ++ a3 :: a4).
        rewrite rev_app_distr, <- app_assoc.
        apply headIs_rev_words; [discriminate|].
        rewrite Hm2 in Hm. now apply Forall_app in Hm as [Hm _].
    + destruct l as [|l0 [|l1 l2]].
      * right; left. cbn in Hb. now subst b.
      * right; left. cbn in Hb. injection Hb as _ Hb. now subst b.
      * left. cbn in Hb. injection Hb as <- <- Hb. exists l2.
        split; [|exact Hb]. subst a2. cbn. now rewrite <- !app_assoc.
Qed.

Lemma split_plain (m O1 a b preO : jsstr) :
  Forall (fun c => isWordChar c = true) m ->
  m ++ O1 = a ++ b ->
  (exists a', a = m ++ a' /\ O1 = a' ++ b) \/
  (a = [] /\ b = m ++ O1) \/
  headIs isWordChar (rev a ++ preO) = true.
Proof.
  intros Hm Hab.
  apply app_eq_app in Hab as (l & [[Hm2 Hb]|[Ha Hb]]).
  - destruct a as [|a0 a1].
    + right; left. split; [reflexivity|]. cbn in Hm2. now subst.
    + right; right. apply headIs_rev_words; [discriminate|].
      rewrite Hm2 in Hm. now apply Forall_app in Hm as [Hm _].
  - left. now exists l.
Qed.

(** A run of [w] neither creates nor frees an occurrence of [w'] that the
    callback would wrap: the output has none if the input had none, and
    it has none of [w] itself. *)
Lemma relink_noWrap w w' :
  tokenWord w = true -> tokenWord w' = true ->
  forall fuel pre suf preO,
    (length suf < fuel)%nat ->
    ctxRel pre preO suf ->
    w' = w \/ noWrap s v w' pre suf ->
    noWrap s v w' preO (relink s v w fuel pre suf).
Proof.
  intros Hw Hw'.
  induction fuel as [|fuel IH]; intros pre suf preO Hfuel Hrel Hhyp; [lia|].
  rewrite relink_S by exact Hw.
  destruct (linkMatch w pre suf) eqn:Em.
  - (* the word matches at this position *)
    destruct (linkMatch_token_inv w pre suf Hw Em)
      as (m & r & Hsuf & Hm & Hlen & Hne & Hwm & Hopen & Hpre & Hr & Hclose).
    rewrite <- Hm.
    replace (skipn (length w) suf) with r
      by (rewrite Hsuf, <- Hlen; now rewrite drop_app_length).
    assert (Hhyp1 : w' = w \/ noWrap s v w' (rev m ++ pre) r).
    { destruct Hhyp as [->|Hno]; [now left|right].
      apply noWrap_shift. now rewrite <- Hsuf. }
    assert (Hfuel1 : (length r < fuel)%nat).
    { rewrite Hsuf, length_app in Hfuel.
      destruct m; [congruence|simpl in Hfuel; lia]. }
    assert (HO1 : headIs isWordChar (relink s v w fuel (rev m ++ pre) r) = false)
      by now apply relink_head_nonword.
    destruct (wraps s v m) eqn:Ewr.
    + assert (IH1 : noWrap s v w' (rev ([91; 91] ++ m ++ [93; 93]) ++ preO)
                      (relink s v w fuel (rev m ++ pre) r)).
      { apply IH; [exact Hfuel1| |exact Hhyp1]. right.
        split; [now apply headIs_rev_words|]. split; [|exact Hr].
        rewrite !rev_app_distr. reflexivity. }
      intros a b Hab Hmb.
      destruct (linkMatch_facts w' _ b Hw' Hmb) as (Hb1 & Hb2 & Hb3).
      destruct (split_wrapped m _ a b preO Hne Hwm Hab)
        as [(a' & -> & HO)|[Hx|[Hx|Hx]]]; try congruence.
      apply (IH1 a' b HO).
      now rewrite rev_app_distr, <- app_assoc in Hmb.
    + assert (IH1 : noWrap s v w' (rev m ++ preO)
                      (relink s v w fuel (rev m ++ pre) r)).
      { apply IH; [exact Hfuel1| |exact Hhyp1]. left.
        now apply ctxSame_after_words. }
      intros a b Hab Hmb.
      destruct (linkMatch_facts w' _ b Hw' Hmb) as (Hb1 & Hb2 & Hb3).
      destruct (split_plain m _ a b preO Hwm Hab)
        as [(a' & -> & HO)|[[-> ->]|Hx]]; try congruence.
      * apply (IH1 a' b HO).
        now rewrite rev_app_distr, <- app_assoc in Hmb.
      * destruct (linkMatch_token_inv w' _ _ Hw' Hmb)
          as (m' & r' & Hb & Hm' & _ & _ & Hwm' & _ & _ & Hr' & _).
        rewrite <- Hm'.
        destruct (token_unique m m' _ r' Hb Hwm Hwm' HO1 Hr') as [<- _].
        exact Ewr.
  - (* no match: the unit is copied *)
    destruct suf as [|c suf']; [now apply noWrap_nil|].
    assert (IH1 : noWrap s v w' (c :: preO) (relink s v w fuel (c :: pre) suf')).
    { apply IH; [simpl in Hfuel; lia|left; eapply ctxRel_copy; eauto|].
      destruct Hhyp as [->|Hno]; [now left|right].
      now apply (noWrap_shift w' pre [c]). }
    intros a b Hab Hmb. destruct a as [|a0 a'].
    + cbn [app rev] in Hab, Hmb. subst b.
      destruct (linkMatch_facts w' _ _ Hw' Hmb) as (Hc & Hb2 & Hb3).
      cbn [headIs] in Hc.
      assert (Hsame : ctxSame pre preO).
      { destruct Hrel as [Hs|(_ & _ & Hx)]; [exact Hs|].
        cbn [headIs] in Hx. congruence. }
      destruct Hsame as [Hhd Hopened].
      assert (Hpre : headIs isWordChar pre = false)
        by now rewrite (headIs_hd _ _ _ Hhd).
      assert (Hopen : startsWith pre [91; 91] = false).
      { destruct (startsWith pre [91; 91]); [|reflexivity].
        rewrite Hopened in Hb2; [discriminate|reflexivity]. }
      destruct (word_span suf') as (x & rest & -> & Hx & Hrest).
      rewrite relink_inside in Hmb |- * by assumption.
      set (O2 := relink s v w (fuel - length x) (rev x ++ c :: pre) rest) in *.
      assert (HO2 : headIs isWordChar O2 = false)
        by now apply relink_head_nonword.
      destruct (linkMatch_token_inv w' _ _ Hw' Hmb)
        as (m' & r' & Hb & Hm' & Hlen' & _ & Hwm' & _ & _ & Hr' & Hclose').
      rewrite <- Hm'.
      assert (Hcx : Forall (fun c => isWordChar c = true) (c :: x))
        by now constructor.
      destruct (token_unique (c :: x) m' O2 r' Hb Hcx Hwm' HO2 Hr')
        as [<- <-].
      assert (HmT : linkMatch w' pre ((c :: x) ++ rest) = true).
      { apply (linkMatch_token_intro w' pre (c :: x) rest O2);
          try assumption.
        - now apply linkMatch_matchesLit in Hmb.
        - destruct (startsWith rest [93; 93]) eqn:Er; [|reflexivity].
          unfold O2 in Hclose'.
          rewrite relink_close in Hclose'; [exact Hclose'|exact Hw| |exact Er].
          apply startsWith_prefix in Er as (t & ->).
          simpl in Hfuel. rewrite !length_app in Hfuel. simpl in Hfuel.
          lia. }
      destruct Hhyp as [->|Hno]; [cbn [app] in HmT; congruence|].
      specialize (Hno [] _ eq_refl HmT).
      now rewrite (take_app_length' (c :: x) rest) in Hno.
    + cbn [app] in Hab. injection Hab as <- Hab.
      apply (IH1 a' b Hab).
      cbn [rev] in Hmb. now rewrite <- app_assoc in Hmb.
Qed.

(** *** All the words of one run *)

Lemma linkChunk_noWrap (ws : list jsstr) (text : jsstr) :
  Forall (fun w => tokenWord w = true) ws ->
  forall w, w ∈ ws -> isLinkable s w = true ->
    noWrap s v w [] (fold_left (linkWord s v) ws text).
Proof.
  induction ws as [|w1 ws0 IH] using rev_ind; intros Hws w Hin Hl.
  - inversion Hin.
  - apply Forall_app in Hws as [Hws0 Hw1].
    inversion Hw1 as [|? ? Hw1t _]; subst.
    rewrite fold_left_app. cbn [fold_left]. rewrite linkWord_relink.
    apply elem_of_app in Hin as [Hin|Hin].
    + destruct (isLinkable s w1); [|now apply IH].
      pose proof (proj1 (Forall_forall _ _) Hws0 w Hin) as Hwt.
      apply relink_noWrap; [exact Hw1t|exact Hwt|lia| |].
      * left. split; [reflexivity|auto].
      * right. now apply IH.
    + apply list_elem_of_singleton in Hin. subst w1. rewrite Hl.
      apply relink_noWrap; [exact Hw1t|exact Hw1t|lia| |now left].
      left. split; [reflexivity|auto].
Qed.

Lemma linkChunk_fixed (ws : list jsstr) (text : jsstr) :
  Forall (fun w => tokenWord w = true) ws ->
  (forall w, w ∈ ws -> isLinkable s w = true -> noWrap s v w [] text) ->
  fold_left (linkWord s v) ws text = text.
Proof.
  induction ws as [|w ws IH]; intros Hws Hno; [reflexivity|].
  inversion Hws as [|? ? Hw Hws']; subst. cbn [fold_left].
  assert (Hstep : linkWord s v text w = text).
  { rewrite linkWord_relink. destruct (isLinkable s w) eqn:El; [|reflexivity].
    apply relink_stable; [exact Hw|]. apply Hno; [now left|exact El]. }
  rewrite Hstep. apply IH; [exact Hws'|].
  intros w' Hin. apply Hno. now right.
Qed.

(** Linking a chunk a second time changes nothing. *)
Lemma linkChunk_idempotent (ws : list jsstr) (text : jsstr) :
  Forall (fun w => tokenWord w = true) ws ->
  fold_left (linkWord s v) ws (fold_left (linkWord s v) ws text)
  = fold_left (linkWord s v) ws text.
Proof.
  intros Hws. apply linkChunk_fixed; [exact Hws|].
  intros w Hin Hl. now apply linkChunk_noWrap.
Qed.

(** ** Headings survive a run *)

Lemma solAfter_cons sol c a :
  solAfter sol (c :: a) = solAfter (isLineTerminator c) a.
Proof.
  unfold solAfter. cbn [rev].
  destruct (rev a) as [|d q]; reflexivity.
Qed.

Lemma solAfter_app sol x a :
  solAfter sol (x ++ a) = solAfter (solAfter sol x) a.
Proof.
  revert sol. induction x as [|c x IH]; intros sol; [reflexivity|].
  cbn [app]. now rewrite !solAfter_cons, IH.
Qed.

Lemma lineStart_rev pre a :
  lineStart (rev a ++ pre) = solAfter (lineStart pre) a.
Proof.
  unfold solAfter. destruct (rev a) as [|d q]; reflexivity.
Qed.

Lemma bodyOK_tail sol c b :
  bodyOK sol (c :: b) -> bodyOK (isLineTerminator c) b.
Proof.
  intros H a b' ->. rewrite <- (solAfter_cons sol).
  now apply (H (c :: a) b').
Qed.

Lemma heading_none pre suf :
  lineStart pre && headIs (N.eqb 35) suf = false ->
  matchAt flagsM headingPattern pre suf = None.
Proof.
  intros H. unfold matchAt, headingPattern.
  rewrite rmatch_seq, rmatch_bol. cbn [before].
  assert (Hg : headIs (N.eqb 35) suf = false ->
               rmatch flagsM Forward
                 (RGroup (RSeq (RSet (CsChar 35)) (RSeq (RStar CsDot) REol)))
                 {| before := pre; after := suf; capture := None |} Some
               = None).
  { intros Hs. rewrite rmatch_group, rmatch_seq, rmatch_set. cbn [after].
    destruct suf as [|c suf']; [reflexivity|].
    cbn [headIs] in Hs. cbn [csMatches canonicalize ignoreCase flagsM].
    now rewrite Hs. }
  destruct pre as [|c pre'].
  - cbn [lineStart andb] in H. now apply Hg.
  - cbn [lineStart] in H. cbn [multiline flagsM andb].
    destruct (isLineTerminator c); [now apply Hg|reflexivity].
Qed.

Lemma heading_some pre g rest :
  lineStart pre = true ->
  Forall (fun c => isLineTerminator c = false) g ->
  lineEnd rest = true ->
  matchAt flagsM headingPattern pre (35 :: g ++ rest)
  = Some {| before := rev (35 :: g) ++ pre; after := rest;
            capture := Some (35 :: g) |}.
Proof.
  intros Hpre Hg Hrest. unfold matchAt, headingPattern.
  rewrite rmatch_seq, rmatch_bol. cbn [before].
  assert (Hm : rmatch flagsM Forward
                 (RGroup (RSeq (RSet (CsChar 35)) (RSeq (RStar CsDot) REol)))
                 {| before := pre; after := 35 :: g ++ rest; capture := None |}
                 Some
               = Some {| before := rev (35 :: g) ++ pre; after := rest;
                         capture := Some (35 :: g) |}).
  { rewrite rmatch_group, rmatch_seq, rmatch_set. cbn [after].
    cbn [csMatches canonicalize ignoreCase flagsM]. rewrite N.eqb_refl.
    rewrite rmatch_seq, rmatch_star. cbn [after before capture].
    apply (starLoop_greedy flagsM CsDot _ _ g _ _ rest).
    - eapply Forall_impl; [exact Hg|]. intros c Hc. cbn [csMatches].
      now rewrite Hc.
    - reflexivity.
    - destruct rest as [|d rest']; [reflexivity|].
      cbn [headIs csMatches]. cbn [lineEnd] in Hrest. now rewrite Hrest.
    - cbn [after]. lia.
    - cbn [before capture]. rewrite rmatch_eol. cbn [after].
      assert (Hres : Some {| before := rev g ++ 35 :: pre; after := rest;
                             capture := Some (captured Forward
                               {| before := pre; after := 35 :: g ++ rest;
                                  capture := None |}
                               {| before := rev g ++ 35 :: pre;
                                  after := rest; capture := None |}) |}
                     = Some {| before := rev (35 :: g) ++ pre; after := rest;
                               capture := Some (35 :: g) |}).
      { f_equal. f_equal.
        - cbn [rev]. now rewrite <- app_assoc.
        - f_equal. now apply (captured_forward _ _ (35 :: g)). }
      destruct rest as [|d rest']; [exact Hres|].
      cbn [lineEnd] in Hrest. cbn [multiline flagsM andb]. rewrite Hrest.
      exact Hres. }
  destruct pre as [|c pre']; [exact Hm|].
  cbn [lineStart] in Hpre. cbn [multiline flagsM andb]. now rewrite Hpre.
Qed.

(** Scanning over a chunk without a heading line gathers it. *)
Lemma splitLoop_body b : forall fuel piece pre rest,
  bodyOK (lineStart pre) b ->
  (length b <= fuel)%nat ->
  splitLoop fuel flagsM headingPattern piece pre (b ++ rest)
  = splitLoop (fuel - length b) flagsM headingPattern
      (rev b ++ piece) (rev b ++ pre) rest.
Proof.
  induction b as [|c b IH]; intros fuel piece pre rest Hok Hfuel.
  - cbn. now rewrite Nat.sub_0_r.
  - destruct fuel as [|fuel]; [simpl in Hfuel; lia|].
    cbn [app splitLoop]. rewrite heading_none.
    + rewrite IH.
      * cbn [length rev Nat.sub]. now rewrite <- !app_assoc.
      * cbn [lineStart]. now apply (bodyOK_tail (lineStart pre)).
      * simpl in Hfuel. lia.
    + cbn [headIs]. destruct (N.eqb_spec 35 c) as [<-|];
        [|apply andb_false_r].
      rewrite andb_true_r. apply (Hok [] b). reflexivity.
Qed.

Lemma lineStart_after_heading g pre :
  Forall (fun c => isLineTerminator c = false) g ->
  lineStart (rev (35 :: g) ++ pre) = false.
Proof.
  intros Hg. rewrite lineStart_rev. unfold solAfter.
  destruct (rev (35 :: g)) as [|d q] eqn:E.
  - apply (f_equal (@rev N)) in E. rewrite rev_involutive in E. discriminate.
  - assert (Hin : In d (35 :: g)) by (apply in_rev; rewrite E; now left).
    destruct Hin as [<-|Hin]; [reflexivity|].
    rewrite Forall_forall in Hg. apply Hg. now apply list_elem_of_In.
Qed.

Lemma splitLoop_wellSplit sol l :
  wellSplit sol l ->
  forall fuel piece pre,
    lineStart pre = sol ->
    (length (join l) < fuel)%nat ->
    splitLoop fuel flagsM headingPattern piece pre (join l)
    = match l with
      | b :: rest => (rev piece ++ b) :: rest
      | [] => []
      end.
Proof.
  induction 1 as [sol b Hb|sol b g l Hb Hsol Hg Hend Hl IH];
    intros fuel piece pre Hpre Hfuel.
  - unfold join in *. cbn [concat] in *. rewrite app_nil_r in Hfuel.
    rewrite splitLoop_body by (rewrite ?Hpre; assumption || lia).
    destruct (fuel - length b)%nat eqn:E; [lia|].
    cbn [splitLoop]. now rewrite rev_app_distr, rev_involutive.
  - unfold join in *. cbn [concat] in *.
    rewrite !length_app in Hfuel. cbn [length] in Hfuel.
    rewrite splitLoop_body by (rewrite ?Hpre; assumption || lia).
    destruct (fuel - length b)%nat as [|fuel'] eqn:E; [lia|].
    cbn [splitLoop app].
    rewrite heading_some;
      [|rewrite lineStart_rev, Hpre; exact Hsol|exact Hg|exact Hend].
    unfold matchLen. cbn [after capture before].
    replace (Nat.sub (length (35 :: g ++ concat l)) (length (concat l)))
      with (S (length g)) by (cbn [length]; rewrite length_app; lia).
    rewrite rev_app_distr, rev_involutive. f_equal. cbn [app]. f_equal.
    rewrite IH.
    + destruct l as [|b2 rest]; [inversion Hl|reflexivity].
    + now apply lineStart_after_heading.
    + lia.
Qed.

Lemma split_wellSplit l :
  wellSplit true l -> split flagsM headingPattern (join l) = l.
Proof.
  intros Hl. unfold split.
  destruct (join l) as [|c t] eqn:E.
  - destruct Hl as [sol b Hb|sol b g l Hb Hsol Hg Hend Hl].
    + unfold join in E. cbn in E. rewrite app_nil_r in E. now subst b.
    + unfold join in E. cbn in E. apply app_eq_nil in E as [_ E].
      discriminate.
  - rewrite <- E. rewrite (splitLoop_wellSplit true l Hl);
      [|reflexivity|lia].
    destruct l as [|b rest]; [inversion Hl|reflexivity].
Qed.

Lemma line_span (t : jsstr) :
  exists g rest, t = g ++ rest /\
    Forall (fun c => isLineTerminator c = false) g /\ lineEnd rest = true.
Proof.
  induction t as [|c t (g & rest & -> & Hg & Hr)].
  - exists [], []. repeat split. constructor.
  - destruct (isLineTerminator c) eqn:Ec.
    + exists [], (c :: g ++ rest). repeat split; [constructor|exact Ec].
    + exists (c :: g), rest. repeat split; [now constructor|exact Hr].
Qed.

Lemma heading_match_exact pre suf st :
  matchAt flagsM headingPattern pre suf = Some st ->
  lineStart pre = true /\
  exists g, suf = 35 :: g ++ after st /\
    Forall (fun c => isLineTerminator c = false) g /\
    lineEnd (after st) = true /\
    st = {| before := rev (35 :: g) ++ pre; after := after st;
            capture := Some (35 :: g) |}.
Proof.
  intros Hm.
  destruct (lineStart pre && headIs (N.eqb 35) suf) eqn:E;
    [|rewrite heading_none in Hm by exact E; discriminate].
  apply andb_true_iff in E as [Hpre Hs]. split; [exact Hpre|].
  destruct suf as [|c t]; [discriminate|]. cbn [headIs] in Hs.
  apply N.eqb_eq in Hs. subst c.
  destruct (line_span t) as (g & rest & -> & Hg & Hr).
  rewrite heading_some in Hm by assumption.
  injection Hm as <-. cbn [after]. exists g. now repeat split.
Qed.

Lemma bodyOK_nil sol : bodyOK sol [].
Proof. intros a b' H. destruct a; discriminate. Qed.

Lemma bodyOK_snoc sol (x : jsstr) c :
  bodyOK sol x -> (c = 35 -> solAfter sol x = false) ->
  bodyOK sol (x ++ [c]).
Proof.
  intros Hx Hc a b' Heq.
  destruct (exists_last (l := 35 :: b') ltac:(discriminate)) as (q & d & Hq).
  rewrite Hq in Heq. rewrite app_assoc in Heq.
  apply app_inj_tail in Heq as [Hxa <-].
  destruct b' as [|e b''].
  - destruct q as [|q0 q1]; cbn in Hq.
    + injection Hq as <-. rewrite app_nil_r in Hxa. subst a. now apply Hc.
    + injection Hq as _ Hq. destruct q1; discriminate.
  - destruct q as [|q0 q1]; cbn in Hq; [discriminate|].
    injection Hq as <- Hq. now apply (Hx a q1).
Qed.

Lemma splitLoop_wellSplit_out fuel : forall piece pre suf sol0,
  (length suf < fuel)%nat ->
  bodyOK sol0 (rev piece) ->
  solAfter sol0 (rev piece) = lineStart pre ->
  wellSplit sol0 (splitLoop fuel flagsM headingPattern piece pre suf).
Proof.
  induction fuel as [|fuel IH]; intros piece pre suf sol0 Hfuel Hok Hsol;
    [lia|].
  cbn [splitLoop]. destruct suf as [|c suf'].
  - now apply wellSplit_last.
  - destruct (matchAt flagsM headingPattern pre (c :: suf')) as [st|] eqn:Em.
    + destruct (heading_match_exact _ _ _ Em)
        as (Hpre & g & Hs & Hg & Hend & Hst).
      assert (Hlen : matchLen (c :: suf') st = S (length g)).
      { unfold matchLen. rewrite Hs at 1. cbn [length].
        rewrite length_app. lia. }
      assert (Hout : wellSplit sol0
                (rev piece :: [35 :: g] ++
                 splitLoop fuel flagsM headingPattern [] (before st)
                   (after st))).
      { cbn [app]. apply wellSplit_cons; try assumption.
        - now rewrite Hsol.
        - now rewrite splitLoop_join.
        - apply IH.
          + apply (f_equal (@length N)) in Hs. cbn [length] in Hs, Hfuel.
            rewrite length_app in Hs. lia.
          + apply bodyOK_nil.
          + rewrite Hst. cbn [before rev solAfter].
            symmetry. now apply lineStart_after_heading. }
      rewrite Hlen. replace (capture st) with (Some (35 :: g))
        by (rewrite Hst; reflexivity).
      destruct piece; exact Hout.
    + apply IH.
      * simpl in Hfuel. lia.
      * cbn [rev]. apply bodyOK_snoc; [exact Hok|].
        intros ->. rewrite Hsol.
        destruct (lineStart pre) eqn:Ep; [|reflexivity].
        exfalso. apply (heading_match_at_line_start pre suf'); [|exact Em].
        destruct pre as [|d pre']; [now left|right; exact Ep].
      * cbn [rev]. rewrite solAfter_app. reflexivity.
Qed.

Lemma split_is_wellSplit (content : jsstr) :
  wellSplit true (split flagsM headingPattern content).
Proof.
  unfold split. destruct content as [|c t].
  - cbv [matchAt]. apply wellSplit_last, bodyOK_nil.
  - apply splitLoop_wellSplit_out; [simpl; lia|apply bodyOK_nil|reflexivity].
Qed.

Lemma word_not_lineTerminator c :
  isWordChar c = true -> isLineTerminator c = false.
Proof.
  intros Hc. apply isWordChar_spec in Hc. unfold isLineTerminator.
  rewrite !orb_false_iff, !N.eqb_neq. lia.
Qed.

Lemma solAfter_words sol (m : jsstr) :
  m <> [] -> Forall (fun c => isWordChar c = true) m ->
  solAfter sol m = false.
Proof.
  intros Hne Hm. unfold solAfter.
  pose proof (headIs_rev_words m [] Hne Hm) as H. rewrite app_nil_r in H.
  destruct (rev m) as [|d q]; [discriminate|].
  now apply word_not_lineTerminator.
Qed.

Lemma solAfter_replacement sol (m : jsstr) :
  m <> [] -> Forall (fun c => isWordChar c = true) m ->
  solAfter sol (replacement s v m) = false.
Proof.
  intros Hne Hm. unfold replacement. destruct (wraps s v m).
  - rewrite app_assoc, solAfter_app, solAfter_app. reflexivity.
  - now apply solAfter_words.
Qed.

Lemma replacement_no_hash (m : jsstr) :
  Forall (fun c => isWordChar c = true) m ->
  Forall (fun c => c <> 35) (replacement s v m).
Proof.
  intros Hm.
  assert (Hm' : Forall (fun c => c <> 35) m).
  { eapply Forall_impl; [exact Hm|]. intros c Hc ->. discriminate. }
  unfold replacement. destruct (wraps s v m); [|exact Hm'].
  repeat (constructor; [discriminate|]).
  apply Forall_app. split; [exact Hm'|].
  repeat (constructor; [discriminate|]). constructor.
Qed.

Lemma bodyOK_mono (solT solO : bool) b :
  (solO = true -> solT = true) -> bodyOK solT b -> bodyOK solO b.
Proof.
  intros Himp Hb a b' Heq. specialize (Hb a b' Heq).
  destruct a as [|c a']; [|now rewrite solAfter_cons in *].
  cbn in *. destruct solO; [|reflexivity]. rewrite Himp in Hb; auto.
Qed.

Lemma bodyOK_shift sol (x b : jsstr) :
  bodyOK sol (x ++ b) -> bodyOK (solAfter sol x) b.
Proof.
  intros H a b' ->. rewrite <- solAfter_app. apply (H (x ++ a) b').
  now rewrite app_assoc.
Qed.

Lemma relink_nil w fuel pre :
  tokenWord w = true -> relink s v w fuel pre [] = [].
Proof.
  intros Hw. destruct fuel as [|fuel]; [reflexivity|].
  now rewrite relink_nonword.
Qed.

(** One turn of the loop on a match, with the match named. *)
Lemma relink_match w fuel pre suf :
  tokenWord w = true -> linkMatch w pre suf = true ->
  exists m r,
    suf = m ++ r /\ m <> [] /\ Forall (fun c => isWordChar c = true) m /\
    headIs isWordChar r = false /\
    relink s v w (S fuel) pre suf
    = replacement s v m ++ relink s v w fuel (rev m ++ pre) r.
Proof.
  intros Hw Hm.
  destruct (linkMatch_token_inv w pre suf Hw Hm)
    as (m & r & Hsuf & Hmf & Hlen & Hne & Hwm & _ & _ & Hr & _).
  exists m, r. repeat split; try assumption.
  rewrite relink_S by exact Hw. rewrite Hm, <- Hmf.
  replace (skipn (length w) suf) with r
    by (rewrite Hsuf, <- Hlen; now rewrite drop_app_length).
  reflexivity.
Qed.

Lemma relink_solAfter w : tokenWord w = true ->
  forall fuel pre suf sol,
    solAfter sol (relink s v w fuel pre suf) = solAfter sol suf.
Proof.
  intros Hw. induction fuel as [|fuel IH]; intros pre suf sol;
    [reflexivity|].
  destruct (linkMatch w pre suf) eqn:Em.
  - destruct (relink_match w fuel pre suf Hw Em)
      as (m & r & -> & Hne & Hwm & _ & ->).
    rewrite !solAfter_app, IH.
    rewrite (solAfter_replacement sol m), (solAfter_words sol m)
      by assumption.
    reflexivity.
  - rewrite relink_S, Em by exact Hw.
    destruct suf as [|c suf']; [reflexivity|].
    now rewrite !solAfter_cons, IH.
Qed.

Lemma relink_bodyOK w : tokenWord w = true ->
  forall fuel pre suf solT solO,
    (solO = true -> solT = true) ->
    bodyOK solT suf -> bodyOK solO (relink s v w fuel pre suf).
Proof.
  intros Hw. induction fuel as [|fuel IH];
    intros pre suf solT solO Himp Hok.
  - now apply (bodyOK_mono solT).
  - destruct (linkMatch w pre suf) eqn:Em.
    + destruct (relink_match w fuel pre suf Hw Em)
        as (m & r & -> & Hne & Hwm & _ & ->).
      assert (IH1 : bodyOK false (relink s v w fuel (rev m ++ pre) r)).
      { apply (IH _ _ false false); [auto|].
        rewrite <- (solAfter_words solT m Hne Hwm).
        now apply bodyOK_shift. }
      intros a b' Heq.
      apply app_eq_app in Heq as (l & [[Hrep Hb]|[-> Hb]]).
      * destruct l as [|l0 l1].
        -- rewrite app_nil_r in Hrep. subst a.
           now apply solAfter_replacement.
        -- cbn in Hb. injection Hb as <- _.
           pose proof (replacement_no_hash m Hwm) as Hno.
           rewrite Hrep in Hno. apply Forall_app in Hno as [_ Hno].
           inversion Hno; congruence.
      * rewrite solAfter_app, (solAfter_replacement solO m) by assumption.
        now apply (IH1 l b').
    + rewrite relink_S, Em by exact Hw.
      destruct suf as [|c suf']; [apply bodyOK_nil|].
      intros a b' Heq. destruct a as [|a0 a'].
      * cbn in Heq. injection Heq as -> _.
        specialize (Hok [] suf' eq_refl). cbn in Hok |- *.
        destruct solO; [|reflexivity]. rewrite Himp in Hok; auto.
      * cbn in Heq. injection Heq as <- Heq. rewrite solAfter_cons.
        apply bodyOK_tail in Hok.
        now apply (IH (c :: pre) suf' _ _ (fun H => H) Hok a' b').
Qed.

Lemma relink_no_hash_head w fuel pre suf :
  tokenWord w = true -> headIs (N.eqb 35) suf = false ->
  headIs (N.eqb 35) (relink s v w fuel pre suf) = false.
Proof.
  intros Hw Hs. destruct fuel as [|fuel]; [exact Hs|].
  destruct (linkMatch w pre suf) eqn:Em.
  - destruct (relink_match w fuel pre suf Hw Em)
      as (m & r & -> & Hne & Hwm & _ & ->).
    pose proof (replacement_no_hash m Hwm) as Hno.
    assert (Hrne : replacement s v m <> []).
    { unfold replacement. destruct (wraps s v m); [discriminate|exact Hne]. }
    destruct (replacement s v m) as [|d q]; [congruence|].
    cbn [app headIs]. inversion Hno; subst. now apply N.eqb_neq.
  - rewrite relink_S, Em by exact Hw. now destruct suf.
Qed.

Lemma relink_head_kept w fuel pre suf :
  tokenWord w = true -> headIs isWordChar suf = false ->
  hd_error (relink s v w fuel pre suf) = hd_error suf.
Proof.
  intros Hw Hs. destruct fuel as [|fuel]; [reflexivity|].
  rewrite relink_nonword by assumption. now destruct suf.
Qed.

(** What holds through every word's loop holds through the chunk's
    linking. *)
Lemma linkChunk_preserves (P : jsstr -> Prop) :
  (forall w fuel pre t, tokenWord w = true -> P t -> P (relink s v w fuel pre t)) ->
  forall ws t,
    Forall (fun w => tokenWord w = true) ws -> P t ->
    P (fold_left (linkWord s v) ws t).
Proof.
  intros Hstep ws. induction ws as [|w ws IH]; intros t Hws Ht;
    [exact Ht|].
  inversion Hws as [|? ? Hw Hws']; subst. cbn [fold_left].
  apply IH; [exact Hws'|]. rewrite linkWord_relink.
  destruct (isLinkable s w); [now apply Hstep|exact Ht].
Qed.

(** *** The sections of the output *)

Section Words.
Variable ws : list jsstr.
Hypothesis ws_tokens : Forall (fun w => tokenWord w = true) ws.

Lemma linkSections_body_cons flag b rest :
  headIs (N.eqb 35) b = false ->
  linkSections s v ws flag (b :: rest)
  = chunkLinked s v ws flag b :: linkSections s v ws flag rest.
Proof.
  intros Hb. cbn [linkSections]. rewrite startsWith_hash, Hb.
  unfold chunkLinked. now destruct (negb flag).
Qed.

Lemma chunkLinked_preserves (P : jsstr -> Prop) flag b :
  (forall w fuel pre t, tokenWord w = true -> P t -> P (relink s v w fuel pre t)) ->
  P b -> P (chunkLinked s v ws flag b).
Proof.
  intros Hstep Hb. unfold chunkLinked. destruct (negb flag); [|exact Hb].
  now apply linkChunk_preserves.
Qed.

Lemma chunkLinked_bodyOK flag sol b :
  bodyOK sol b -> bodyOK sol (chunkLinked s v ws flag b).
Proof.
  intros Hb. apply (chunkLinked_preserves (bodyOK sol)); [|exact Hb].
  intros w fuel pre t Hw Ht.
  now apply (relink_bodyOK w Hw fuel pre t sol sol).
Qed.

Lemma chunkLinked_solAfter flag sol b :
  solAfter sol (chunkLinked s v ws flag b) = solAfter sol b.
Proof.
  apply (chunkLinked_preserves (fun t => solAfter sol t = solAfter sol b));
    [|reflexivity].
  intros w fuel pre t Hw Ht. now rewrite relink_solAfter.
Qed.

Lemma chunkLinked_no_hash_head flag b :
  headIs (N.eqb 35) b = false ->
  headIs (N.eqb 35) (chunkLinked s v ws flag b) = false.
Proof.
  intros Hb.
  apply (chunkLinked_preserves (fun t => headIs (N.eqb 35) t = false));
    [|exact Hb].
  intros w fuel pre t Hw Ht. now apply relink_no_hash_head.
Qed.

Lemma chunkLinked_head_kept flag b :
  headIs isWordChar b = false ->
  hd_error (chunkLinked s v ws flag b) = hd_error b.
Proof.
  intros Hb.
  apply (chunkLinked_preserves
           (fun t => headIs isWordChar t = false /\ hd_error t = hd_error b));
    [|now split].
  intros w fuel pre t Hw [Ht1 Ht2]. split.
  - now apply relink_head_nonword.
  - now rewrite relink_head_kept.
Qed.

Lemma chunkLinked_idempotent flag b :
  chunkLinked s v ws flag (chunkLinked s v ws flag b) = chunkLinked s v ws flag b.
Proof.
  unfold chunkLinked. destruct (negb flag); [|reflexivity].
  now apply linkChunk_idempotent.
Qed.

(** A second pass over the section list changes nothing. *)
Lemma linkSections_idempotent : forall l flag,
  linkSections s v ws flag (linkSections s v ws flag l)
  = linkSections s v ws flag l.
Proof.
  induction l as [|sec rest IH]; intros flag; [reflexivity|].
  destruct (startsWith sec (str "#")) eqn:Eh.
  - cbn [linkSections]. rewrite Eh. cbn [linkSections]. rewrite Eh.
    now rewrite IH.
  - rewrite startsWith_hash in Eh.
    rewrite linkSections_body_cons by exact Eh.
    rewrite linkSections_body_cons by now apply chunkLinked_no_hash_head.
    now rewrite chunkLinked_idempotent, IH.
Qed.

Lemma lineEnd_firstIsBody l : lineEnd (join l) = true -> firstIsBody l.
Proof.
  destruct l as [|b rest]; [intros _; exact I|].
  destruct b as [|c b]; [reflexivity|].
  unfold join. cbn [concat app lineEnd firstIsBody headIs].
  intros Hc. apply N.eqb_neq. intros <-. discriminate.
Qed.

Lemma lineEnd_chunkLinked flag b (y y' : jsstr) :
  (b = [] -> lineEnd y = true -> lineEnd y' = true) ->
  lineEnd (b ++ y) = true -> lineEnd (chunkLinked s v ws flag b ++ y') = true.
Proof.
  intros Hy Hb. destruct b as [|c b'].
  - assert (Hnil : chunkLinked s v ws flag [] = []).
    { pose proof (chunkLinked_head_kept flag [] eq_refl) as H.
      now destruct (chunkLinked s v ws flag []). }
    rewrite Hnil. now apply Hy.
  - cbn [app lineEnd] in Hb.
    assert (Hc : headIs isWordChar (c :: b') = false).
    { cbn [headIs]. destruct (isWordChar c) eqn:Ec; [|reflexivity].
      apply word_not_lineTerminator in Ec. congruence. }
    pose proof (chunkLinked_head_kept flag _ Hc) as H.
    destruct (chunkLinked s v ws flag (c :: b')) as [|d q]; [discriminate|].
    cbn [hd_error] in H. injection H as ->. exact Hb.
Qed.

(** Linking the chunks of a section list keeps it a section list. *)
Lemma linkSections_wellSplit sol l :
  wellSplit sol l -> firstIsBody l ->
  forall flag,
    wellSplit sol (linkSections s v ws flag l) /\
    (lineEnd (join l) = true ->
     lineEnd (join (linkSections s v ws flag l)) = true).
Proof.
  induction 1 as [sol b Hb|sol b g l Hb Hsol Hg Hend Hl IH];
    intros Hfirst flag; cbn [firstIsBody] in Hfirst;
    rewrite linkSections_body_cons by exact Hfirst.
  - cbn [linkSections]. split.
    + apply wellSplit_last. now apply chunkLinked_bodyOK.
    + unfold join. cbn [concat]. now apply lineEnd_chunkLinked.
  - cbn [linkSections].
    replace (startsWith (35 :: g) (str "#")) with true
      by now rewrite startsWith_hash.
    set (flag' := existsb _ _).
    destruct (IH (lineEnd_firstIsBody _ Hend) flag') as [IHw IHe].
    split.
    + apply wellSplit_cons; try assumption.
      * now apply chunkLinked_bodyOK.
      * now rewrite chunkLinked_solAfter.
      * now apply IHe.
    + unfold join. cbn [concat]. apply lineEnd_chunkLinked.
      intros _ Hx. exact Hx.
Qed.

Lemma wellSplit_firstIsBody l : wellSplit true l -> firstIsBody l.
Proof.
  intros Hl.
  assert (Hb : forall b, bodyOK true b -> headIs (N.eqb 35) b = false).
  { intros [|c b] Hb; [reflexivity|]. cbn [headIs].
    apply N.eqb_neq. intros <-.
    now specialize (Hb [] b eq_refl). }
  destruct Hl; cbn [firstIsBody]; now apply Hb.
Qed.

(** Running the linker on its own output gives the output back. *)
Lemma linkWords_idempotent (content : jsstr) :
  linkWords s v (linkWords s v content ws) ws = linkWords s v content ws.
Proof.
  unfold linkWords.
  pose proof (split_is_wellSplit content) as Hl.
  destruct (linkSections_wellSplit true _ Hl (wellSplit_firstIsBody _ Hl) false)
    as [HL _].
  rewrite (split_wellSplit _ HL). now rewrite linkSections_idempotent.
Qed.

End Words.

End Relink.

(** A text in which a pattern matches nowhere is left as it is. *)
Lemma replaceLoop_no_match fl r repl fuel : forall pre suf,
  (forall a b, suf = a ++ b -> matchAt fl r (rev a ++ pre) b = None) ->
  replaceLoop fuel fl r repl pre suf = suf.
Proof.
  induction fuel as [|fuel IH]; intros pre suf H; [reflexivity|].
  cbn [replaceLoop]. pose proof (H [] suf eq_refl) as H0.
  cbn [rev app] in H0. rewrite H0.
  destruct suf as [|c suf]; [reflexivity|]. f_equal. apply IH.
  intros a b ->. specialize (H (c :: a) b eq_refl).
  cbn [rev] in H. now rewrite <- app_assoc in H.
Qed.

(** ** Terms without brackets, every match wrapped *)

Section PlainTerms.
Variables (s : AutoLinkerSettings) (v : Vault).
Hypothesis wrap_all : existingFilesOnly s = false.

Lemma plainTerm_spec w :
  plainTerm w = true <-> w <> [] /\ Forall (fun c => isBracket c = false) w.
Proof.
  unfold plainTerm. rewrite andb_true_iff, forallb_forall, Forall_forall.
  split; intros [Hne Hw]; (split; [now destruct w|]); intros c Hc.
  - apply negb_true_iff. apply Hw. now apply list_elem_of_In.
  - apply negb_true_iff. apply Hw. now apply list_elem_of_In.
Qed.

Lemma isBracket_spec c : isBracket c = true <-> c = 91 \/ c = 93.
Proof. unfold isBracket. now rewrite orb_true_iff, !N.eqb_eq. Qed.

Lemma tokenWord_plainTerm w : tokenWord w = true -> plainTerm w = true.
Proof.
  intros Hw. apply tokenWord_spec in Hw as [Hne Hw].
  apply plainTerm_spec. split; [exact Hne|].
  eapply Forall_impl; [exact Hw|]. intros c Hc.
  destruct (isBracket c) eqn:E; [|reflexivity].
  apply isBracket_spec in E as [-> | ->]; discriminate.
Qed.

(** A text that matches a bracket-free term holds no bracket. *)
Lemma matchesLit_plain w : forall t,
  Forall (fun c => isBracket c = false) w ->
  matchesLit flagsGI w t = true ->
  Forall (fun c => isBracket c = false) (firstn (length w) t).
Proof.
  induction w as [|c w IH]; intros t Hw Hm; [constructor|].
  destruct t as [|d t]; [discriminate|].
  cbn [matchesLit] in Hm. apply andb_true_iff in Hm as [Hc Hm].
  inversion Hw as [|? ? Hcw Hw']; subst.
  cbn [length firstn]. constructor; [|now apply IH].
  destruct (isBracket d) eqn:Ed; [|reflexivity].
  apply isBracket_spec in Ed. rewrite N.eqb_sym in Hc.
  rewrite canonicalize_bracket in Hc by exact Ed.
  apply N.eqb_eq in Hc. subst d. apply isBracket_spec in Ed. congruence.
Qed.

(** What a match amounts to, the matched text named. *)
Lemma linkMatch_parts w p (x y : jsstr) :
  w <> [] -> length x = length w ->
  linkMatch w p (x ++ y) =
  negb (startsWith p [91; 91]) &&
  xorb (headIs isWordChar p) (headIs isWordChar x) &&
  matchesLit flagsGI w x &&
  xorb (headIs isWordChar (rev x)) (headIs isWordChar y) &&
  negb (startsWith y [93; 93]).
Proof.
  intros Hne Hlen. unfold linkMatch.
  assert (Hx : x <> []) by (intros ->; destruct w; [congruence|discriminate]).
  assert (Hrx : rev x <> []).
  { intros E. apply Hx. apply (f_equal (@rev N)) in E.
    now rewrite rev_involutive in E. }
  rewrite <- Hlen, take_app_length, drop_app_length.
  rewrite (headIs_app _ x y Hx), (headIs_app _ (rev x) p Hrx).
  rewrite <- (app_nil_r x) at 3.
  now rewrite (matchesLit_prefix flagsGI w x y [] Hlen), app_nil_r.
Qed.

Lemma linkMatch_plain_inv w p b :
  plainTerm w = true -> linkMatch w p b = true ->
  exists x y,
    b = x ++ y /\ length x = length w /\ x <> [] /\
    Forall (fun c => isBracket c = false) x /\
    startsWith p [91; 91] = false /\
    xorb (headIs isWordChar p) (headIs isWordChar x) = true /\
    matchesLit flagsGI w x = true /\
    xorb (headIs isWordChar (rev x)) (headIs isWordChar y) = true /\
    startsWith y [93; 93] = false.
Proof.
  intros Hw Hm. apply plainTerm_spec in Hw as [Hne Hw].
  pose proof (linkMatch_matchesLit _ _ _ Hm) as Hlit.
  pose proof (matchesLit_firstn _ _ _ Hlit) as Hlen.
  pose proof (matchesLit_plain _ _ Hw Hlit) as Hplain.
  exists (firstn (length w) b), (skipn (length w) b).
  rewrite <- (firstn_skipn (length w) b) in Hm at 1.
  rewrite linkMatch_parts in Hm by assumption.
  repeat (apply andb_true_iff in Hm as [Hm ?]).
  apply negb_true_iff in Hm.
  repeat split; try assumption.
  - symmetry. apply firstn_skipn.
  - intros E. rewrite E in Hlen. destruct w; [congruence|discriminate].
  - now apply negb_true_iff.
Qed.

Lemma linkMatch_nil w p : w <> [] -> linkMatch w p [] = false.
Proof.
  intros Hne. unfold linkMatch. rewrite matchesLit_nil by exact Hne.
  now rewrite andb_false_r.
Qed.

Lemma linkMatch_bracket w p b :
  plainTerm w = true -> headIs isBracket b = true -> linkMatch w p b = false.
Proof.
  intros Hw Hb. apply not_true_is_false. intros Hm.
  destruct (linkMatch_plain_inv w p b Hw Hm)
    as (x & y & -> & _ & Hx & Hpl & _).
  destruct x as [|c x]; [congruence|]. cbn [app headIs] in Hb.
  inversion Hpl; congruence.
Qed.

Lemma relink_plain_S w fuel pre suf :
  w <> [] ->
  relink s v w (S fuel) pre suf =
  if linkMatch w pre suf
  then ([91; 91] ++ firstn (length w) suf ++ [93; 93]) ++
       relink s v w fuel (rev (firstn (length w) suf) ++ pre)
         (skipn (length w) suf)
  else match suf with
       | [] => []
       | c :: suf' => c :: relink s v w fuel (c :: pre) suf'
       end.
Proof.
  intros Hne. unfold relink. rewrite replaceLoop_link by exact Hne.
  rewrite wrapMatch_wraps. unfold wraps. rewrite wrap_all. reflexivity.
Qed.

Lemma noMatch_shift w' pre x text :
  noMatch w' pre (x ++ text) -> noMatch w' (rev x ++ pre) text.
Proof.
  intros H a b ->. specialize (H (x ++ a) b).
  rewrite rev_app_distr in H. rewrite <- (app_assoc (rev a)) in H.
  apply H. now rewrite app_assoc.
Qed.

Lemma noMatch_nil w' pre : w' <> [] -> noMatch w' pre [].
Proof.
  intros Hw a b Hab. symmetry in Hab. apply app_eq_nil in Hab as [-> ->].
  now apply linkMatch_nil.
Qed.

(** A text in which the pattern matches nowhere is left as it is. *)
Lemma relink_fixed w fuel pre suf :
  noMatch w pre suf -> relink s v w fuel pre suf = suf.
Proof.
  intros H. unfold relink. apply replaceLoop_no_match.
  intros a b Hab. rewrite matchAt_linkPattern. now rewrite (H a b Hab).
Qed.

Lemma relink_plain_prefix w : w <> [] -> forall x fuel pre suf O',
  (length suf < fuel)%nat ->
  relink s v w fuel pre suf = x ++ O' ->
  Forall (fun c => isBracket c = false) x ->
  exists s2, suf = x ++ s2 /\
    O' = relink s v w (fuel - length x) (rev x ++ pre) s2.
Proof.
  intros Hne. induction x as [|c x IH]; intros fuel pre suf O' Hfuel HO Hx.
  - exists suf. cbn. rewrite Nat.sub_0_r. split; [reflexivity|now symmetry].
  - destruct fuel as [|fuel]; [lia|].
    rewrite relink_plain_S in HO by exact Hne.
    inversion Hx as [|? ? Hc Hx']; subst.
    destruct (linkMatch w pre suf).
    + cbn [app] in HO. injection HO as <- _. discriminate Hc.
    + destruct suf as [|d suf']; [discriminate|].
      cbn [app] in HO. injection HO as -> HO.
      destruct (IH fuel (c :: pre) suf' O') as (s2 & -> & ->);
        [simpl in Hfuel; lia|exact HO|exact Hx'|].
      exists s2. split; [reflexivity|].
      cbn [length Nat.sub rev]. now rewrite <- app_assoc.
Qed.

(** The boundary after a match of the output is one of the input. *)
Lemma relink_boundary w fuel p s2 (h : bool) :
  w <> [] -> headIs isWordChar p = h ->
  xorb h (headIs isWordChar (relink s v w (S fuel) p s2)) = true ->
  xorb h (headIs isWordChar s2) = true.
Proof.
  intros Hne Hp. rewrite relink_plain_S by exact Hne.
  destruct (linkMatch w p s2) eqn:Em.
  - cbn [app headIs]. change (isWordChar 91) with false.
    intros Hh. unfold linkMatch in Em.
    repeat (apply andb_true_iff in Em as [Em ?]).
    now rewrite <- Hp.
  - now destruct s2.
Qed.

Lemma relink_plain_close w fuel p s2 :
  plainTerm w = true -> (length s2 < fuel)%nat ->
  startsWith s2 [93; 93] = true ->
  startsWith (relink s v w fuel p s2) [93; 93] = true.
Proof.
  intros Hw Hfuel Hs. pose proof (proj1 (plainTerm_spec w) Hw) as [Hne _].
  apply startsWith_prefix in Hs as (t & ->).
  destruct fuel as [|[|fuel]]; [simpl in Hfuel; lia|simpl in Hfuel; lia|].
  cbn [app]. rewrite relink_plain_S by exact Hne.
  rewrite linkMatch_bracket by (exact Hw || reflexivity).
  rewrite relink_plain_S by exact Hne.
  rewrite linkMatch_bracket by (exact Hw || reflexivity).
  apply startsWith_prefix. eexists. reflexivity.
Qed.

Lemma plain_prefix (x : jsstr) : forall (y m2 z : jsstr) c,
  x ++ y = m2 ++ c :: z -> isBracket c = true ->
  Forall (fun d => isBracket d = false) x ->
  exists t, m2 = x ++ t /\ y = t ++ c :: z.
Proof.
  induction x as [|d x IH]; intros y m2 z c Heq Hc Hx.
  - exists m2. split; [reflexivity|exact Heq].
  - inversion Hx as [|? ? Hd Hx']; subst. destruct m2 as [|e m2].
    + cbn [app] in Heq. injection Heq as -> _. congruence.
    + cbn [app] in Heq. injection Heq as -> Heq.
      destruct (IH y m2 z c Heq Hc Hx') as (t & -> & ->).
      now exists t.
Qed.

(** Where a position of the output falls, when the output starts with a
    wrapped match. *)
Lemma split_wrapped_plain (m O1 a b : jsstr) :
  ([91; 91] ++ m ++ [93; 93]) ++ O1 = a ++ b ->
  (exists a', a = ([91; 91] ++ m ++ [93; 93]) ++ a' /\ O1 = a' ++ b) \/
  headIs isBracket b = true \/
  a = [91; 91] \/
  (exists a' m2, a' <> [] /\ m2 <> [] /\ m = a' ++ m2 /\
     a = [91; 91] ++ a' /\ b = m2 ++ [93; 93] ++ O1).
Proof.
  intros Hab. destruct a as [|a0 [|a1 a2]].
  - right; left. cbn in Hab. now subst b.
  - right; left. cbn in Hab. injection Hab as _ Hab. now subst b.
  - cbn [app] in Hab. injection Hab as <- <- Hab.
    rewrite <- app_assoc in Hab.
    apply app_eq_app in Hab as (l & [[Hm2 Hb]|[Ha2 Hb]]).
    + destruct a2 as [|a3 a4]; [right; right; now left|].
      destruct l as [|l0 l1].
      * right; left. cbn in Hb. now subst b.
      * right; right; right. exists (a3 :: a4), (l0 :: l1).
        repeat split; try discriminate; assumption.
    + destruct l as [|l0 [|l1 l2]].
      * right; left. cbn in Hb. now subst b.
      * right; left. cbn in Hb. injection Hb as _ Hb. now subst b.
      * left. cbn in Hb. injection Hb as <- <- Hb. exists l2.
        split; [|exact Hb]. subst a2. cbn. now rewrite <- !app_assoc.
Qed.

Lemma headIs_rev_app (p : N -> bool) (x z : jsstr) :
  x <> [] -> headIs p (rev x ++ z) = headIs p (rev x).
Proof.
  intros Hx. apply headIs_app. intros E. apply Hx.
  apply (f_equal (@rev N)) in E. now rewrite rev_involutive in E.
Qed.

Lemma plain_last_not_open (x z : jsstr) :
  x <> [] -> Forall (fun c => isBracket c = false) x ->
  headIs (N.eqb 91) (rev x ++ z) = false /\
  startsWith (rev x ++ z) [91; 91] = false /\
  headIs isBracket (rev x ++ z) = false.
Proof.
  intros Hx Hpl. destruct (rev x) as [|d q] eqn:E.
  - exfalso. apply Hx. apply (f_equal (@rev N)) in E.
    now rewrite rev_involutive in E.
  - assert (Hd : isBracket d = false).
    { rewrite Forall_forall in Hpl. apply Hpl.
      apply list_elem_of_In, in_rev. rewrite E. now left. }
    cbn [app headIs]. rewrite startsWith_two. pose proof Hd as Hd'.
    unfold isBracket in Hd'. apply orb_false_iff in Hd' as [Hd' _].
    rewrite N.eqb_sym in Hd'. rewrite Hd'. now repeat split.
Qed.

Lemma plain_head_not_close (x z : jsstr) :
  x <> [] -> Forall (fun c => isBracket c = false) x ->
  startsWith (x ++ z) [93; 93] = false.
Proof.
  intros Hx Hpl. destruct x as [|d x]; [congruence|].
  inversion Hpl as [|? ? Hd _]; subst. cbn [app startsWith].
  unfold isBracket in Hd. apply orb_false_iff in Hd as [_ Hd].
  rewrite N.eqb_sym in Hd. now rewrite Hd.
Qed.

Lemma ctxPlain_copy pre preO c suf' :
  ctxPlain pre preO (c :: suf') -> ctxSame (c :: pre) (c :: preO).
Proof.
  intros Hrel. split; [reflexivity|]. rewrite !startsWith_two.
  intros H. apply andb_true_iff in H as [Hc Hp]. rewrite Hc. cbn [andb].
  destruct Hrel as [[Hhd _]|(_ & _ & Hw & _)].
  - now rewrite <- (headIs_hd _ _ _ Hhd).
  - congruence.
Qed.

(** A run of [w] does not make an occurrence of [w'] a match: the output
    has none if the input had none, and it has none of [w] itself. *)
Lemma relink_noMatch w w' :
  plainTerm w = true -> plainTerm w' = true ->
  forall fuel pre suf preO,
    (length suf < fuel)%nat ->
    ctxPlain pre preO suf ->
    w' = w \/ noMatch w' pre suf ->
    noMatch w' preO (relink s v w fuel pre suf).
Proof.
  intros Hw Hw'.
  pose proof (proj1 (plainTerm_spec w) Hw) as [Hne Hwpl].
  pose proof (proj1 (plainTerm_spec w') Hw') as [Hne' Hwpl'].
  induction fuel as [|fuel IH]; intros pre suf preO Hfuel Hrel Hhyp; [lia|].
  rewrite relink_plain_S by exact Hne.
  destruct (linkMatch w pre suf) eqn:Em.
  - (* the word matches at this position *)
    destruct (linkMatch_plain_inv w pre suf Hw Em)
      as (m & r & -> & Hlen & Hmne & Hmpl & Hopen & Hb1 & Hlit & Hb2 & Hclose).
    rewrite <- Hlen, take_app_length, drop_app_length.
    set (O1 := relink s v w fuel (rev m ++ pre) r).
    assert (IH1 : noMatch w' (rev ([91; 91] ++ m ++ [93; 93]) ++ preO) O1).
    { apply IH.
      - rewrite length_app in Hfuel. destruct m; [congruence|].
        simpl in Hfuel. lia.
      - right. rewrite !rev_app_distr. cbn [rev app].
        destruct (plain_last_not_open m pre Hmne Hmpl) as (H1 & _ & _).
        repeat split; try reflexivity; try assumption.
        now rewrite headIs_rev_app.
      - destruct Hhyp as [->|Hno]; [now left|right].
        now apply noMatch_shift. }
    intros a b Hab.
    destruct (split_wrapped_plain m O1 a b Hab)
      as [(a' & -> & HO)|[Hx|[->|(a' & m2 & Ha' & Hm2 & -> & -> & ->)]]].
    + specialize (IH1 a' b HO).
      now rewrite rev_app_distr, <- app_assoc.
    + now apply linkMatch_bracket.
    + unfold linkMatch.
      change (rev [91; 91] ++ preO) with (91 :: 91 :: preO).
      rewrite startsWith_two. reflexivity.
    + apply not_true_is_false. intros Hmb.
      destruct (linkMatch_plain_inv w' _ _ Hw' Hmb)
        as (x & y & Hxy & Hlenx & Hxne & Hxpl & _ & Hc2 & Hc3 & Hc4 & Hc5).
      apply Forall_app in Hmpl as [Hapl Hm2pl].
      destruct (plain_prefix x y m2 _ 93 (eq_sym Hxy) eq_refl Hxpl)
        as (t & -> & ->).
      destruct t as [|t0 t1].
      { cbn [app startsWith] in Hc5.
        rewrite !N.eqb_refl, startsWith_nil in Hc5. discriminate Hc5. }
      assert (Hin : linkMatch w' (rev a' ++ pre)
                      (x ++ (t0 :: t1) ++ r) = true).
      { rewrite linkMatch_parts by assumption.
        destruct (plain_last_not_open a' pre Ha' Hapl) as (_ & H2 & _).
        rewrite H2, Hc3. cbn [negb andb].
        rewrite rev_app_distr, <- app_assoc in Hc2.
        rewrite headIs_rev_app in Hc2 |- * by exact Ha'.
        rewrite Hc2. cbn [andb]. cbn [app headIs] in Hc4 |- *.
        rewrite Hc4. cbn [andb].
        apply Forall_app in Hm2pl as [_ Htpl].
        change (t0 :: t1 ++ r) with ((t0 :: t1) ++ r).
        now rewrite plain_head_not_close. }
      destruct Hhyp as [->|Hno].
      * rewrite !length_app in Hlen. destruct a'; [congruence|].
        simpl in Hlen. lia.
      * rewrite (Hno a' (x ++ (t0 :: t1) ++ r)) in Hin; [discriminate|].
        now rewrite <- !app_assoc.
  - (* no match: the unit is copied *)
    destruct suf as [|c suf']; [now apply noMatch_nil|].
    assert (IH1 : noMatch w' (c :: preO) (relink s v w fuel (c :: pre) suf')).
    { apply IH; [simpl in Hfuel; lia|left; eapply ctxPlain_copy; eauto|].
      destruct Hhyp as [->|Hno]; [now left|right].
      now apply (noMatch_shift w' pre [c]). }
    intros a b Hab. destruct a as [|a0 a'].
    + cbn [app rev] in Hab |- *. subst b.
      apply not_true_is_false. intros Hmb.
      destruct (linkMatch_plain_inv w' _ _ Hw' Hmb)
        as (x & y & Hxy & Hlenx & Hxne & Hxpl & Hc1 & Hc2 & Hc3 & Hc4 & Hc5).
      assert (HO : relink s v w (S fuel) pre (c :: suf') = x ++ y).
      { rewrite relink_plain_S by exact Hne. now rewrite Em. }
      destruct (relink_plain_prefix w Hne x (S fuel) pre (c :: suf') y
                  Hfuel HO Hxpl) as (s2 & Hs & Hy).
      assert (Hf2 : (length s2 < S fuel - length x)%nat).
      { rewrite Hs, length_app in Hfuel. lia. }
      assert (Hin : linkMatch w' pre (x ++ s2) = true).
      { rewrite linkMatch_parts by assumption. rewrite Hc3.
        assert (Hopen : startsWith pre [91; 91] = false).
        { destruct Hrel as [[_ Ho]|(_ & _ & Ho & _)].
          - destruct (startsWith pre [91; 91]); [|reflexivity].
            rewrite Ho in Hc1; [discriminate|reflexivity].
          - destruct pre as [|d pre']; [reflexivity|].
            rewrite startsWith_two. cbn [headIs] in Ho. now rewrite Ho. }
        assert (Hstart : xorb (headIs isWordChar pre) (headIs isWordChar x)
                         = true).
        { destruct Hrel as [[Hhd _]|(Ho & _ & _ & Hb)].
          - now rewrite (headIs_hd _ _ _ Hhd).
          - rewrite Ho in Hc2. cbn [xorb] in Hc2.
            rewrite Hs, (headIs_app _ x s2 Hxne), Hc2 in Hb.
            rewrite Hc2. exact Hb. }
        rewrite Hopen, Hstart. cbn [negb andb].
        remember (S fuel - length x)%nat as f2 eqn:Ef2.
        destruct f2 as [|f2]; [lia|].
        assert (Hend : xorb (headIs isWordChar (rev x))
                         (headIs isWordChar s2) = true).
        { apply (relink_boundary w f2 (rev x ++ pre)); [exact Hne| |].
          - now apply headIs_rev_app.
          - now rewrite <- Hy. }
        rewrite Hend. cbn [andb].
        destruct (startsWith s2 [93; 93]) eqn:Ecl; [|reflexivity].
        rewrite Hy, relink_plain_close in Hc5; [discriminate|exact Hw| |exact Ecl].
        lia. }
      rewrite <- Hs in Hin.
      destruct Hhyp as [->|Hno]; [congruence|].
      pose proof (Hno [] (c :: suf') eq_refl) as H0.
      cbn [rev app] in H0. congruence.
    + cbn [app] in Hab. injection Hab as <- Hab.
      specialize (IH1 a' b Hab).
      cbn [rev]. now rewrite <- app_assoc.
Qed.

(** *** All the terms of one run *)

Lemma linkChunk_noMatch (ws : list jsstr) (text : jsstr) :
  Forall (fun w => plainTerm w = true) ws ->
  forall w, w ∈ ws -> isLinkable s w = true ->
    noMatch w [] (fold_left (linkWord s v) ws text).
Proof.
  induction ws as [|w1 ws0 IH] using rev_ind; intros Hws w Hin Hl.
  - inversion Hin.
  - apply Forall_app in Hws as [Hws0 Hw1].
    inversion Hw1 as [|? ? Hw1t _]; subst.
    rewrite fold_left_app. cbn [fold_left]. rewrite linkWord_relink.
    apply elem_of_app in Hin as [Hin|Hin].
    + destruct (isLinkable s w1); [|now apply IH].
      pose proof (proj1 (Forall_forall _ _) Hws0 w Hin) as Hwt.
      apply relink_noMatch; [exact Hw1t|exact Hwt|lia| |].
      * left. split; [reflexivity|auto].
      * right. now apply IH.
    + apply list_elem_of_singleton in Hin. subst w1. rewrite Hl.
      apply relink_noMatch; [exact Hw1t|exact Hw1t|lia| |now left].
      left. split; [reflexivity|auto].
Qed.

Lemma linkChunk_fixed_plain (ws : list jsstr) (text : jsstr) :
  (forall w, w ∈ ws -> isLinkable s w = true -> noMatch w [] text) ->
  fold_left (linkWord s v) ws text = text.
Proof.
  induction ws as [|w ws IH]; intros Hno; [reflexivity|].
  cbn [fold_left].
  assert (Hstep : linkWord s v text w = text).
  { rewrite linkWord_relink. destruct (isLinkable s w) eqn:El; [|reflexivity].
    apply relink_fixed. apply Hno; [now left|exact El]. }
  rewrite Hstep. apply IH. intros w' Hin. apply Hno. now right.
Qed.

(** Linking a chunk a second time changes nothing. *)
Lemma linkChunk_idempotent_plain (ws : list jsstr) (text : jsstr) :
  Forall (fun w => plainTerm w = true) ws ->
  fold_left (linkWord s v) ws (fold_left (linkWord s v) ws text)
  = fold_left (linkWord s v) ws text.
Proof.
  intros Hws. apply linkChunk_fixed_plain.
  intros w Hin Hl. now apply linkChunk_noMatch.
Qed.

(** *** Headings survive a run of such terms *)

Lemma bodyOK_prefix sol (x y : jsstr) : bodyOK sol (x ++ y) -> bodyOK sol x.
Proof.
  intros H a b' ->. apply (H a (b' ++ y)). now rewrite <- app_assoc.
Qed.

Lemma bodyOK_app sol (x y : jsstr) :
  bodyOK sol x -> bodyOK (solAfter sol x) y -> bodyOK sol (x ++ y).
Proof.
  intros Hx Hy a b' Heq.
  apply app_eq_app in Heq as (l & [[Hxa Hb]|[-> Hb]]).
  - destruct l as [|l0 l1].
    + rewrite app_nil_r in Hxa. subst a. cbn [app] in Hb.
      exact (Hy [] b' (eq_sym Hb)).
    + cbn [app] in Hb. injection Hb as <- _. now apply (Hx a l1).
  - rewrite solAfter_app. now apply (Hy l b').
Qed.

Lemma bodyOK_no_hash sol (x : jsstr) :
  Forall (fun c => c <> 35) x -> bodyOK sol x.
Proof.
  intros Hx a b' ->. apply Forall_app in Hx as [_ Hx].
  inversion Hx; congruence.
Qed.

Lemma solAfter_nonempty sol sol' (r : jsstr) :
  r <> [] -> solAfter sol r = solAfter sol' r.
Proof.
  intros Hr. unfold solAfter. destruct (rev r) as [|d q] eqn:E;
    [|reflexivity].
  exfalso. apply Hr. apply (f_equal (@rev N)) in E.
  now rewrite rev_involutive in E.
Qed.

Lemma solAfter_wrapped sol (m : jsstr) :
  solAfter sol ([91; 91] ++ m ++ [93; 93]) = false.
Proof. now rewrite app_assoc, solAfter_app. Qed.

(** One turn of the loop on a match, with the match named. *)
Lemma relink_plain_match w fuel pre suf :
  plainTerm w = true -> linkMatch w pre suf = true ->
  exists m r,
    suf = m ++ r /\ m <> [] /\
    xorb (headIs isWordChar (rev m)) (headIs isWordChar r) = true /\
    relink s v w (S fuel) pre suf
    = ([91; 91] ++ m ++ [93; 93]) ++ relink s v w fuel (rev m ++ pre) r.
Proof.
  intros Hw Hm. pose proof (proj1 (plainTerm_spec w) Hw) as [Hne _].
  destruct (linkMatch_plain_inv w pre suf Hw Hm)
    as (m & r & -> & Hlen & Hmne & _ & _ & _ & _ & Hb2 & _).
  exists m, r. repeat split; try assumption.
  rewrite relink_plain_S, Hm by exact Hne.
  now rewrite <- Hlen, take_app_length, drop_app_length.
Qed.

Lemma relink_plain_solAfter w : plainTerm w = true ->
  forall fuel pre suf sol,
    solAfter sol (relink s v w fuel pre suf) = solAfter sol suf.
Proof.
  intros Hw. pose proof (proj1 (plainTerm_spec w) Hw) as [Hne _].
  induction fuel as [|fuel IH]; intros pre suf sol; [reflexivity|].
  destruct (linkMatch w pre suf) eqn:Em.
  - destruct (relink_plain_match w fuel pre suf Hw Em)
      as (m & r & -> & Hmne & Hb2 & ->).
    rewrite (solAfter_app sol ([91; 91] ++ m ++ [93; 93])), solAfter_wrapped.
    rewrite IH, (solAfter_app sol m).
    destruct r as [|r0 r1]; [|now apply solAfter_nonempty].
    cbn [headIs] in Hb2. rewrite xorb_false_r in Hb2.
    unfold solAfter at 2. cbn [rev].
    unfold solAfter. destruct (rev m) as [|d q]; [discriminate|].
    cbn [headIs] in Hb2. symmetry. now apply word_not_lineTerminator.
  - rewrite relink_plain_S, Em by exact Hne.
    destruct suf as [|c suf']; [reflexivity|].
    now rewrite !solAfter_cons, IH.
Qed.

Lemma relink_plain_bodyOK w : plainTerm w = true ->
  forall fuel pre suf solT solO,
    (solO = true -> solT = true) ->
    bodyOK solT suf -> bodyOK solO (relink s v w fuel pre suf).
Proof.
  intros Hw. pose proof (proj1 (plainTerm_spec w) Hw) as [Hne _].
  induction fuel as [|fuel IH]; intros pre suf solT solO Himp Hok.
  - now apply (bodyOK_mono solT).
  - destruct (linkMatch w pre suf) eqn:Em.
    + destruct (relink_plain_match w fuel pre suf Hw Em)
        as (m & r & -> & Hmne & _ & ->).
      apply bodyOK_app.
      * apply bodyOK_app;
          [apply bodyOK_no_hash; repeat constructor; discriminate|].
        apply bodyOK_app.
        -- apply (bodyOK_mono solT); [discriminate|].
           now apply (bodyOK_prefix _ m r).
        -- apply bodyOK_no_hash; repeat constructor; discriminate.
      * rewrite solAfter_wrapped.
        apply (IH _ _ (solAfter solT m) false); [discriminate|].
        now apply bodyOK_shift.
    + rewrite relink_plain_S, Em by exact Hne.
      destruct suf as [|c suf']; [apply bodyOK_nil|].
      intros a b' Heq. destruct a as [|a0 a'].
      * cbn in Heq. injection Heq as -> _.
        specialize (Hok [] suf' eq_refl). cbn in Hok |- *.
        destruct solO; [|reflexivity]. rewrite Himp in Hok; auto.
      * cbn in Heq. injection Heq as <- Heq. rewrite solAfter_cons.
        apply bodyOK_tail in Hok.
        now apply (IH (c :: pre) suf' _ _ (fun H => H) Hok a' b').
Qed.

Lemma relink_plain_no_hash_head w fuel pre suf :
  plainTerm w = true -> headIs (N.eqb 35) suf = false ->
  headIs (N.eqb 35) (relink s v w fuel pre suf) = false.
Proof.
  intros Hw Hs. pose proof (proj1 (plainTerm_spec w) Hw) as [Hne _].
  destruct fuel as [|fuel]; [exact Hs|].
  rewrite relink_plain_S by exact Hne.
  destruct (linkMatch w pre suf); [reflexivity|]. now destruct suf.
Qed.

(** A pass starts at the head of the chunk: a head that is no word
    character stays where it is. *)
Lemma relink_plain_head_kept w fuel suf :
  plainTerm w = true -> headIs isWordChar suf = false ->
  hd_error (relink s v w fuel [] suf) = hd_error suf.
Proof.
  intros Hw Hs. pose proof (proj1 (plainTerm_spec w) Hw) as [Hne _].
  destruct fuel as [|fuel]; [reflexivity|].
  rewrite relink_plain_S by exact Hne.
  assert (Em : linkMatch w [] suf = false).
  { unfold linkMatch. cbn [headIs startsWith negb]. rewrite Hs.
    reflexivity. }
  rewrite Em. now destruct suf.
Qed.

(** What holds through every term's pass holds through the chunk's
    linking. *)
Lemma linkChunk_preserves_plain (P : jsstr -> Prop) :
  (forall w t, plainTerm w = true -> P t ->
     P (relink s v w (S (length t)) [] t)) ->
  forall ws t,
    Forall (fun w => plainTerm w = true) ws -> P t ->
    P (fold_left (linkWord s v) ws t).
Proof.
  intros Hstep ws. induction ws as [|w ws IH]; intros t Hws Ht;
    [exact Ht|].
  inversion Hws as [|? ? Hw Hws']; subst. cbn [fold_left].
  apply IH; [exact Hws'|]. rewrite linkWord_relink.
  destruct (isLinkable s w); [now apply Hstep|exact Ht].
Qed.

(** *** The sections of the output *)

Section PlainWords.
Variable ws : list jsstr.
Hypothesis ws_plain : Forall (fun w => plainTerm w = true) ws.

Lemma chunkLinked_preserves_plain (P : jsstr -> Prop) flag b :
  (forall w t, plainTerm w = true -> P t ->
     P (relink s v w (S (length t)) [] t)) ->
  P b -> P (chunkLinked s v ws flag b).
Proof.
  intros Hstep Hb. unfold chunkLinked. destruct (negb flag); [|exact Hb].
  now apply linkChunk_preserves_plain.
Qed.

Lemma chunkLinked_plain_bodyOK flag sol b :
  bodyOK sol b -> bodyOK sol (chunkLinked s v ws flag b).
Proof.
  intros Hb. apply (chunkLinked_preserves_plain (bodyOK sol)); [|exact Hb].
  intros w t Hw Ht.
  now apply (relink_plain_bodyOK w Hw _ [] t sol sol).
Qed.

Lemma chunkLinked_plain_solAfter flag sol b :
  solAfter sol (chunkLinked s v ws flag b) = solAfter sol b.
Proof.
  apply (chunkLinked_preserves_plain
           (fun t => solAfter sol t = solAfter sol b)); [|reflexivity].
  intros w t Hw Ht. now rewrite relink_plain_solAfter.
Qed.

Lemma chunkLinked_plain_no_hash_head flag b :
  headIs (N.eqb 35) b = false ->
  headIs (N.eqb 35) (chunkLinked s v ws flag b) = false.
Proof.
  intros Hb.
  apply (chunkLinked_preserves_plain
           (fun t => headIs (N.eqb 35) t = false)); [|exact Hb].
  intros w t Hw Ht. now apply relink_plain_no_hash_head.
Qed.

Lemma chunkLinked_plain_head_kept flag b :
  headIs isWordChar b = false ->
  hd_error (chunkLinked s v ws flag b) = hd_error b.
Proof.
  intros Hb.
  apply (chunkLinked_preserves_plain
           (fun t => headIs isWordChar t = false /\ hd_error t = hd_error b));
    [|now split].
  intros w t Hw [Ht1 Ht2].
  pose proof (relink_plain_head_kept w (S (length t)) t Hw Ht1) as Hk.
  split; [|congruence].
  rewrite (headIs_hd _ _ _ Hk). exact Ht1.
Qed.

Lemma chunkLinked_plain_idempotent flag b :
  chunkLinked s v ws flag (chunkLinked s v ws flag b)
  = chunkLinked s v ws flag b.
Proof.
  unfold chunkLinked. destruct (negb flag); [|reflexivity].
  now apply linkChunk_idempotent_plain.
Qed.

(** A second pass over the section list changes nothing. *)
Lemma linkSections_idempotent_plain : forall l flag,
  linkSections s v ws flag (linkSections s v ws flag l)
  = linkSections s v ws flag l.
Proof.
  induction l as [|sec rest IH]; intros flag; [reflexivity|].
  destruct (startsWith sec (str "#")) eqn:Eh.
  - cbn [linkSections]. rewrite Eh. cbn [linkSections]. rewrite Eh.
    now rewrite IH.
  - rewrite startsWith_hash in Eh.
    rewrite linkSections_body_cons by exact Eh.
    rewrite linkSections_body_cons
      by now apply chunkLinked_plain_no_hash_head.
    now rewrite chunkLinked_plain_idempotent, IH.
Qed.

Lemma lineEnd_chunkLinked_plain flag b (y y' : jsstr) :
  (b = [] -> lineEnd y = true -> lineEnd y' = true) ->
  lineEnd (b ++ y) = true -> lineEnd (chunkLinked s v ws flag b ++ y') = true.
Proof.
  intros Hy Hb. destruct b as [|c b'].
  - assert (Hnil : chunkLinked s v ws flag [] = []).
    { pose proof (chunkLinked_plain_head_kept flag [] eq_refl) as H.
      now destruct (chunkLinked s v ws flag []). }
    rewrite Hnil. now apply Hy.
  - cbn [app lineEnd] in Hb.
    assert (Hc : headIs isWordChar (c :: b') = false).
    { cbn [headIs]. destruct (isWordChar c) eqn:Ec; [|reflexivity].
      apply word_not_lineTerminator in Ec. congruence. }
    pose proof (chunkLinked_plain_head_kept flag _ Hc) as H.
    destruct (chunkLinked s v ws flag (c :: b')) as [|d q]; [discriminate|].
    cbn [hd_error] in H. injection H as ->. exact Hb.
Qed.

(** Linking the chunks of a section list keeps it a section list. *)
Lemma linkSections_wellSplit_plain sol l :
  wellSplit sol l -> firstIsBody l ->
  forall flag,
    wellSplit sol (linkSections s v ws flag l) /\
    (lineEnd (join l) = true ->
     lineEnd (join (linkSections s v ws flag l)) = true).
Proof.
  induction 1 as [sol b Hb|sol b g l Hb Hsol Hg Hend Hl IH];
    intros Hfirst flag; cbn [firstIsBody] in Hfirst;
    rewrite linkSections_body_cons by exact Hfirst.
  - cbn [linkSections]. split.
    + apply wellSplit_last. now apply chunkLinked_plain_bodyOK.
    + unfold join. cbn [concat]. now apply lineEnd_chunkLinked_plain.
  - cbn [linkSections].
    replace (startsWith (35 :: g) (str "#")) with true
      by now rewrite startsWith_hash.
    set (flag' := existsb _ _).
    destruct (IH (lineEnd_firstIsBody _ Hend) flag') as [IHw IHe].
    split.
    + apply wellSplit_cons; try assumption.
      * now apply chunkLinked_plain_bodyOK.
      * now rewrite chunkLinked_plain_solAfter.
      * now apply IHe.
    + unfold join. cbn [concat]. apply lineEnd_chunkLinked_plain.
      intros _ Hx. exact Hx.
Qed.

(** Running the linker on its own output gives the output back. *)
Lemma linkWords_idempotent_plain (content : jsstr) :
  linkWords s v (linkWords s v content ws) ws = linkWords s v content ws.
Proof.
  unfold linkWords.
  pose proof (split_is_wellSplit content) as Hl.
  destruct (linkSections_wellSplit_plain true _ Hl
              (wellSplit_firstIsBody [] (List.Forall_nil _) _ Hl) false)
    as [HL _].
  rewrite (split_wellSplit _ HL). now rewrite linkSections_idempotent_plain.
Qed.

End PlainWords.

End PlainTerms.

(** ** A term in its own brackets *)

Section OwnBrackets.
Variables (s : AutoLinkerSettings) (v : Vault) (w : jsstr).
Hypothesis w_plain : plainTerm w = true.

(** A bracket-free text as long as the term stands at one place only of
    the term in brackets. *)
Lemma wrapped_occurrence (P x Q : jsstr) :
  P ++ x ++ Q = [91; 91] ++ w ++ [93; 93] ->
  length x = length w -> Forall (fun c => isBracket c = false) x ->
  P = [91; 91].
Proof.
  intros Heq Hlen Hx.
  assert (Hxne : x <> []).
  { intros ->. apply plainTerm_spec in w_plain as [Hne _].
    destruct w; [congruence|discriminate]. }
  assert (Hhead : forall z, headIs isBracket (x ++ z) = false).
  { intros z. destruct x as [|c x']; [congruence|].
    inversion Hx; subst. assumption. }
  destruct P as [|p0 [|p1 P2]].
  - cbn [app] in Heq. specialize (Hhead Q). rewrite Heq in Hhead.
    discriminate Hhead.
  - cbn [app] in Heq. injection Heq as _ Heq. specialize (Hhead Q).
    rewrite Heq in Hhead. discriminate Hhead.
  - cbn [app] in Heq. injection Heq as -> -> Heq.
    apply app_eq_app in Heq as (l & [[HP Hl]|[Hw Hl]]).
    + exfalso. specialize (Hhead Q).
      destruct l as [|l0 [|l1 l2]].
      * cbn [app] in Hl. rewrite <- Hl in Hhead. discriminate Hhead.
      * cbn [app] in Hl. injection Hl as _ Hl.
        rewrite <- Hl in Hhead. discriminate Hhead.
      * cbn [app] in Hl. injection Hl as _ _ Hl.
        destruct l2; [|discriminate Hl]. cbn [app] in Hl.
        destruct x; [congruence|discriminate Hl].
    + destruct (plain_prefix x Q l [93] 93 Hl eq_refl Hx) as (t & -> & _).
      rewrite Hw, !length_app in Hlen.
      destruct P2; [reflexivity|simpl in Hlen; lia].
Qed.

(** A chunk of the sections of the bracketed term has no match. *)
Lemma wrapped_chunk (P b Q : jsstr) :
  P ++ b ++ Q = [91; 91] ++ w ++ [93; 93] ->
  P = [] \/ 35 ∈ P ->
  noMatch w [] b.
Proof.
  intros Heq HP a b2 ->. apply not_true_is_false. intros Hm.
  destruct (linkMatch_plain_inv w _ _ w_plain Hm)
    as (x & y & -> & Hlen & _ & Hx & Hopen & _).
  assert (HPa : P ++ a = [91; 91]).
  { apply (wrapped_occurrence (P ++ a) x (y ++ Q)); [|exact Hlen|exact Hx].
    rewrite <- Heq. now rewrite <- !app_assoc. }
  destruct HP as [->|HP].
  - cbn [app] in HPa. subst a. discriminate Hopen.
  - assert (Hin : 35 ∈ P ++ a) by (apply elem_of_app; now left).
    rewrite HPa in Hin. apply list_elem_of_In in Hin. cbn in Hin.
    destruct Hin as [Hin|[Hin|[]]]; discriminate Hin.
Qed.

Lemma linkSections_wrapped sol l :
  wellSplit sol l -> firstIsBody l ->
  forall P Q flag,
    P ++ join l ++ Q = [91; 91] ++ w ++ [93; 93] ->
    P = [] \/ 35 ∈ P ->
    linkSections s v [w] flag l = l.
Proof.
  induction 1 as [sol b Hb|sol b g l Hb Hsol Hg Hend Hl IH];
    intros Hfirst P Q flag Heq HP; cbn [firstIsBody] in Hfirst;
    rewrite linkSections_body_cons by exact Hfirst.
  - cbn [linkSections]. f_equal. unfold chunkLinked.
    destruct (negb flag); [|reflexivity]. cbn [fold_left].
    rewrite linkWord_relink. destruct (isLinkable s w); [|reflexivity].
    apply relink_fixed. apply (wrapped_chunk P b Q); [|exact HP].
    unfold join in Heq. cbn [concat] in Heq.
    now rewrite app_nil_r in Heq.
  - unfold join in Heq. cbn [concat] in Heq. f_equal.
    + unfold chunkLinked. destruct (negb flag); [|reflexivity].
      cbn [fold_left]. rewrite linkWord_relink.
      destruct (isLinkable s w); [|reflexivity].
      apply relink_fixed.
      apply (wrapped_chunk P b (((35 :: g) ++ concat l) ++ Q));
        [|exact HP].
      rewrite <- Heq. now rewrite <- !app_assoc.
    + cbn [linkSections].
      replace (startsWith (35 :: g) (str "#")) with true
        by now rewrite startsWith_hash.
      f_equal.
      apply (IH (lineEnd_firstIsBody _ Hend) (P ++ b ++ 35 :: g) Q).
      * rewrite <- Heq. unfold join. now rewrite <- !app_assoc.
      * right. rewrite !elem_of_app. right. right. now left.
Qed.

(** The term in its own brackets is left alone. *)
Lemma linkWords_own_brackets :
  linkWords s v (str "[[" ++ w ++ str "]]") [w] = str "[[" ++ w ++ str "]]".
Proof.
  change (str "[[") with [91; 91]. change (str "]]") with [93; 93].
  unfold linkWords.
  pose proof (split_is_wellSplit ([91; 91] ++ w ++ [93; 93])) as Hl.
  rewrite (linkSections_wrapped true _ Hl
             (wellSplit_firstIsBody [] (List.Forall_nil _) _ Hl) [] []).
  - apply split_join.
  - cbn [app]. now rewrite app_nil_r, split_join.
  - now left.
Qed.

End OwnBrackets.

(** C1, as amended.  When every match is wrapped (the existing-files
    option is off) and the terms of the word list are non-empty and hold
    no bracket, running the linker on its own output returns that output
    unchanged; with a word list whose terms are non-empty runs of word
    characters (letters, digits, underscore) this holds whatever the
    settings.  The link pattern never matches an occurrence that has
    [[[] just before it or []]] just after it, whatever the term; and a
    non-empty term without brackets that stands in its own brackets is
    left as it is. *)
Theorem C1_relinking_own_output :
  (forall s v content ws,
     existingFilesOnly s = false ->
     Forall (fun w => plainTerm w = true) ws ->
     linkWords s v (linkWords s v content ws) ws
     = linkWords s v content ws) /\
  (forall s v content ws,
     Forall (fun w => tokenWord w = true) ws ->
     linkWords s v (linkWords s v content ws) ws
     = linkWords s v content ws) /\
  (forall w pre suf,
     startsWith pre (str "[[") = true \/
     startsWith (skipn (length w) suf) (str "]]") = true ->
     matchAt flagsGI (linkPattern w) pre suf = None) /\
  (forall s v w,
     plainTerm w = true ->
     linkWords s v (str "[[" ++ w ++ str "]]") [w]
     = str "[[" ++ w ++ str "]]").
Proof.
  split; [|split; [|split]].
  - intros s v content ws Hs Hws. now apply linkWords_idempotent_plain.
  - intros s v content ws Hws. now apply linkWords_idempotent.
  - intros w pre suf H. rewrite matchAt_linkPattern.
    replace (linkMatch w pre suf) with false; [reflexivity|].
    symmetry. unfold linkMatch.
    change (str "[[") with [91; 91] in H. change (str "]]") with [93; 93] in H.
    destruct H as [H|H]; rewrite H; cbn [negb andb].
    + reflexivity.
    + apply andb_false_r.
  - intros s v w Hw. now apply linkWords_own_brackets.
Qed.

End Linking.

(** * Further properties of the code *)

Section Further.
Context {rt : Runtime}.

(** ** Escaping and the patterns built from it *)

Lemma flat_map_escapeUnit_plain (s : jsstr) :
  Forall (fun c => isSpecial c = false) s -> flat_map escapeUnit s = s.
Proof.
  induction 1 as [|c s Hc _ IH]; [reflexivity|].
  cbn [flat_map]. unfold escapeUnit at 1. rewrite Hc. cbn [app].
  now rewrite IH.
Qed.

(** [escapeRegExp] puts a backslash before each unit of
    [. * + ? ^ $ { } ( ) | [ ] \] and copies every other unit; a text
    without such units is returned as it is, and the result is never
    shorter than the text. *)
Theorem escapeRegExp_backslashes_specials :
  (forall s : jsstr,
     escapeRegExp s
     = flat_map (fun c => if isSpecial c then [92; c] else [c]) s) /\
  (forall s : jsstr,
     Forall (fun c => isSpecial c = false) s -> escapeRegExp s = s) /\
  (forall s : jsstr, (length s <= length (escapeRegExp s))%nat).
Proof.
  split; [|split].
  - intros s. apply escapeRegExp_spec.
  - intros s Hs. rewrite escapeRegExp_spec.
    now apply flat_map_escapeUnit_plain.
  - intros s. rewrite escapeRegExp_spec.
    induction s as [|c s IH]; [reflexivity|].
    cbn [flat_map]. rewrite length_app. unfold escapeUnit at 1.
    destruct (isSpecial c); cbn [length]; lia.
Qed.

Lemma matchesLit_noFlags (w suf : jsstr) :
  matchesLit noFlags w suf = startsWith suf w.
Proof.
  revert suf. induction w as [|c w IH]; intros [|d suf]; try reflexivity.
  cbn [matchesLit startsWith]. now rewrite IH.
Qed.

(** ** [fileExists] *)

Lemma mdPattern_lit :
  RSeq (compileEscaped (str "\.md")) REol = RSeq (litRegex (str ".md")) REol.
Proof. reflexivity. Qed.

Lemma matchAt_mdPattern pre suf :
  matchAt noFlags (RSeq (compileEscaped (str "\.md")) REol) pre suf =
  if jsstr_eqb suf (str ".md")
  then Some {| before := rev (str ".md") ++ pre; after := [];
               capture := None |}
  else None.
Proof.
  rewrite mdPattern_lit. unfold matchAt. rewrite rmatch_seq, rmatch_lit.
  cbn [after before capture]. rewrite matchesLit_noFlags.
  destruct (jsstr_eqb suf (str ".md")) eqn:E.
  - apply jsstr_eqb_eq in E. subst suf. reflexivity.
  - destruct (startsWith suf (str ".md")) eqn:Es; [|reflexivity].
    apply startsWith_prefix in Es as [t ->].
    rewrite drop_app_length, rmatch_eol. cbn [after].
    destruct t as [|c t]; [|reflexivity].
    rewrite app_nil_r, jsstr_eqb_refl in E. discriminate.
Qed.

Lemma stripMd_suffixed (stem : jsstr) : forall pre,
  replaceFirstLoop noFlags (RSeq (compileEscaped (str "\.md")) REol)
    (template []) pre (stem ++ str ".md") = stem.
Proof.
  induction stem as [|c stem IH]; intros pre.
  - reflexivity.
  - change ((c :: stem) ++ str ".md") with (c :: (stem ++ str ".md")).
    cbn [replaceFirstLoop]. rewrite matchAt_mdPattern.
    destruct (jsstr_eqb (c :: stem ++ str ".md") (str ".md")) eqn:E.
    + apply jsstr_eqb_eq in E. apply (f_equal (@length N)) in E.
      cbn [length] in E. rewrite length_app in E. cbn in E. lia.
    + now rewrite IH.
Qed.

Lemma stripMd_plain (suf : jsstr) : forall pre,
  endsWith suf (str ".md") = false ->
  replaceFirstLoop noFlags (RSeq (compileEscaped (str "\.md")) REol)
    (template []) pre suf = suf.
Proof.
  induction suf as [|c suf IH]; intros pre Hend.
  - cbn [replaceFirstLoop]. rewrite matchAt_mdPattern. reflexivity.
  - cbn [replaceFirstLoop]. rewrite matchAt_mdPattern.
    destruct (jsstr_eqb (c :: suf) (str ".md")) eqn:E.
    + apply jsstr_eqb_eq in E.
      assert (Ht : endsWith (c :: suf) (str ".md") = true).
      { apply endsWith_suffix. exists []. now rewrite E. }
      congruence.
    + f_equal. apply IH.
      destruct (endsWith suf (str ".md")) eqn:Es; [|reflexivity].
      apply endsWith_suffix in Es as [stem ->].
      assert (Ht : endsWith (c :: stem ++ str ".md") (str ".md") = true).
      { apply endsWith_suffix. now exists (c :: stem). }
      congruence.
Qed.

(** [fileExists] looks for a file at the link's path with [.md] appended,
    after one trailing [.md] of the link is dropped: a link and the same
    link followed by [.md] give the same answer, and a folder at that
    path does not count. *)
Theorem fileExists_ignores_md_suffix (v : Vault) :
  (forall stem, fileExists v (stem ++ str ".md") = isFileAt v (stem ++ str ".md")) /\
  (forall link, endsWith link (str ".md") = false ->
     fileExists v link = isFileAt v (link ++ str ".md") /\
     fileExists v (link ++ str ".md") = fileExists v link).
Proof.
  assert (H1 : forall stem,
             fileExists v (stem ++ str ".md") = isFileAt v (stem ++ str ".md")).
  { intros stem. unfold fileExists, isFileAt, replaceFirst.
    now rewrite stripMd_suffixed. }
  assert (H2 : forall link, endsWith link (str ".md") = false ->
             fileExists v link = isFileAt v (link ++ str ".md")).
  { intros link H. unfold fileExists, isFileAt, replaceFirst.
    now rewrite stripMd_plain. }
  split; [exact H1|]. intros link H. split; [now apply H2|].
  now rewrite H1, H2.
Qed.

(** ** What linking does to a text *)

Lemma bracketsInserted_refl (a : jsstr) : bracketsInserted a a.
Proof. induction a; constructor; assumption. Qed.

Lemma bracketsInserted_app (a a' b b' : jsstr) :
  bracketsInserted a a' -> bracketsInserted b b' ->
  bracketsInserted (a ++ b) (a' ++ b').
Proof.
  intros Ha Hb. induction Ha; cbn [app]; try (constructor; assumption).
  exact Hb.
Qed.

Lemma bracketsInserted_trans (a b c : jsstr) :
  bracketsInserted a b -> bracketsInserted b c -> bracketsInserted a c.
Proof.
  intros Hab Hbc. revert a Hab.
  induction Hbc as [|x b c Hbc IH|b c Hbc IH|b c Hbc IH]; intros a Hab.
  - exact Hab.
  - inversion Hab; subst.
    + apply bracketsInserted_keep. now apply IH.
    + apply bracketsInserted_open. now apply IH.
    + apply bracketsInserted_close. now apply IH.
  - apply bracketsInserted_open. now apply IH.
  - apply bracketsInserted_close. now apply IH.
Qed.

Lemma bracketsInserted_without (a b : jsstr) :
  bracketsInserted a b -> withoutBrackets b = withoutBrackets a.
Proof.
  unfold withoutBrackets.
  induction 1 as [|c a b _ IH|a b _ IH|a b _ IH]; cbn [List.filter].
  - reflexivity.
  - now rewrite IH.
  - exact IH.
  - exact IH.
Qed.

Lemma bracketsInserted_length (a b : jsstr) :
  bracketsInserted a b -> (length a <= length b)%nat.
Proof. induction 1; cbn [length]; lia. Qed.

Lemma wrapMatch_brackets s v (m x y : jsstr) :
  bracketsInserted m (wrapMatch s v m x y).
Proof.
  unfold wrapMatch.
  destruct (existingFilesOnly s && negb (fileExists v m)).
  - apply bracketsInserted_refl.
  - change (str "[[") with [91; 91]. change (str "]]") with [93; 93].
    cbn [app]. do 2 apply bracketsInserted_open.
    rewrite <- (app_nil_r m) at 1.
    apply bracketsInserted_app; [apply bracketsInserted_refl|].
    do 2 apply bracketsInserted_close. constructor.
Qed.

Lemma matchAt_span fl r pre suf st :
  matchAt fl r pre suf = Some st ->
  suf = firstn (matchLen suf st) suf ++ after st /\
  (matchLen suf st = 0%nat -> after st = suf).
Proof.
  intros H. apply matchAt_advances in H as (x & Hx & _). subst suf.
  assert (Hn : matchLen (x ++ after st) st = length x).
  { unfold matchLen. rewrite length_app. lia. }
  rewrite Hn, take_app_length. split; [reflexivity|].
  intros H0. destruct x; [reflexivity|discriminate].
Qed.

Lemma replaceLoop_brackets s v fl r fuel : forall pre suf,
  bracketsInserted suf (replaceLoop fuel fl r (wrapMatch s v) pre suf).
Proof.
  induction fuel as [|fuel IH]; intros pre suf.
  - apply bracketsInserted_refl.
  - cbn [replaceLoop].
    destruct (matchAt fl r pre suf) as [st|] eqn:E.
    + destruct (matchAt_span _ _ _ _ _ E) as [Hs H0].
      destruct (matchLen suf st) as [|n] eqn:En.
      * rewrite <- (app_nil_l suf) at 1.
        apply bracketsInserted_app; [apply wrapMatch_brackets|].
        destruct suf as [|c suf]; [constructor|].
        apply bracketsInserted_keep, IH.
      * rewrite Hs at 1.
        apply bracketsInserted_app; [apply wrapMatch_brackets|apply IH].
    + destruct suf as [|c suf]; [constructor|].
      apply bracketsInserted_keep, IH.
Qed.

Lemma linkChunk_brackets s v ws : forall sec,
  bracketsInserted sec (fold_left (linkWord s v) ws sec).
Proof.
  induction ws as [|w ws IH]; intros sec; [apply bracketsInserted_refl|].
  cbn [fold_left]. eapply bracketsInserted_trans; [|apply IH].
  unfold linkWord. destruct (isLinkable s w).
  - apply replaceLoop_brackets.
  - apply bracketsInserted_refl.
Qed.

Lemma linkSections_brackets s v ws : forall l flag,
  bracketsInserted (join l) (join (linkSections s v ws flag l)).
Proof.
  unfold join. induction l as [|sec l IH]; intros flag; [constructor|].
  cbn [linkSections].
  destruct (startsWith sec (str "#")); [|destruct (negb flag)];
    cbn [concat]; apply bracketsInserted_app;
    try apply bracketsInserted_refl; try apply linkChunk_brackets; apply IH.
Qed.

(** Linking only puts [[] and []] units into the text: every unit of the
    document stays, in order, so the text without its brackets is the
    same before and after, and the document never gets shorter. *)
Theorem linkWords_only_inserts_brackets s v (content : jsstr) ws :
  bracketsInserted content (linkWords s v content ws) /\
  withoutBrackets (linkWords s v content ws) = withoutBrackets content /\
  (length content <= length (linkWords s v content ws))%nat.
Proof.
  assert (H : bracketsInserted content (linkWords s v content ws)).
  { unfold linkWords. rewrite <- (split_join content) at 1.
    apply linkSections_brackets. }
  split; [exact H|]. split.
  - now apply bracketsInserted_without.
  - now apply bracketsInserted_length.
Qed.

(** ** Existing files only *)

Lemma replaceLoop_same fl r repl fuel : forall pre suf,
  (forall pre suf st, matchAt fl r pre suf = Some st ->
     repl (firstn (matchLen suf st) suf) (rev pre) (after st)
     = firstn (matchLen suf st) suf) ->
  replaceLoop fuel fl r repl pre suf = suf.
Proof.
  intros pre suf Hrepl. revert pre suf.
  induction fuel as [|fuel IH]; intros pre suf; [reflexivity|].
  cbn [replaceLoop].
  destruct (matchAt fl r pre suf) as [st|] eqn:E.
  - rewrite (Hrepl _ _ _ E).
    destruct (matchAt_span _ _ _ _ _ E) as [Hs H0].
    destruct (matchLen suf st) as [|n] eqn:En.
    + cbn [firstn app]. destruct suf as [|c suf]; [reflexivity|].
      now rewrite IH.
    + rewrite IH. now rewrite <- Hs.
  - destruct suf as [|c suf]; [reflexivity|]. now rewrite IH.
Qed.

Lemma matchesLit_take fl (w suf : jsstr) :
  matchesLit fl w suf = true ->
  matchesLit fl w (firstn (length w) suf) = true.
Proof.
  revert suf. induction w as [|c w IH]; intros [|d suf] H;
    try reflexivity; try discriminate.
  cbn [matchesLit length firstn] in *.
  apply andb_true_iff in H as [H1 H2]. rewrite H1. cbn [andb]. now apply IH.
Qed.

Lemma linkPattern_matched word pre suf st :
  matchAt flagsGI (linkPattern word) pre suf = Some st ->
  firstn (matchLen suf st) suf = firstn (length word) suf /\
  length (firstn (length word) suf) = length word /\
  matchesLit flagsGI word (firstn (length word) suf) = true.
Proof.
  rewrite matchAt_linkPattern.
  destruct (linkMatch word pre suf) eqn:E; [|discriminate].
  intros Hst. injection Hst as <-.
  pose proof (linkMatch_length _ _ _ E) as Hlen.
  pose proof (linkMatch_matchesLit _ _ _ E) as Hm.
  unfold matchLen. cbn [after]. rewrite length_skipn.
  replace (length suf - (length suf - length word))%nat
    with (length word) by lia.
  split; [reflexivity|]. split.
  - now apply matchesLit_firstn with (fl := flagsGI).
  - now apply matchesLit_take.
Qed.

(** With [existingFilesOnly] set, a document is left as it is when no
    text that a word of the list can match, in any letter case, names a
    file of the vault. *)
Theorem linkWords_without_existing_files s v (content : jsstr) ws :
  existingFilesOnly s = true ->
  (forall w m, w ∈ ws -> length m = length w ->
     matchesLit flagsGI w m = true -> fileExists v m = false) ->
  linkWords s v content ws = content.
Proof.
  intros Hs Hno.
  assert (Hword : forall w sec, w ∈ ws -> linkWord s v sec w = sec).
  { intros w sec Hw. unfold linkWord. destruct (isLinkable s w); [|reflexivity].
    unfold replaceAll. apply replaceLoop_same.
    intros pre suf st Hst.
    destruct (linkPattern_matched _ _ _ _ Hst) as (-> & Hlen & Hm).
    unfold wrapMatch. rewrite Hs, (Hno w _ Hw Hlen Hm). reflexivity. }
  assert (Hfold : forall l sec, (forall w, w ∈ l -> w ∈ ws) ->
             fold_left (linkWord s v) l sec = sec).
  { induction l as [|w l IH]; intros sec Hl; [reflexivity|].
    cbn [fold_left]. rewrite Hword by (apply Hl; left).
    apply IH. intros w' Hw'. apply Hl. now right. }
  unfold linkWords.
  rewrite (linkSections_ext s v ws []).
  - rewrite linkSections_no_words. apply split_join.
  - intros sec. cbn [fold_left]. now apply Hfold.
Qed.

(** ** A mention that stands alone *)

Lemma relink_skip s v w x : forall fuel pre rest,
  tokenWord w = true ->
  Forall (fun c => isWordChar c = false) x ->
  relink s v w fuel pre (x ++ rest)
  = x ++ relink s v w (fuel - length x) (rev x ++ pre) rest.
Proof.
  induction x as [|c x IH]; intros fuel pre rest Hw Hx.
  - cbn. now rewrite Nat.sub_0_r.
  - inversion Hx as [|? ? Hc Hx']; subst. destruct fuel as [|fuel].
    + reflexivity.
    + cbn [app]. rewrite (relink_nonword s v) by (exact Hw || exact Hc).
      rewrite IH by assumption.
      cbn [length rev Nat.sub]. now rewrite <- app_assoc.
Qed.

Lemma headIs_rev_nonword (a : jsstr) :
  Forall (fun c => isWordChar c = false) a ->
  headIs isWordChar (rev a) = false.
Proof.
  intros Ha. apply Forall_rev in Ha.
  destruct (rev a) as [|c r]; [reflexivity|]. now inversion Ha.
Qed.

Lemma headIs_nonword (b : jsstr) :
  Forall (fun c => isWordChar c = false) b -> headIs isWordChar b = false.
Proof. destruct b as [|c b]; [reflexivity|]. now inversion 1. Qed.

Lemma split_no_hash (text : jsstr) :
  35 ∉ text -> split flagsM headingPattern text = [text].
Proof.
  intros Hno.
  assert (HW : wellSplit true [text]).
  { apply wellSplit_last. intros a b' Heq. exfalso. apply Hno.
    rewrite Heq. apply elem_of_app. right. now left. }
  pose proof (split_wellSplit [text] HW) as H.
  unfold join in H. cbn [concat] in H. now rewrite app_nil_r in H.
Qed.

Lemma headIs_hash_notin (text : jsstr) :
  35 ∉ text -> headIs (N.eqb 35) text = false.
Proof.
  destruct text as [|c t]; [reflexivity|]. intros Hno. cbn [headIs].
  apply N.eqb_neq. intros <-. apply Hno. now left.
Qed.

Lemma linkWords_standalone s v (w a m b : jsstr) :
  tokenWord w = true -> isLinkable s w = true ->
  existingFilesOnly s = false \/ fileExists v m = true ->
  length m = length w -> matchesLit flagsGI w m = true ->
  Forall (fun c => isWordChar c = false) a ->
  Forall (fun c => isWordChar c = false) b ->
  35 ∉ a -> 35 ∉ b ->
  endsWith a (str "[[") = false -> startsWith b (str "]]") = false ->
  linkWords s v (a ++ m ++ b) [w] = a ++ str "[[" ++ m ++ str "]]" ++ b.
Proof.
  intros Hw Hlink Hex Hlen Hm Ha Hb Ha35 Hb35 Hopen Hclose.
  pose proof (proj1 (tokenWord_spec w) Hw) as [Hne Hwm].
  assert (Hmw : Forall (fun c => isWordChar c = true) m).
  { pose proof (matchesLit_words w (m ++ []) Hwm) as H.
    rewrite app_nil_r in H. specialize (H Hm).
    rewrite <- Hlen in H. now rewrite firstn_all in H. }
  assert (Hmne : m <> []).
  { intros ->. destruct w; [congruence|discriminate]. }
  assert (Hno : 35 ∉ a ++ m ++ b).
  { intros Hin. apply elem_of_app in Hin as [Hin|Hin]; [now apply Ha35|].
    apply elem_of_app in Hin as [Hin|Hin]; [|now apply Hb35].
    rewrite Forall_forall in Hmw. specialize (Hmw _ Hin). discriminate. }
  unfold linkWords. rewrite (split_no_hash _ Hno).
  cbn [linkSections]. rewrite startsWith_hash, (headIs_hash_notin _ Hno).
  cbn [negb fold_left]. unfold join. cbn [concat]. rewrite app_nil_r.
  rewrite (linkWord_relink s v), Hlink.
  rewrite relink_skip by assumption.
  rewrite !length_app.
  replace (S (length a + (length m + length b)) - length a)%nat
    with (S (length m + length b)) by lia.
  rewrite app_nil_r.
  assert (Hmatch : linkMatch w (rev a) (m ++ b) = true).
  { apply (linkMatch_token_intro w (rev a) m b []); try assumption.
    - now rewrite app_nil_r.
    - now apply headIs_rev_nonword.
    - now apply headIs_nonword. }
  rewrite (relink_S s v) by exact Hw. rewrite Hmatch.
  rewrite <- Hlen, take_app_length, drop_app_length.
  assert (Hwr : wraps s v m = true).
  { unfold wraps. destruct Hex as [-> | ->]; [reflexivity|].
    cbn [negb]. now rewrite andb_false_r. }
  rewrite Hwr.
  rewrite <- (app_nil_r b) at 2. rewrite relink_skip by assumption.
  rewrite (relink_nil s v) by exact Hw. rewrite app_nil_r.
  change (str "[[") with [91; 91]. change (str "]]") with [93; 93].
  now rewrite <- !app_assoc.
Qed.

(** A mention of a linkable word that stands alone in a text without
    headings (no word character and no link bracket next to it, no other
    word in the text) is wrapped in [[[ ]]], in the letter case the
    document has, and nothing else changes. *)
Theorem linkWords_wraps_standalone_mention s v (w a m b : jsstr) :
  tokenWord w = true -> isLinkable s w = true ->
  existingFilesOnly s = false \/ fileExists v m = true ->
  length m = length w -> matchesLit flagsGI w m = true ->
  Forall (fun c => isWordChar c = false) a ->
  Forall (fun c => isWordChar c = false) b ->
  35 ∉ a -> 35 ∉ b ->
  endsWith a (str "[[") = false -> startsWith b (str "]]") = false ->
  linkWords s v (a ++ m ++ b) [w] = a ++ str "[[" ++ m ++ str "]]" ++ b.
Proof. apply linkWords_standalone. Qed.

(** ** Word lists one after the other *)

Lemma linkSections_app s v ws1 ws2 :
  Forall (fun w => tokenWord w = true) ws1 ->
  forall l flag,
    linkSections s v (ws1 ++ ws2) flag l
    = linkSections s v ws2 flag (linkSections s v ws1 flag l).
Proof.
  intros H1. induction l as [|sec l IH]; intros flag; [reflexivity|].
  cbn [linkSections]. destruct (startsWith sec (str "#")) eqn:Eh.
  - cbn [linkSections]. rewrite Eh. now rewrite IH.
  - destruct flag; cbn [negb].
    + cbn [linkSections]. rewrite Eh. cbn [negb]. now rewrite IH.
    + cbn [linkSections].
      assert (Eh' : startsWith (fold_left (linkWord s v) ws1 sec) (str "#")
                    = false).
      { rewrite startsWith_hash in *.
        exact (chunkLinked_no_hash_head s v ws1 H1 false sec Eh). }
      rewrite Eh'. cbn [negb]. now rewrite IH, fold_left_app.
Qed.

(** Linking with one word list and then with another is linking with
    the first list followed by the second, when the words of the first
    are runs of word characters. *)
Theorem linkWords_app s v (content : jsstr) ws1 ws2 :
  Forall (fun w => tokenWord w = true) ws1 ->
  linkWords s v (linkWords s v content ws1) ws2
  = linkWords s v content (ws1 ++ ws2).
Proof.
  intros H1. unfold linkWords.
  pose proof (split_is_wellSplit content) as Hl.
  destruct (linkSections_wellSplit s v ws1 H1 true _ Hl
              (wellSplit_firstIsBody ws1 H1 _ Hl) false) as [HL _].
  rewrite (split_wellSplit _ HL). now rewrite linkSections_app.
Qed.

(** ** The folder tree *)

Lemma TAbstractFile_tree_ind (P : TAbstractFile -> Prop) :
  (forall f, P (AFile f)) ->
  (forall p ch, Forall P ch -> P (AFolder p ch)) ->
  forall a, P a.
Proof.
  intros Hf Hd. fix IH 1. intros [f|p ch].
  - apply Hf.
  - apply Hd. induction ch as [|x ch IHch]; constructor.
    + apply IH.
    + exact IHch.
Qed.

Lemma getMarkdownFiles_folder p ch :
  getMarkdownFiles (AFolder p ch) = flat_map childFiles ch.
Proof.
  cbn [getMarkdownFiles]. induction ch as [|x ch IH]; [reflexivity|].
  cbn [flat_map]. rewrite <- IH. destruct x as [f|q ch'].
  - cbn [childFiles]. destruct (jsstr_eqb (extension f) (str "md"));
      reflexivity.
  - reflexivity.
Qed.

Lemma elem_of_flat_map_childFiles f ch :
  f ∈ flat_map childFiles ch <-> exists x, x ∈ ch /\ f ∈ childFiles x.
Proof.
  rewrite list_elem_of_In, in_flat_map. split.
  - intros (x & Hx & Hf). exists x. now rewrite !list_elem_of_In.
  - intros (x & Hx & Hf). exists x. now rewrite <- !list_elem_of_In.
Qed.

(** [getMarkdownFiles] lists exactly the files that lie in the folder, at
    any depth, and have the extension [md]. *)
Theorem getMarkdownFiles_lists_md_files (folder : TAbstractFile) (f : TFile) :
  f ∈ getMarkdownFiles folder <->
  fileIn f folder /\ extension f = str "md".
Proof.
  revert f. induction folder as [g|p ch IH] using TAbstractFile_tree_ind;
    intros f.
  - split.
    + intros H. cbn in H. inversion H.
    + intros [H _]. inversion H.
  - rewrite getMarkdownFiles_folder, elem_of_flat_map_childFiles. split.
    + intros (x & Hx & Hf). destruct x as [g|q ch'].
      * cbn [childFiles] in Hf.
        destruct (jsstr_eqb (extension g) (str "md")) eqn:E.
        -- apply list_elem_of_singleton in Hf. subst g.
           apply jsstr_eqb_eq in E. split; [|exact E].
           now apply fileIn_child.
        -- inversion Hf.
      * cbn [childFiles] in Hf.
        rewrite Forall_forall in IH. apply (IH _ Hx) in Hf as [Hin Hext].
        split; [|exact Hext]. now apply (fileIn_sub f p ch (AFolder q ch')).
    + intros [Hin Hext]. inversion Hin as [? ? Hc|? ? sub Hsub Hf]; subst.
      * exists (AFile f). split; [exact Hc|]. cbn [childFiles].
        apply jsstr_eqb_eq in Hext. rewrite Hext. now left.
      * exists sub. split; [exact Hsub|].
        rewrite Forall_forall in IH.
        destruct sub as [g|q ch']; [inversion Hf|].
        cbn [childFiles]. apply (IH _ Hsub). now split.
Qed.

(** ** The scan of the vault *)

Lemma scanFiles_app v l1 : forall l2 links,
  scanFiles v (l1 ++ l2) links
  = match scanFiles v l1 links with
    | Some links' => scanFiles v l2 links'
    | None => None
    end.
Proof.
  induction l1 as [|f l1 IH]; intros l2 links; [reflexivity|].
  cbn [app scanFiles]. destruct (getFileLinks v f); [apply IH|reflexivity].
Qed.

Lemma processFolder_scan v (folder : TAbstractFile) : forall links,
  processFolder v folder links
  = scanFiles v (getMarkdownFiles folder) links.
Proof.
  induction folder as [g|p ch IH] using TAbstractFile_tree_ind;
    intros links; [reflexivity|].
  rewrite getMarkdownFiles_folder. cbn [processFolder].
  revert links. induction IH as [|x ch Hx _ IHch]; intros links;
    [reflexivity|].
  cbn [flat_map]. rewrite scanFiles_app. destruct x as [f|q ch'].
  - cbn [childFiles]. destruct (jsstr_eqb (extension f) (str "md")).
    + cbn [scanFiles]. destruct (getFileLinks v f); [apply IHch|reflexivity].
    + cbn [scanFiles]. apply IHch.
  - cbn [childFiles]. rewrite <- Hx.
    destruct (processFolder v (AFolder q ch') links); [apply IHch|reflexivity].
Qed.

Lemma scanFiles_None v files : forall links,
  scanFiles v files links = None <->
  exists f, f ∈ files /\ read v f = None.
Proof.
  induction files as [|f files IH]; intros links.
  - split; [discriminate|]. intros (f & Hf & _). inversion Hf.
  - cbn [scanFiles]. unfold getFileLinks.
    destruct (read v f) as [content|] eqn:E; cbn.
    + rewrite IH. split.
      * intros (g & Hg & Hr). exists g. split; [now right|exact Hr].
      * intros (g & Hg & Hr). apply elem_of_cons in Hg as [->|Hg];
          [congruence|]. now exists g.
    + split; [|reflexivity]. intros _. exists f. split; [now left|exact E].
Qed.

(** The scan of the vault reads the files that [getMarkdownFiles] lists
    for the root, in that order, and it fails exactly when one of them
    cannot be read. *)
Theorem getVaultLinks_scans_markdown_files (v : Vault) :
  getVaultLinks v = scanFiles v (getMarkdownFiles (root v)) [] /\
  (getVaultLinks v = None <->
   exists f, f ∈ getMarkdownFiles (root v) /\ read v f = None) /\
  (forall s, getWordsToLink s v = None <-> getVaultLinks v = None).
Proof.
  assert (H : getVaultLinks v = scanFiles v (getMarkdownFiles (root v)) [])
    by apply processFolder_scan.
  split; [exact H|]. split.
  - rewrite H. apply scanFiles_None.
  - intros s. unfold getWordsToLink.
    destruct (getVaultLinks v) as [l|]; cbn [mbind option_bind].
    + split; intros H0; [|discriminate H0].
      destruct (0 <? length (parseList (whitelistedStrings s)))%nat;
        discriminate H0.
    + split; reflexivity.
Qed.

(** ** The vocabulary *)

Lemma setAdd_elem (links : list jsstr) (y x : jsstr) :
  x ∈ setAdd links y <-> x ∈ links \/ x = y.
Proof.
  unfold setAdd. destruct (arrayIncludes links y) eqn:E.
  - apply arrayIncludes_elem in E. split; [now left|].
    intros [H| ->]; assumption.
  - rewrite elem_of_app, list_elem_of_singleton. reflexivity.
Qed.

Lemma setAdd_NoDup (links : list jsstr) (y : jsstr) :
  NoDup links -> NoDup (setAdd links y).
Proof.
  intros H. unfold setAdd. destruct (arrayIncludes links y) eqn:E;
    [exact H|].
  apply NoDup_app. split; [exact H|]. split.
  - intros x Hx Hy. apply list_elem_of_singleton in Hy. subst x.
    apply arrayIncludes_elem in Hx. congruence.
  - apply NoDup_singleton.
Qed.

Lemma setAddAll_elem (l : list jsstr) : forall (links : list jsstr) (x : jsstr),
  x ∈ fold_left setAdd l links <-> x ∈ links \/ x ∈ l.
Proof.
  induction l as [|y l IH]; intros links x; cbn [fold_left].
  - split; [now left|]. intros [H|H]; [exact H|inversion H].
  - rewrite IH, setAdd_elem, elem_of_cons. tauto.
Qed.

Lemma setAddAll_NoDup (l : list jsstr) : forall links : list jsstr,
  NoDup links -> NoDup (fold_left setAdd l links).
Proof.
  induction l as [|y l IH]; intros links H; [exact H|].
  cbn [fold_left]. apply IH. now apply setAdd_NoDup.
Qed.

Lemma scanFiles_Some v files : forall links out,
  scanFiles v files links = Some out ->
  (NoDup links -> NoDup out) /\
  forall x, x ∈ out <->
    x ∈ links \/
    exists f content,
      f ∈ files /\ read v f = Some content /\ x ∈ fileLinks content.
Proof.
  induction files as [|f files IH]; intros links out H.
  - injection H as <-. split; [easy|]. intros x. split; [now left|].
    intros [Hx|(f & c & Hf & _)]; [exact Hx|inversion Hf].
  - cbn [scanFiles] in H. unfold getFileLinks in H.
    destruct (read v f) as [content|] eqn:E; cbn in H; [|discriminate].
    apply IH in H as [Hnd Hin]. split.
    + intros Hl. apply Hnd. now apply setAddAll_NoDup.
    + intros x. rewrite Hin, setAddAll_elem. split.
      * intros [[Hx|Hx]|(g & c & Hg & Hr & Hx)].
        -- now left.
        -- right. exists f, content. split; [now left|]. now split.
        -- right. exists g, c. split; [now right|]. now split.
      * intros [Hx|(g & c & Hg & Hr & Hx)]; [now left; left|].
        apply elem_of_cons in Hg as [->|Hg].
        -- left. right. rewrite E in Hr. injection Hr as <-. exact Hx.
        -- right. now exists g, c.
Qed.

(** The vocabulary holds no word twice, and a word belongs to it exactly
    when it is a retained link target of some Markdown file of the vault
    and passes the whitelist, if there is one. *)
Theorem getWordsToLink_vocabulary s v wordsToLink :
  getWordsToLink s v = Some wordsToLink ->
  NoDup wordsToLink /\
  forall word, word ∈ wordsToLink <->
    (exists f content,
       f ∈ getMarkdownFiles (root v) /\ read v f = Some content /\
       word ∈ fileLinks content) /\
    (parseList (whitelistedStrings s) = [] \/
     toLowerCase word ∈ parseList (whitelistedStrings s)).
Proof.
  unfold getWordsToLink, getVaultLinks. rewrite processFolder_scan.
  destruct (scanFiles v (getMarkdownFiles (root v)) []) as [l|] eqn:E;
    cbn [mbind option_bind]; [|discriminate].
  apply scanFiles_Some in E as [Hnd Hin]. specialize (Hnd (NoDup_nil_2 (A:=jsstr))).
  assert (Hw : forall x, x ∈ fold_left setAdd l [] <->
             exists f content,
               f ∈ getMarkdownFiles (root v) /\ read v f = Some content /\
               x ∈ fileLinks content).
  { intros x. rewrite setAddAll_elem, Hin. split.
    - intros [H|H]; [inversion H|]. destruct H as [H|H]; [inversion H|exact H].
    - intros H. right. now right. }
  assert (Hd : NoDup (fold_left setAdd l [])).
  { apply setAddAll_NoDup. constructor. }
  remember (parseList (whitelistedStrings s)) as whitelist eqn:Ewl.
  destruct (0 <? length whitelist)%nat eqn:E0; intros Hs;
    injection Hs as <-.
  - split.
    + apply NoDup_ListNoDup, List.NoDup_filter, NoDup_ListNoDup. exact Hd.
    + intros word. rewrite list_elem_of_In, filter_In, <- list_elem_of_In.
      rewrite Hw, arrayIncludes_elem. split.
      * intros [H1 H2]. split; [exact H1|now right].
      * intros [H1 [H2|H2]]; [|now split].
        rewrite H2 in E0. discriminate E0.
  - assert (Hnil : whitelist = []).
    { destruct whitelist; [reflexivity|discriminate E0]. }
    split; [exact Hd|].
    intros word. rewrite Hw. split; [intros H; split; [exact H|now left]|].
    now intros [H _].
Qed.

(** ** One file *)

Lemma autoLinkFile_static p f :
  settings (autoLinkFile p f) = settings p /\
  root (vault (autoLinkFile p f)) = root (vault p) /\
  activeFile (autoLinkFile p f) = activeFile p.
Proof.
  destruct (autoLinkFile_cases p f)
    as [[-> |[n ->]]|[(c & l & _ & _ & ->)|(c & _ & _ & ->)]];
    cbn; auto.
Qed.

Lemma autoLinkFile_other p f (k : jsstr) :
  k <> path f ->
  data (vault (autoLinkFile p f)) !! k = data (vault p) !! k.
Proof.
  intros Hk.
  destruct (autoLinkFile_cases p f)
    as [[-> |[n ->]]|[(c & l & _ & _ & ->)|(c & _ & _ & ->)]];
    cbn; try reflexivity.
  apply lookup_insert_ne. congruence.
Qed.

Lemma autoLinkFile_dom p f (k : jsstr) :
  is_Some (data (vault (autoLinkFile p f)) !! k) <->
  is_Some (data (vault p) !! k).
Proof.
  destruct (autoLinkFile_cases p f)
    as [[-> |[n ->]]|[(c & l & Hc & _ & ->)|(c & _ & _ & ->)]];
    cbn; try reflexivity.
  rewrite lookup_insert_is_Some'. split; [|now right].
  intros [<- |H]; [|exact H]. now rewrite Hc.
Qed.

Lemma autoLinkFile_notices p f :
  exists l, notices (autoLinkFile p f) = notices p ++ l.
Proof.
  destruct (autoLinkFile_cases p f)
    as [[-> |[n ->]]|[(c & l & _ & _ & ->)|(c & _ & _ & ->)]];
    cbn.
  - exists []. now rewrite app_nil_r.
  - now exists [n].
  - exists []. now rewrite app_nil_r.
  - now eexists.
Qed.

(** [autoLinkFile] writes to no document but the one of its file; it
    creates and deletes none, keeps the folder tree, the settings and
    the active file, and only adds to the notices. *)
Theorem autoLinkFile_touches_one_document p f :
  settings (autoLinkFile p f) = settings p /\
  root (vault (autoLinkFile p f)) = root (vault p) /\
  activeFile (autoLinkFile p f) = activeFile p /\
  (forall k : jsstr, k <> path f ->
     data (vault (autoLinkFile p f)) !! k = data (vault p) !! k) /\
  (forall k : jsstr,
     is_Some (data (vault (autoLinkFile p f)) !! k) <->
     is_Some (data (vault p) !! k)) /\
  (exists l, notices (autoLinkFile p f) = notices p ++ l).
Proof.
  destruct (autoLinkFile_static p f) as (H1 & H2 & H3).
  repeat split; try assumption.
  - intros k. apply autoLinkFile_other.
  - apply autoLinkFile_dom.
  - apply autoLinkFile_dom.
  - apply autoLinkFile_notices.
Qed.

Lemma autoLinkFile_effect p f content wordsToLink :
  read (vault p) f = Some content ->
  getWordsToLink (settings p) (vault p) = Some wordsToLink ->
  let linkedContent := linkWords (settings p) (vault p) content wordsToLink in
  (jsstr_eqb content linkedContent = true -> autoLinkFile p f = p) /\
  (jsstr_eqb content linkedContent = false -> writable (path f) = true ->
   read (vault (autoLinkFile p f)) f = Some linkedContent /\
   lastChanges (autoLinkFile p f)
   = lastChanges p ++ [{| file := f; oldContent := content |}] /\
   notices (autoLinkFile p f) = notices p) /\
  (jsstr_eqb content linkedContent = false -> writable (path f) = false ->
   vault (autoLinkFile p f) = vault p /\
   lastChanges (autoLinkFile p f)
   = lastChanges p ++ [{| file := f; oldContent := content |}] /\
   notices (autoLinkFile p f) = notices p ++ [NoticeFailed (path f)]).
Proof.
  intros Hr Hw linkedContent. unfold autoLinkFile. rewrite Hr, Hw.
  fold linkedContent. unfold modify. cbn [setLastChanges vault].
  unfold read in Hr. rewrite Hr.
  split; [|split].
  - intros ->. reflexivity.
  - intros -> ->. cbn [negb setVault vault lastChanges notices]. unfold read.
    cbn [data]. rewrite lookup_insert_eq. auto.
  - intros -> ->. cbn [negb notify vault lastChanges notices]. auto.
Qed.

(** When the file can be read and the vocabulary can be computed,
    [autoLinkFile] does nothing if linking leaves the text as it is.
    Otherwise it appends one record, with the text read, and asks the
    host to write the linked text: if the host does, the document holds
    that text and no notice is posted; if the host refuses, the record
    stays in the ledger, the document keeps its text and the failure
    notice is posted. *)
Theorem autoLinkFile_links_the_document p f content wordsToLink :
  read (vault p) f = Some content ->
  getWordsToLink (settings p) (vault p) = Some wordsToLink ->
  let linkedContent := linkWords (settings p) (vault p) content wordsToLink in
  (jsstr_eqb content linkedContent = true -> autoLinkFile p f = p) /\
  (jsstr_eqb content linkedContent = false -> writable (path f) = true ->
   read (vault (autoLinkFile p f)) f = Some linkedContent /\
   lastChanges (autoLinkFile p f)
   = lastChanges p ++ [{| file := f; oldContent := content |}] /\
   notices (autoLinkFile p f) = notices p) /\
  (jsstr_eqb content linkedContent = false -> writable (path f) = false ->
   vault (autoLinkFile p f) = vault p /\
   lastChanges (autoLinkFile p f)
   = lastChanges p ++ [{| file := f; oldContent := content |}] /\
   notices (autoLinkFile p f) = notices p ++ [NoticeFailed (path f)]).
Proof. apply autoLinkFile_effect. Qed.

(** ** A note that cannot be read *)

Lemma autoLinkFile_blocked p f :
  getWordsToLink (settings p) (vault p) = None ->
  autoLinkFile p f = notify p (NoticeFailed (path f)).
Proof.
  intros H. unfold autoLinkFile. rewrite H.
  now destruct (read (vault p) f).
Qed.

Lemma autoLinkFiles_blocked files : forall p,
  getWordsToLink (settings p) (vault p) = None ->
  fold_left autoLinkFile files p
  = {| settings := settings p; vault := vault p; activeFile := activeFile p;
       lastChanges := lastChanges p;
       notices := notices p ++ map (fun f => NoticeFailed (path f)) files |}.
Proof.
  induction files as [|f files IH]; intros p H.
  - cbn. rewrite app_nil_r. now destruct p.
  - cbn [fold_left]. rewrite (autoLinkFile_blocked p f H).
    rewrite IH by exact H. cbn [notify settings vault activeFile lastChanges
                                  notices map].
    now rewrite <- app_assoc.
Qed.

(** One Markdown file of the vault that cannot be read stops all
    linking: for every file [autoLinkFile] only posts its failure notice,
    and the commands built on it change no document; the directory run
    posts one failure notice per file and then its closing notice. *)
Theorem unreadable_note_blocks_linking p f0 :
  f0 ∈ getMarkdownFiles (root (vault p)) -> read (vault p) f0 = None ->
  (forall f, autoLinkFile p f = notify p (NoticeFailed (path f))) /\
  vault (autoLinkCurrentFile p) = vault p /\
  lastChanges (autoLinkCurrentFile p) = [] /\
  (forall dp ch,
     getAbstractFileByPath (vault p) (specifiedDirectory (settings p))
     = Some (AFolder dp ch) ->
     extendLinkingToDirectory p
     = {| settings := settings p; vault := vault p;
          activeFile := activeFile p; lastChanges := lastChanges p;
          notices :=
            notices p ++
            map (fun f => NoticeFailed (path f))
              (getMarkdownFiles (AFolder dp ch)) ++
            [NoticeExtended (length (getMarkdownFiles (AFolder dp ch)))
               (specifiedDirectory (settings p))] |}).
Proof.
  intros Hin Hread.
  assert (Hnone : getWordsToLink (settings p) (vault p) = None).
  { unfold getWordsToLink, getVaultLinks. rewrite processFolder_scan.
    assert (Hs : scanFiles (vault p) (getMarkdownFiles (root (vault p))) []
                 = None) by (apply scanFiles_None; eauto).
    now rewrite Hs. }
  split; [intros f; now apply autoLinkFile_blocked|].
  split; [|split].
  - unfold autoLinkCurrentFile. cbn [setLastChanges activeFile].
    destruct (activeFile p) as [f|]; [|reflexivity].
    rewrite autoLinkFile_blocked by exact Hnone. reflexivity.
  - unfold autoLinkCurrentFile. cbn [setLastChanges activeFile].
    destruct (activeFile p) as [f|]; [|reflexivity].
    rewrite autoLinkFile_blocked by exact Hnone. reflexivity.
  - intros dp ch Hdir. unfold extendLinkingToDirectory. rewrite Hdir.
    rewrite autoLinkFiles_blocked by exact Hnone.
    unfold notify. cbn [settings vault activeFile lastChanges notices].
    now rewrite <- app_assoc.
Qed.

(** ** The directory run *)

Lemma autoLinkFiles_other files (k : jsstr) : forall p,
  k ∉ path <$> files ->
  data (vault (fold_left autoLinkFile files p)) !! k = data (vault p) !! k.
Proof.
  induction files as [|f files IH]; intros p Hk; [reflexivity|].
  cbn [fold_left]. rewrite fmap_cons in Hk.
  apply not_elem_of_cons in Hk as [Hne Hk].
  rewrite IH by exact Hk. now apply autoLinkFile_other.
Qed.

Lemma autoLinkFiles_static files : forall p,
  settings (fold_left autoLinkFile files p) = settings p /\
  root (vault (fold_left autoLinkFile files p)) = root (vault p) /\
  activeFile (fold_left autoLinkFile files p) = activeFile p.
Proof.
  induction files as [|f files IH]; intros p; [auto|].
  cbn [fold_left]. destruct (IH (autoLinkFile p f)) as (H1 & H2 & H3).
  destruct (autoLinkFile_static p f) as (G1 & G2 & G3).
  rewrite H1, H2, H3. auto.
Qed.

Lemma autoLinkFiles_dom files (k : jsstr) : forall p,
  is_Some (data (vault (fold_left autoLinkFile files p)) !! k) <->
  is_Some (data (vault p) !! k).
Proof.
  induction files as [|f files IH]; intros p; [reflexivity|].
  cbn [fold_left]. rewrite IH. apply autoLinkFile_dom.
Qed.

(** [extendLinkingToDirectory] writes only to Markdown files of the
    specified directory: every other document keeps its text, none is
    created or deleted, and the folder tree and the settings stay. *)
Theorem extendLinkingToDirectory_stays_in_directory p :
  (forall k : jsstr,
     (forall dp ch,
        getAbstractFileByPath (vault p) (specifiedDirectory (settings p))
        = Some (AFolder dp ch) ->
        k ∉ path <$> getMarkdownFiles (AFolder dp ch)) ->
     data (vault (extendLinkingToDirectory p)) !! k = data (vault p) !! k) /\
  (forall k : jsstr,
     is_Some (data (vault (extendLinkingToDirectory p)) !! k) <->
     is_Some (data (vault p) !! k)) /\
  root (vault (extendLinkingToDirectory p)) = root (vault p) /\
  settings (extendLinkingToDirectory p) = settings p.
Proof.
  unfold extendLinkingToDirectory.
  destruct (getAbstractFileByPath (vault p) (specifiedDirectory (settings p)))
    as [[f|dp ch]|] eqn:E; cbn [notify vault settings];
    try (repeat split; intros; tauto).
  destruct (autoLinkFiles_static (getMarkdownFiles (AFolder dp ch)) p)
    as (H1 & H2 & _).
  split; [|split; [|split]].
  - intros k Hk. apply autoLinkFiles_other. now apply (Hk dp ch).
  - intros k. apply autoLinkFiles_dom.
  - exact H2.
  - exact H1.
Qed.

(** ** The single-file run and the ledger *)

(** After [autoLinkCurrentFile] the ledger is empty, and then no
    document has changed, or it holds one record, of the active file with
    the text it had, whatever the ledger held before.  With a record, the
    document has another text if the host carried out the write, and is
    as before if the host refused it: the record is then left behind.
    Without an active Markdown file the ledger is emptied all the same
    and only the notice is posted. *)
Theorem autoLinkCurrentFile_ledger_is_its_own p :
  (lastChanges (autoLinkCurrentFile p) = [] /\
   vault (autoLinkCurrentFile p) = vault p \/
   exists f content,
     activeFile p = Some f /\ read (vault p) f = Some content /\
     lastChanges (autoLinkCurrentFile p)
     = [{| file := f; oldContent := content |}] /\
     (writable (path f) = true ->
      read (vault (autoLinkCurrentFile p)) f <> Some content) /\
     (writable (path f) = false ->
      vault (autoLinkCurrentFile p) = vault p)) /\
  (activeFile p = None ->
   autoLinkCurrentFile p = notify (setLastChanges p []) NoticeNoActiveFile).
Proof.
  split.
  - unfold autoLinkCurrentFile. cbn [setLastChanges activeFile].
    destruct (activeFile p) as [f|]; [|left; split; reflexivity].
    unfold notify. cbn [lastChanges vault].
    destruct (read (vault p) f) as [content|] eqn:Er.
    + destruct (getWordsToLink (settings p) (vault p)) as [ws|] eqn:Ew.
      * destruct (autoLinkFile_effect (setLastChanges p []) f content ws
                    Er Ew) as (H1 & H2 & H3).
        cbn [setLastChanges settings vault lastChanges app] in H1, H2, H3.
        destruct (jsstr_eqb content
                    (linkWords (settings p) (vault p) content ws)) eqn:E.
        -- left. rewrite (H1 eq_refl). split; reflexivity.
        -- right. exists f, content. split; [reflexivity|].
           split; [exact Er|].
           destruct (writable (path f)) eqn:Ewr.
           ++ destruct (H2 eq_refl eq_refl) as (G1 & G2 & _).
              split; [exact G2|]. split; [|discriminate].
              intros _. rewrite G1. intros Heq. injection Heq as Heq.
              symmetry in Heq. apply jsstr_eqb_eq in Heq. congruence.
           ++ destruct (H3 eq_refl eq_refl) as (G1 & G2 & _).
              split; [exact G2|]. split; [discriminate|]. now intros _.
      * left. rewrite autoLinkFile_blocked by exact Ew. split; reflexivity.
    + left. unfold autoLinkFile. cbn [setLastChanges vault]. rewrite Er.
      split; reflexivity.
  - intros H. unfold autoLinkCurrentFile. cbn [setLastChanges activeFile].
    now rewrite H.
Qed.

(** ** Undo with several records of one file *)

Lemma restore_lastRecord changes (k : jsstr) : forall d,
  restore d changes !! k =
  match lastRecord k changes with
  | Some t => Some t
  | None => d !! k
  end.
Proof.
  induction changes as [|c changes IH]; intros d; [reflexivity|].
  unfold restore in *. cbn [foldl lastRecord]. rewrite IH.
  destruct (lastRecord k changes); [reflexivity|].
  destruct (jsstr_eqb (path (file c)) k) eqn:E.
  - apply jsstr_eqb_eq in E. subst k. apply lookup_insert_eq.
  - apply lookup_insert_ne. intros Heq. rewrite Heq, jsstr_eqb_refl in E.
    discriminate E.
Qed.

(** When the recorded documents are there and the host lets them be
    written, after undo a document holds the text of the last record the
    ledger had for it, and a document without a record holds what it
    held: of two records of one file the later one decides. *)
Theorem undo_last_record_decides p (k : jsstr) :
  lastChanges p <> [] ->
  recorded (data (vault p)) (lastChanges p) ->
  data (vault (fst (undoLastChanges p))) !! k =
  match lastRecord k (lastChanges p) with
  | Some t => Some t
  | None => data (vault p) !! k
  end.
Proof.
  intros Hne Hrec. rewrite (undoLastChanges_restores p Hne Hrec).
  cbn [fst vault data]. apply restore_lastRecord.
Qed.

(** ** An undo that the host refuses *)

Lemma undoLoop_rejects changes : forall v,
  snd (undoLoop changes v) = Rejected <->
  exists c, c ∈ changes /\
    (data v !! path (file c) = None \/ writable (path (file c)) = false).
Proof.
  induction changes as [|c rest IH]; intros v; cbn [undoLoop].
  - cbn. split; [discriminate|]. intros (c & Hc & _). inversion Hc.
  - unfold modify. destruct (data v !! path (file c)) as [old|] eqn:Ed.
    + destruct (writable (path (file c))) eqn:Ew.
      * rewrite IH. cbn [data].
        assert (Hdom : forall k : jsstr,
                  <[path (file c) := oldContent c]> (data v) !! k = None <->
                  data v !! k = None).
        { intros k. destruct (decide (path (file c) = k)) as [<-|Hne].
          - rewrite lookup_insert_eq, Ed. split; discriminate.
          - now rewrite lookup_insert_ne. }
        split; intros (c' & Hc' & Hbad).
        -- exists c'. split; [now right|].
           destruct Hbad as [Hbad|Hbad]; [left; now apply Hdom|now right].
        -- apply elem_of_cons in Hc' as [->|Hc'].
           ++ destruct Hbad; congruence.
           ++ exists c'. split; [exact Hc'|].
              destruct Hbad as [Hbad|Hbad]; [left; now apply Hdom|now right].
      * cbn. split; [|reflexivity]. intros _. exists c.
        split; [now left|now right].
    + cbn. split; [|reflexivity]. intros _. exists c.
      split; [now left|now left].
Qed.

(** Undo is rejected exactly when the ledger holds a record whose
    document is not there or that the host does not let be written; the
    ledger is then kept as it is and no notice is posted. *)
Theorem undo_rejected_keeps_ledger p :
  (snd (undoLastChanges p) = Rejected <->
   exists c, c ∈ lastChanges p /\
     (data (vault p) !! path (file c) = None \/
      writable (path (file c)) = false)) /\
  (snd (undoLastChanges p) = Rejected ->
   lastChanges (fst (undoLastChanges p)) = lastChanges p /\
   notices (fst (undoLastChanges p)) = notices p).
Proof.
  unfold undoLastChanges.
  pose proof (undoLoop_rejects (lastChanges p) (vault p)) as Hrej.
  destruct (lastChanges p) as [|c0 rest] eqn:El.
  - cbn. split; [|discriminate]. split; [discriminate|].
    intros (c & Hc & _). inversion Hc.
  - cbn [length Nat.eqb].
    destruct (undoLoop (c0 :: rest) (vault p)) as [v' [|]];
      cbn [fst snd] in *.
    + split; [|discriminate]. split; [discriminate|].
      intros H. apply Hrej in H. discriminate H.
    + split; [|intros _; split; [exact El|reflexivity]].
      split; [intros _; now apply Hrej|reflexivity].
Qed.

(** ** Removing links from a text *)

(** One turn of the replacement loop on a removal pattern. *)
Lemma replaceLoop_remove fuel link repl pre suf :
  replaceLoop (S fuel) flagsGI (removePattern link) repl pre suf =
  if matchesLit flagsGI ([91; 91] ++ link ++ [93; 93]) suf
  then repl (firstn (length ([91; 91] ++ link ++ [93; 93])) suf) (rev pre)
         (skipn (length ([91; 91] ++ link ++ [93; 93])) suf) ++
       replaceLoop fuel flagsGI (removePattern link) repl
         (rev (firstn (length ([91; 91] ++ link ++ [93; 93])) suf) ++ pre)
         (skipn (length ([91; 91] ++ link ++ [93; 93])) suf)
  else match suf with
       | [] => []
       | c :: suf' =>
           c :: replaceLoop fuel flagsGI (removePattern link) repl
                  (c :: pre) suf'
       end.
Proof.
  cbn [replaceLoop]. unfold matchAt.
  rewrite (removePattern_lit link), rmatch_lit. cbn [after before capture].
  set (L := [91; 91] ++ link ++ [93; 93]).
  destruct (matchesLit flagsGI L suf) eqn:Em; [|reflexivity].
  apply matchesLit_length in Em.
  unfold matchLen. cbn [after before]. rewrite length_skipn.
  replace (length suf - (length suf - length L))%nat with (length L) by lia.
  reflexivity.
Qed.

Lemma matchesLit_open (w suf : jsstr) :
  matchesLit flagsGI ([91; 91] ++ w) suf = true ->
  exists rest, suf = [91; 91] ++ rest /\ matchesLit flagsGI w rest = true.
Proof.
  destruct suf as [|c [|d rest]]; cbn [app matchesLit];
    rewrite ?andb_false_r; try discriminate.
  rewrite !canonicalize_bracket by now left.
  intros H. apply andb_true_iff in H as [H1 H].
  apply andb_true_iff in H as [H2 H].
  apply N.eqb_eq in H1, H2. subst c d. now exists rest.
Qed.

Lemma replaceLoop_never link repl fuel : forall pre suf,
  (forall a b, suf = a ++ b ->
     matchesLit flagsGI ([91; 91] ++ link ++ [93; 93]) b = false) ->
  replaceLoop fuel flagsGI (removePattern link) repl pre suf = suf.
Proof.
  induction fuel as [|fuel IH]; intros pre suf H; [reflexivity|].
  rewrite replaceLoop_remove. rewrite (H [] suf eq_refl).
  destruct suf as [|c suf]; [reflexivity|]. f_equal. apply IH.
  intros a b ->. now apply (H (c :: a) b).
Qed.

Lemma includes_suffix (a b sub : jsstr) :
  includes (a ++ b) sub = false -> includes b sub = false.
Proof.
  induction a as [|c a IH]; [easy|]. cbn [app includes].
  intros H. apply orb_false_iff in H as [_ H]. now apply IH.
Qed.

Lemma includes_head (s sub : jsstr) :
  includes s sub = false -> startsWith s sub = false.
Proof.
  destruct s; cbn [includes]; intros H; now apply orb_false_iff in H as [H _].
Qed.

Lemma removeLinks_plain (content : jsstr) linksToRemove :
  includes content (str "[[") = false ->
  removeLinks content linksToRemove = content.
Proof.
  intros Hno. unfold removeLinks.
  induction linksToRemove as [|link links IH]; [reflexivity|].
  cbn [fold_left]. unfold replaceAll. rewrite replaceLoop_never; [exact IH|].
  intros a b -> .
  destruct (matchesLit flagsGI ([91; 91] ++ link ++ [93; 93]) b) eqn:E;
    [|reflexivity].
  apply matchesLit_open in E as (rest & -> & _).
  apply includes_suffix, includes_head in Hno.
  change (str "[[") with [91; 91] in Hno. cbn [app startsWith] in Hno.
  rewrite N.eqb_refl, startsWith_nil in Hno. discriminate Hno.
Qed.

(** A text without [[[] is returned as it is, whatever the terms. *)
Theorem removeLinks_needs_open_brackets (content : jsstr) linksToRemove :
  includes content (str "[[") = false ->
  removeLinks content linksToRemove = content.
Proof. apply removeLinks_plain. Qed.

(** *** The aliased form *)

Lemma canonicalize_pipe c :
  canonicalize flagsGI c = canonicalize flagsGI 124 -> c = 124.
Proof.
  assert (H124 : canonicalize flagsGI 124 = 124) by reflexivity.
  rewrite H124.
  destruct (canonicalize_cases c) as [[Hc ->]|[(Hc & Hn & ->)|[Hc Hu]]]; lia.
Qed.

Lemma matchesLit_pipe (link : jsstr) : forall inner rest : jsstr,
  124 ∉ link -> 93 ∉ inner ->
  matchesLit flagsGI (link ++ [93; 93]) (inner ++ 124 :: rest) = false.
Proof.
  induction link as [|l link IH]; intros inner rest Hl Hi.
  - cbn [app]. destruct inner as [|c inner]; cbn [app matchesLit].
    + rewrite canonicalize_bracket by now right. reflexivity.
    + rewrite canonicalize_bracket by now right.
      destruct (N.eqb_spec 93 c) as [<-|_]; [|reflexivity].
      exfalso. apply Hi. now left.
  - apply not_elem_of_cons in Hl as [Hne Hl].
    destruct inner as [|c inner]; cbn [app matchesLit].
    + destruct (N.eqb_spec (canonicalize flagsGI l) (canonicalize flagsGI 124))
        as [E|_]; [|reflexivity].
      apply canonicalize_pipe in E. congruence.
    + apply not_elem_of_cons in Hi as [_ Hi].
      rewrite (IH inner rest Hl Hi). apply andb_false_r.
Qed.

Lemma open_only_at_start (a b R : jsstr) :
  91 ∉ R -> [91; 91] ++ R = a ++ b -> startsWith b [91; 91] = true ->
  a = [].
Proof.
  intros HR Heq Hb. apply startsWith_prefix in Hb as [t ->].
  destruct a as [|x [|y a]]; [reflexivity| |]; exfalso; apply HR.
  - injection Heq as _ Heq. rewrite Heq. now left.
  - injection Heq as _ _ Heq. rewrite Heq. apply elem_of_app. right. now left.
Qed.

(** A link with an alias, [[[target|alias]]], is left as it is by a
    removal term without [|], whether or not the term is the target. *)
Theorem removeLinks_keeps_aliased_link (link inner alias : jsstr) :
  124 ∉ link -> 91 ∉ inner -> 93 ∉ inner -> 91 ∉ alias ->
  removeLinks (str "[[" ++ inner ++ str "|" ++ alias ++ str "]]") [link]
  = str "[[" ++ inner ++ str "|" ++ alias ++ str "]]".
Proof.
  intros Hl Hi1 Hi2 Ha. cbn [removeLinks fold_left].
  change (str "[[") with [91; 91]. change (str "]]") with [93; 93].
  change (str "|") with [124].
  unfold replaceAll. apply replaceLoop_never. intros a b Heq.
  destruct (matchesLit flagsGI ([91; 91] ++ link ++ [93; 93]) b) eqn:E;
    [|reflexivity].
  apply matchesLit_open in E as (rest & -> & E).
  assert (HR : 91 ∉ inner ++ [124] ++ alias ++ [93; 93]).
  { intros Hin. apply elem_of_app in Hin as [Hin|Hin]; [now apply Hi1|].
    apply elem_of_app in Hin as [Hin|Hin].
    - apply list_elem_of_singleton in Hin. discriminate Hin.
    - apply elem_of_app in Hin as [Hin|Hin]; [now apply Ha|].
      apply list_elem_of_In in Hin. cbn in Hin.
      destruct Hin as [Hin|[Hin|[]]]; discriminate Hin. }
  assert (Ha0 : a = []).
  { apply (open_only_at_start a ([91; 91] ++ rest) _ HR Heq).
    apply startsWith_prefix. now exists rest. }
  subst a. cbn [app] in Heq. injection Heq as Heq. subst rest.
  cbn [app] in E. rewrite matchesLit_pipe in E by assumption. discriminate E.
Qed.

(** *** The first link of a text *)

Lemma remove_indep link (n : nat) : forall suf fuel fuel' pre pre',
  36 ∉ link ->
  (length suf <= n)%nat ->
  (length suf < fuel)%nat -> (length suf < fuel')%nat ->
  replaceLoop fuel flagsGI (removePattern link) (template link) pre suf
  = replaceLoop fuel' flagsGI (removePattern link) (template link) pre' suf.
Proof.
  induction n as [|n IH]; intros suf fuel fuel' pre pre' Hno Hn Hf Hf'.
  - destruct suf; [|cbn in Hn; lia].
    destruct fuel as [|fuel]; [lia|]. destruct fuel' as [|fuel']; [lia|].
    rewrite !replaceLoop_remove. reflexivity.
  - destruct fuel as [|fuel]; [lia|]. destruct fuel' as [|fuel']; [lia|].
    rewrite !replaceLoop_remove.
    set (L := [91; 91] ++ link ++ [93; 93]).
    destruct (matchesLit flagsGI L suf) eqn:Em.
    + unfold template. rewrite !getSubstitution_plain by exact Hno.
      f_equal. apply matchesLit_length in Em.
      assert (HL : (0 < length L)%nat) by (unfold L; cbn; lia).
      apply IH; try exact Hno; rewrite length_skipn; lia.
    + destruct suf as [|c suf]; [reflexivity|]. f_equal.
      cbn [length] in *. apply IH; try exact Hno; lia.
Qed.

Lemma remove_skip link repl (a : jsstr) : forall fuel pre rest,
  91 ∉ a -> (length a <= fuel)%nat ->
  replaceLoop fuel flagsGI (removePattern link) repl pre (a ++ rest)
  = a ++ replaceLoop (fuel - length a) flagsGI (removePattern link) repl
           (rev a ++ pre) rest.
Proof.
  induction a as [|c a IH]; intros fuel pre rest Ha Hf.
  - cbn. now rewrite Nat.sub_0_r.
  - apply not_elem_of_cons in Ha as [Hc Ha].
    destruct fuel as [|fuel]; [cbn in Hf; lia|].
    rewrite replaceLoop_remove.
    destruct (matchesLit flagsGI _ ((c :: a) ++ rest)) eqn:E.
    + apply matchesLit_open in E as (r & E & _). injection E as E _.
      congruence.
    + cbn [app]. rewrite IH by (exact Ha || (cbn in Hf; lia)).
      cbn [length rev Nat.sub]. now rewrite <- app_assoc.
Qed.

Lemma removeLinks_first (link a inner b : jsstr) :
  36 ∉ link -> 91 ∉ a ->
  length inner = length link -> matchesLit flagsGI link inner = true ->
  removeLinks (a ++ str "[[" ++ inner ++ str "]]" ++ b) [link]
  = a ++ link ++ removeLinks b [link].
Proof.
  intros Hno Ha Hlen Hm. cbn [removeLinks fold_left].
  change (str "[[") with [91; 91]. change (str "]]") with [93; 93].
  unfold replaceAll.
  rewrite remove_skip by (exact Ha || (rewrite length_app; lia)).
  f_equal. rewrite app_nil_r.
  set (text := [91; 91] ++ inner ++ [93; 93]).
  replace ([91; 91] ++ inner ++ [93; 93] ++ b) with (text ++ b)
    by (unfold text; now rewrite <- !app_assoc).
  assert (Hfuel : (length (text ++ b)
                   < S (length (a ++ text ++ b)) - length a)%nat)
    by (rewrite !length_app; lia).
  rewrite (remove_indep link (length (text ++ b)) (text ++ b) _
             (S (length (text ++ b))) _ [] Hno (Nat.le_refl _) Hfuel
             (Nat.lt_succ_diag_r _)).
  rewrite (replaceLoop_remove (length (text ++ b)) link (template link) []
             (text ++ b)).
  set (L := [91; 91] ++ link ++ [93; 93]).
  assert (HL : length L = length text).
  { unfold L, text. rewrite !length_app. cbn [length]. lia. }
  assert (Hlit : matchesLit flagsGI L (text ++ b) = true).
  { unfold L, text. rewrite <- !app_assoc.
    rewrite (matchesLit_app _ [91; 91] _ [91; 91]) by reflexivity.
    rewrite (matchesLit_app _ link _ inner) by (symmetry; exact Hlen).
    rewrite Hm. reflexivity. }
  rewrite Hlit, HL, take_app_length, drop_app_length.
  unfold template at 1. rewrite getSubstitution_plain by exact Hno.
  assert (Ht : (0 < length text)%nat) by (unfold text; cbn [length app]; lia).
  f_equal. apply (remove_indep link (length b)); try exact Hno;
    rewrite ?length_app; lia.
Qed.

(** With a term without [$], the first link of a text is replaced by the
    term, in the letter case of the term, when its text is the term up
    to case; what stands before it is kept and what follows is treated
    the same way. *)
Theorem removeLinks_first_link (link a inner b : jsstr) :
  36 ∉ link -> 91 ∉ a ->
  length inner = length link -> matchesLit flagsGI link inner = true ->
  removeLinks (a ++ str "[[" ++ inner ++ str "]]" ++ b) [link]
  = a ++ link ++ removeLinks b [link].
Proof. apply removeLinks_first. Qed.

(** ** Removing links from a directory *)

Lemma removalChanges_other v v' links (g : TFile) :
  data v' !! path g = data v !! path g ->
  removalChanges v' links g = removalChanges v links g.
Proof. intros H. unfold removalChanges, read. now rewrite H. Qed.

Lemma removeLoop_notices links files : forall p n,
  notices (fst (removeLoop links files p n)) = notices p /\
  settings (fst (removeLoop links files p n)) = settings p.
Proof.
  induction files as [|f files IH]; intros p n; cbn [removeLoop].
  - cbn. auto.
  - destruct (read (vault p) f) as [content|]; [|cbn; auto].
    destruct (negb (jsstr_eqb content (removeLinks content links)));
      [|apply IH].
    destruct (modify (vault p) f (removeLinks content links)) as [v'|];
      [|cbn; auto].
    apply (IH (setVault p v') (S n)).
Qed.

Lemma removeLoop_spec links files : forall p n,
  NoDup (path <$> files) ->
  (forall f, f ∈ files ->
     is_Some (read (vault p) f) /\ writable (path f) = true) ->
  exists p',
    removeLoop links files p n
    = (p', Some (n + length (List.filter (removalChanges (vault p) links)
                               files))%nat) /\
    (forall f content, f ∈ files -> read (vault p) f = Some content ->
       read (vault p') f = Some (removeLinks content links)) /\
    (forall k : jsstr, k ∉ path <$> files ->
       data (vault p') !! k = data (vault p) !! k).
Proof.
  induction files as [|f files IH]; intros p n Hnd Hread.
  - exists p. cbn [removeLoop List.filter length]. rewrite Nat.add_0_r.
    split; [reflexivity|]. split; [|reflexivity].
    intros f c Hf. inversion Hf.
  - rewrite fmap_cons in Hnd. apply NoDup_cons in Hnd as [Hf Hnd].
    destruct (Hread f) as [[content Hc] Hwf]; [now left|].
    assert (Hothers : forall g, g ∈ files -> path g <> path f).
    { intros g Hg Heq. apply Hf. rewrite <- Heq.
      apply list_elem_of_fmap. now exists g. }
    cbn [removeLoop List.filter]. rewrite Hc.
    unfold removalChanges at 1. rewrite Hc.
    destruct (jsstr_eqb content (removeLinks content links)) eqn:E;
      cbn [negb].
    + apply jsstr_eqb_eq in E.
      destruct (IH p n Hnd) as (p' & H1 & H2 & H3).
      { intros g Hg. apply Hread. now right. }
      exists p'. split; [exact H1|]. split.
      * intros g c Hg Hgc. apply elem_of_cons in Hg as [->|Hg].
        -- unfold read. rewrite (H3 _ Hf). unfold read in Hc.
           rewrite Hc. unfold read in Hgc. congruence.
        -- now apply H2.
      * intros k Hk. rewrite fmap_cons in Hk.
        apply not_elem_of_cons in Hk as [_ Hk]. now apply H3.
    + unfold modify, read in *. rewrite Hc, Hwf.
      set (v' := {| root := root (vault p);
                    data := <[path f := removeLinks content links]>
                              (data (vault p)) |}).
      destruct (IH (setVault p v') (S n) Hnd) as (p' & H1 & H2 & H3).
      { intros g Hg. destruct (Hread g) as [Hg1 Hg2]; [now right|].
        split; [|exact Hg2]. cbn [setVault vault v' data].
        apply lookup_insert_is_Some'. now right. }
      exists p'. split; [|split].
      * rewrite H1. f_equal. f_equal. cbn [length setVault vault].
        rewrite (List.filter_ext_in (removalChanges v' links)
                   (removalChanges (vault p) links)).
        -- lia.
        -- intros g Hg. apply removalChanges_other. cbn [v' data].
           apply lookup_insert_ne. apply list_elem_of_In in Hg.
           intros Heq. now apply (Hothers g Hg).
      * intros g c Hg Hgc. apply elem_of_cons in Hg as [->|Hg].
        -- rewrite (H3 _ Hf). cbn [setVault vault v' data].
           rewrite lookup_insert_eq. congruence.
        -- apply H2; [exact Hg|]. cbn [setVault vault v' data].
           rewrite lookup_insert_ne; [exact Hgc|].
           intros Heq. now apply (Hothers g Hg).
      * intros k Hk. rewrite fmap_cons in Hk.
        apply not_elem_of_cons in Hk as [Hne Hk].
        rewrite (H3 k Hk). cbn [setVault vault v' data].
        now apply lookup_insert_ne.
Qed.

(** When the files of the directory have distinct paths, can all be read
    and the host lets them be written, [removeLinksFromDirectory]
    returns; each of them then holds [removeLinks] of its text, every
    other document is as before, and the notice counts the files whose
    text changed. *)
Theorem removeLinksFromDirectory_rewrites_directory p dp ch :
  getAbstractFileByPath (vault p) (specifiedDirectory (settings p))
  = Some (AFolder dp ch) ->
  NoDup (path <$> getMarkdownFiles (AFolder dp ch)) ->
  (forall f, f ∈ getMarkdownFiles (AFolder dp ch) ->
     is_Some (read (vault p) f) /\ writable (path f) = true) ->
  snd (removeLinksFromDirectory p) = Returned /\
  (forall f content,
     f ∈ getMarkdownFiles (AFolder dp ch) ->
     read (vault p) f = Some content ->
     read (vault (fst (removeLinksFromDirectory p))) f
     = Some (removeLinks content
               (parseListCased (linksToRemove (settings p))))) /\
  (forall k : jsstr, k ∉ path <$> getMarkdownFiles (AFolder dp ch) ->
     data (vault (fst (removeLinksFromDirectory p))) !! k
     = data (vault p) !! k) /\
  notices (fst (removeLinksFromDirectory p))
  = notices p ++
    [NoticeRemoved
       (length (List.filter
                  (removalChanges (vault p)
                     (parseListCased (linksToRemove (settings p))))
                  (getMarkdownFiles (AFolder dp ch))))
       (specifiedDirectory (settings p))].
Proof.
  intros Hdir Hnd Hread. unfold removeLinksFromDirectory. rewrite Hdir.
  destruct (removeLoop_spec (parseListCased (linksToRemove (settings p)))
              _ p 0%nat Hnd Hread) as (p' & H1 & H2 & H3).
  pose proof (removeLoop_notices (parseListCased (linksToRemove (settings p)))
                (getMarkdownFiles (AFolder dp ch)) p 0%nat) as [Hn _].
  rewrite H1 in *. cbn [fst snd notify vault notices Nat.add] in *.
  rewrite Hn. auto.
Qed.

Lemma removeLoop_rejects links files : forall p n,
  snd (removeLoop links files p n) = None <->
  exists f, f ∈ files /\
    (read (vault p) f = None \/
     writable (path f) = false /\ removalChanges (vault p) links f = true).
Proof.
  induction files as [|f files IH]; intros p n; cbn [removeLoop].
  - cbn. split; [discriminate|]. intros (f & Hf & _). inversion Hf.
  - destruct (read (vault p) f) as [content|] eqn:Hc.
    + destruct (negb (jsstr_eqb content (removeLinks content links)))
        eqn:Ech.
      * unfold modify. unfold read in Hc. rewrite Hc.
        destruct (writable (path f)) eqn:Ewf.
        -- rewrite IH. cbn [setVault vault].
           split; intros (g & Hg & Hbad).
           ++ exists g. split; [now right|].
              destruct (decide (path f = path g)) as [Heq|Hne].
              ** destruct Hbad as [Hr|[Hw _]].
                 --- unfold read in Hr. cbn [data] in Hr.
                     rewrite <- Heq, lookup_insert_eq in Hr. discriminate Hr.
                 --- rewrite <- Heq in Hw. congruence.
              ** destruct Hbad as [Hr|[Hw Hrc]].
                 --- left. unfold read in *. cbn [data] in Hr.
                     now rewrite lookup_insert_ne in Hr.
                 --- right. split; [exact Hw|].
                     rewrite <- Hrc. symmetry. apply removalChanges_other.
                     cbn [data]. now apply lookup_insert_ne.
           ++ apply elem_of_cons in Hg as [->|Hg].
              ** destruct Hbad as [Hr|[Hw _]]; [|congruence].
                 unfold read in Hr. congruence.
              ** exists g. split; [exact Hg|].
                 destruct (decide (path f = path g)) as [Heq|Hne].
                 --- destruct Hbad as [Hr|[Hw _]].
                     +++ unfold read in Hr. rewrite <- Heq in Hr. congruence.
                     +++ rewrite <- Heq in Hw. congruence.
                 --- destruct Hbad as [Hr|[Hw Hrc]].
                     +++ left. unfold read in *. cbn [data].
                         now rewrite lookup_insert_ne.
                     +++ right. split; [exact Hw|].
                         rewrite <- Hrc. apply removalChanges_other.
                         cbn [data]. now apply lookup_insert_ne.
        -- cbn [snd]. split; [|reflexivity]. intros _. exists f.
           split; [now left|]. right. split; [exact Ewf|].
           unfold removalChanges, read. now rewrite Hc.
      * rewrite IH. split; intros (g & Hg & Hbad).
        -- exists g. split; [now right|exact Hbad].
        -- apply elem_of_cons in Hg as [->|Hg]; [|now exists g].
           destruct Hbad as [Hr|[_ Hrc]]; [congruence|].
           unfold removalChanges in Hrc. rewrite Hc in Hrc. congruence.
    + cbn. split; [|reflexivity]. intros _. exists f.
      split; [now left|]. now left.
Qed.

(** [removeLinksFromDirectory] is rejected exactly when a Markdown file
    of the directory cannot be read, or has links to remove and the host
    refuses to write it; it then posts no notice, the ledger is as
    before, and what was written before the failure stays written. *)
Theorem removeLinksFromDirectory_rejects_unreadable p dp ch :
  getAbstractFileByPath (vault p) (specifiedDirectory (settings p))
  = Some (AFolder dp ch) ->
  (snd (removeLinksFromDirectory p) = Rejected <->
   exists f, f ∈ getMarkdownFiles (AFolder dp ch) /\
     (read (vault p) f = None \/
      writable (path f) = false /\
      removalChanges (vault p)
        (parseListCased (linksToRemove (settings p))) f = true)) /\
  (snd (removeLinksFromDirectory p) = Rejected ->
   notices (fst (removeLinksFromDirectory p)) = notices p /\
   lastChanges (fst (removeLinksFromDirectory p)) = lastChanges p).
Proof.
  intros Hdir. unfold removeLinksFromDirectory. rewrite Hdir.
  set (links := parseListCased (linksToRemove (settings p))).
  set (files := getMarkdownFiles (AFolder dp ch)).
  pose proof (removeLoop_rejects links files p 0%nat) as Hrej.
  pose proof (removeLoop_notices links files p 0%nat) as [Hn _].
  pose proof (removeLoop_frame links files p 0%nat) as [Hl _].
  destruct (removeLoop links files p 0%nat) as [p' [n|]];
    cbn [fst snd] in *.
  - split.
    + split; [discriminate|]. intros H. apply Hrej in H. discriminate H.
    + discriminate.
  - split; [|now intros _].
    split; [intros _; now apply Hrej|reflexivity].
Qed.

(** ** Lists in the settings *)

Lemma splitChar_nonempty sep (s : jsstr) : splitChar sep s <> [].
Proof.
  induction s as [|c s IH]; [discriminate|]. cbn [splitChar].
  destruct (c =? sep); [discriminate|].
  destruct (splitChar sep s); discriminate.
Qed.

Lemma splitChar_app sep (a b : jsstr) :
  splitChar sep (a ++ sep :: b) = splitChar sep a ++ splitChar sep b.
Proof.
  induction a as [|c a IH]; cbn [app splitChar].
  - now rewrite N.eqb_refl.
  - rewrite IH. destruct (c =? sep); [reflexivity|].
    pose proof (splitChar_nonempty sep a) as Hne.
    destruct (splitChar sep a); [congruence|reflexivity].
Qed.

Lemma splitChar_whole sep (s : jsstr) : sep ∉ s -> splitChar sep s = [s].
Proof.
  induction s as [|c s IH]; intros Hs; [reflexivity|].
  apply not_elem_of_cons in Hs as [Hc Hs]. cbn [splitChar].
  destruct (N.eqb_spec c sep) as [E|_]; [congruence|].
  now rewrite (IH Hs).
Qed.

(** The lists of the settings are read entry by entry: the parts between
    commas are trimmed (and lower-cased, but for the links to remove) and
    the empty ones are dropped, so a list is the concatenation of the
    lists on either side of a comma. *)
Theorem settings_lists_split_at_commas :
  (forall a b : jsstr,
     parseList (a ++ str "," ++ b) = parseList a ++ parseList b /\
     parseListCased (a ++ str "," ++ b)
     = parseListCased a ++ parseListCased b) /\
  (forall s : jsstr, 44 ∉ s ->
     parseList s = (if nonEmpty (toLowerCase (trim s))
                    then [toLowerCase (trim s)] else []) /\
     parseListCased s = (if nonEmpty (trim s) then [trim s] else [])).
Proof.
  split.
  - intros a b. unfold parseList, parseListCased.
    change (str "," ++ b) with (44 :: b).
    rewrite splitChar_app, !map_app, !List.filter_app. auto.
  - intros s Hs. unfold parseList, parseListCased.
    rewrite (splitChar_whole _ _ Hs). cbn [map List.filter]. auto.
Qed.

(** ** Words that do not occur *)

Lemma occursIn_suffix fl (w a b : jsstr) :
  occursIn fl w (a ++ b) = false -> occursIn fl w b = false.
Proof.
  induction a as [|c a IH]; [easy|]. cbn [app occursIn].
  intros H. apply orb_false_iff in H as [_ H]. now apply IH.
Qed.

Lemma occursIn_head fl (w s : jsstr) :
  occursIn fl w s = false -> matchesLit fl w s = false.
Proof.
  destruct s; cbn [occursIn]; intros H; now apply orb_false_iff in H as [H _].
Qed.

Lemma matchesLit_mono fl (w : jsstr) : forall b rest : jsstr,
  matchesLit fl w b = true -> matchesLit fl w (b ++ rest) = true.
Proof.
  induction w as [|c w IH]; intros [|d b] rest H; try reflexivity;
    try discriminate.
  cbn [app matchesLit] in *. apply andb_true_iff in H as [H1 H2].
  rewrite H1. cbn [andb]. now apply IH.
Qed.

Lemma linkWord_absent s v (sec w : jsstr) :
  (forall a b, sec = a ++ b -> matchesLit flagsGI w b = false) ->
  linkWord s v sec w = sec.
Proof.
  intros H. unfold linkWord. destruct (isLinkable s w); [|reflexivity].
  unfold replaceAll. apply replaceLoop_no_match. intros a b Hab.
  rewrite matchAt_linkPattern.
  destruct (linkMatch w (rev a ++ []) b) eqn:E; [|reflexivity].
  apply linkMatch_matchesLit in E. rewrite (H a b Hab) in E. discriminate E.
Qed.

Lemma linkChunk_absent s v (sec tail : jsstr) ws :
  (forall w, w ∈ ws -> occursIn flagsGI w (sec ++ tail) = false) ->
  fold_left (linkWord s v) ws sec = sec.
Proof.
  induction ws as [|w ws IH]; intros H; [reflexivity|].
  cbn [fold_left]. rewrite linkWord_absent.
  - apply IH. intros w' Hw'. apply H. now right.
  - intros a b ->.
    destruct (matchesLit flagsGI w b) eqn:E; [|reflexivity].
    apply (matchesLit_mono _ _ _ tail) in E.
    specialize (H w (list_elem_of_here _ _)).
    rewrite <- app_assoc in H.
    apply occursIn_suffix, occursIn_head in H. congruence.
Qed.

Lemma linkSections_absent s v ws : forall l flag,
  (forall w, w ∈ ws -> occursIn flagsGI w (join l) = false) ->
  linkSections s v ws flag l = l.
Proof.
  unfold join. induction l as [|sec l IH]; intros flag H; [reflexivity|].
  cbn [concat] in H.
  assert (Hl : forall w, w ∈ ws -> occursIn flagsGI w (concat l) = false).
  { intros w Hw. apply (occursIn_suffix _ _ sec). now apply H. }
  cbn [linkSections].
  destruct (startsWith sec (str "#")); [now rewrite IH|].
  destruct (negb flag); [|now rewrite IH].
  rewrite (linkChunk_absent s v sec (concat l) ws H). now rewrite IH.
Qed.

(** A document in which no word of the list stands, in any letter case,
    is returned as it is. *)
Theorem linkWords_absent_words s v (content : jsstr) ws :
  (forall w, w ∈ ws -> occursIn flagsGI w content = false) ->
  linkWords s v content ws = content.
Proof.
  intros H. unfold linkWords. rewrite linkSections_absent.
  - apply split_join.
  - now rewrite split_join.
Qed.

(** ** Linking, then removing *)

Lemma notin_includes_open (b : jsstr) :
  91 ∉ b -> includes b (str "[[") = false.
Proof.
  change (str "[[") with [91; 91].
  induction b as [|c b IH]; intros Hb; [reflexivity|].
  apply not_elem_of_cons in Hb as [Hc Hb]. cbn [includes startsWith].
  rewrite (IH Hb), orb_false_r.
  destruct (N.eqb_spec 91 c) as [E|_]; [congruence|reflexivity].
Qed.

Lemma notin_endsWith_open (a : jsstr) :
  91 ∉ a -> endsWith a (str "[[") = false.
Proof.
  intros Ha. destruct (endsWith a (str "[[")) eqn:E; [|reflexivity].
  apply endsWith_suffix in E as [stem ->]. exfalso. apply Ha.
  apply elem_of_app. right. now left.
Qed.

(** Removing a term right after linking it gives back a text with a
    single mention of the term, the mention now in the letter case of the
    term: if the mention was written as the term, the round trip is the
    identity. *)
Theorem removeLinks_undoes_linking s v (w a m b : jsstr) :
  tokenWord w = true -> isLinkable s w = true ->
  existingFilesOnly s = false \/ fileExists v m = true ->
  length m = length w -> matchesLit flagsGI w m = true ->
  Forall (fun c => isWordChar c = false) a ->
  Forall (fun c => isWordChar c = false) b ->
  35 ∉ a -> 35 ∉ b -> 91 ∉ a -> 91 ∉ b ->
  startsWith b (str "]]") = false ->
  removeLinks (linkWords s v (a ++ m ++ b) [w]) [w] = a ++ w ++ b.
Proof.
  intros Hw Hlink Hex Hlen Hm Ha Hb Ha35 Hb35 Ha91 Hb91 Hclose.
  rewrite (linkWords_standalone s v w a m b) by
    (try assumption; now apply notin_endsWith_open).
  assert (H36 : 36 ∉ w).
  { apply tokenWord_spec in Hw as [_ Hw]. rewrite Forall_forall in Hw.
    intros Hin. specialize (Hw _ Hin). discriminate Hw. }
  rewrite (removeLinks_first w a m b H36 Ha91 Hlen Hm).
  now rewrite (removeLinks_plain b [w] (notin_includes_open b Hb91)).
Qed.

(** ** The targets [getFileLinks] returns *)

Lemma splitChar_hd_elem sep (s : jsstr) c :
  c ∈ hd [] (splitChar sep s) -> c ∈ s /\ c <> sep.
Proof.
  induction s as [|d s IH]; cbn [splitChar hd]; [intros H; inversion H|].
  destruct (N.eqb_spec d sep) as [E|E]; cbn [hd]; [intros H; inversion H|].
  destruct (splitChar sep s) as [|p ps] eqn:Es; cbn [hd] in *.
  - intros H. apply list_elem_of_singleton in H. subst c.
    split; [now left|exact E].
  - intros H. apply elem_of_cons in H as [->|H].
    + split; [now left|exact E].
    + destruct (IH H) as [H1 H2]. split; [now right|exact H2].
Qed.

Lemma execFrom_position fl r : forall suf pre st,
  execFrom fl r pre suf = Some st ->
  exists a b, suf = a ++ b /\ matchAt fl r (rev a ++ pre) b = Some st.
Proof.
  induction suf as [|c suf IH]; intros pre st; rewrite execFrom_eq.
  - destruct (matchAt fl r pre []) eqn:E; [|discriminate].
    intros H. injection H as ->. now exists [], [].
  - destruct (matchAt fl r pre (c :: suf)) eqn:E.
    + intros H. injection H as ->. now exists [], (c :: suf).
    + intros H. apply IH in H as (a & b & -> & H). exists (c :: a), b.
      split; [reflexivity|]. cbn [rev]. now rewrite <- app_assoc.
Qed.

Lemma fileLinksLoop_targets fuel : forall pre suf w,
  w ∈ fileLinksLoop fuel pre suf ->
  retains w = true /\
  exists body, body <> [] /\ (93 ∉ body) /\ w = targetOf body.
Proof.
  induction fuel as [|fuel IH]; intros pre suf w; cbn [fileLinksLoop];
    [intros H; inversion H|].
  destruct (execFrom flagsG linkRegex pre suf) as [st|] eqn:E;
    [|intros H; inversion H].
  intros H. apply elem_of_app in H as [H|H]; [|now apply IH in H].
  apply execFrom_position in E as (a & b & _ & E).
  apply linkRegex_data in E as (body & Hne & Hb & _ & Hc).
  rewrite Hc in H. change (default [] (Some body)) with body in H.
  destruct (retains (targetOf body)) eqn:Er; [|inversion H].
  apply list_elem_of_singleton in H. subst w. split; [exact Er|].
  exists body. split; [exact Hne|]. split; [|reflexivity].
  now apply notin_Forall.
Qed.

(** Every target that [getFileLinks] returns is trimmed, holds no []]
    and no [|], and either holds no [.] or ends in [.md]; it is what
    stands before the first [|] of a bracketed text of the document. *)
Theorem getFileLinks_targets_are_clean v f links (w : jsstr) :
  getFileLinks v f = Some links -> w ∈ links ->
  trim w = w /\ (93 ∉ w) /\ (124 ∉ w) /\
  (46 ∉ w \/ exists stem, w = stem ++ str ".md") /\
  exists body, body <> [] /\ (93 ∉ body) /\ w = targetOf body.
Proof.
  unfold getFileLinks. destruct (read v f) as [content|]; [|discriminate].
  cbn [mbind option_bind]. intros H. injection H as <-. intros Hw.
  apply fileLinksLoop_targets in Hw as (Hr & body & Hne & Hb & ->).
  split; [apply trim_idem|]. split; [|split; [|split]].
  - intros Hin. apply trim_elem, splitChar_hd_elem in Hin as [Hin _].
    now apply Hb.
  - intros Hin. apply trim_elem, splitChar_hd_elem in Hin as [_ Hin].
    now apply Hin.
  - now apply retains_spec.
  - now exists body.
Qed.

(** ** What the directory run records *)

(** Started with an empty ledger on a directory whose Markdown files
    have distinct paths, [extendLinkingToDirectory] records a document at
    most once, with the text it had before the run; the recorded
    documents are files of the directory, and a document without a
    record is as before. *)
Theorem extendLinkingToDirectory_records_changes p dp ch :
  getAbstractFileByPath (vault p) (specifiedDirectory (settings p))
  = Some (AFolder dp ch) ->
  lastChanges p = [] ->
  NoDup (path <$> getMarkdownFiles (AFolder dp ch)) ->
  (forall c, c ∈ lastChanges (extendLinkingToDirectory p) ->
     data (vault p) !! path (file c) = Some (oldContent c) /\
     path (file c) ∈ path <$> getMarkdownFiles (AFolder dp ch)) /\
  (forall k : jsstr,
     k ∉ ledgerPaths (lastChanges (extendLinkingToDirectory p)) ->
     data (vault (extendLinkingToDirectory p)) !! k = data (vault p) !! k) /\
  NoDup (ledgerPaths (lastChanges (extendLinkingToDirectory p))).
Proof.
  intros Hdir Hempty Hnd. unfold extendLinkingToDirectory. rewrite Hdir.
  set (files := getMarkdownFiles (AFolder dp ch)) in *.
  assert (Hinv : runInvariant p (fold_left autoLinkFile files p)
                   ([] ++ files)).
  { apply runInvariant_files; [|exact Hnd].
    unfold runInvariant. rewrite Hempty.
    split; [reflexivity|]. split; [|split; [reflexivity|constructor]].
    intros c0 Hc. inversion Hc. }
  destruct Hinv as (_ & Hrec & Hframe & Hnodup).
  cbn [notify lastChanges vault app] in *.
  split; [|split; assumption].
  intros c Hc. destruct (Hrec c Hc) as (H1 & _ & H3). now split.
Qed.

End Further.

(** * Scenarios *)

Section Scenarios.
Local Existing Instance asciiRuntime.

(** C3.  A single-file run followed by a directory run: the directory run
    does not empty the ledger, which then holds the records of both runs,
    and undo reverts both. *)
Theorem C3_directory_run_keeps_earlier_records :
  let p1 := autoLinkCurrentFile tripPlugin in
  let p2 := extendLinkingToDirectory p1 in
  lastChanges p1 = [{| file := noteC; oldContent := str "Paris again" |}] /\
  lastChanges p2
  = [{| file := noteC; oldContent := str "Paris again" |};
     {| file := noteB; oldContent := str "Paris is nice." |}] /\
  data (vault (fst (undoLastChanges p2))) = data tripVault.
Proof. vm_compute. repeat split. Qed.

(** C7.  A removal term that contains [$$]: the bracketed occurrence is
    replaced by the term with one [$] only. *)
Theorem C7_removal_term_with_dollar :
  removeLinks (str "pay [[US$$]] now") [str "US$$"] = str "pay US$ now".
Proof. vm_compute. reflexivity. Qed.

(** C9.  A removal term that contains [$$] and differs in case from the
    bracketed text: the replacement is not the configured term. *)
Theorem C9_replacement_is_a_template :
  removeLinks (str "[[a$$b]]") [str "A$$B"] = str "A$B" /\
  removeLinks (str "[[paris]]") [str "Paris"] = str "Paris".
Proof. vm_compute. split; reflexivity. Qed.

(** C1, counterexample.  The word [York] is wrapped inside the link
    [[[New York City]]], so linked text is not left alone.  A second run
    changes the output of the first: with the empty term, which is the
    vocabulary of [blankVault]; with a term that holds [[], as in the
    vocabulary of [nestVault]; with a term that holds []]; and, when
    only existing files are linked, with the two-word name of a note of
    [goVault]. *)
Lemma C1_counterexample :
  linkWords DEFAULT_SETTINGS tripVault (str "[[New York City]]") [str "York"]
  = str "[[New [[York]] City]]" /\
  (getWordsToLink DEFAULT_SETTINGS blankVault = Some [[]] /\
   linkWords DEFAULT_SETTINGS blankVault (str "cat") [[]]
   = str "[[]]cat[[]]" /\
   linkWords DEFAULT_SETTINGS blankVault (str "[[]]cat[[]]") [[]]
   = str "[[]][[]]cat[[]][[]]") /\
  (getWordsToLink DEFAULT_SETTINGS nestVault = Some [str "x"; str "a[["] /\
   linkWords DEFAULT_SETTINGS nestVault (str "a[[x") [str "x"; str "a[["]
   = str "[[a[[]]x" /\
   linkWords DEFAULT_SETTINGS nestVault (str "[[a[[]]x") [str "x"; str "a[["]
   = str "[[a[[]][[x]]") /\
  (linkWords DEFAULT_SETTINGS emptyVault (str "a]]x") [str "a"; str "]]x"]
   = str "a[[]]x]]" /\
   linkWords DEFAULT_SETTINGS emptyVault (str "a[[]]x]]") [str "a"; str "]]x"]
   = str "[[a]][[]]x]]") /\
  (getWordsToLink existingOnly goVault = Some [str "go go"; str "Go"] /\
   linkWords existingOnly goVault (str "Go go go") [str "go go"; str "Go"]
   = str "[[Go]] go go" /\
   linkWords existingOnly goVault (str "[[Go]] go go")
     [str "go go"; str "Go"]
   = str "[[Go]] [[go go]]").
Proof. vm_compute. repeat split. Qed.

Lemma C1_witness :
  (existingFilesOnly tripSettings = false /\
   Forall (fun w => plainTerm w = true)
     [str "New York City"; str "C++"; str "Paris"]) /\
  linkWords tripSettings tripVault
    (linkWords tripSettings tripVault tasksDocument
       [str "New York City"; str "C++"; str "Paris"])
    [str "New York City"; str "C++"; str "Paris"]
  = linkWords tripSettings tripVault tasksDocument
      [str "New York City"; str "C++"; str "Paris"] /\
  Forall (fun w => tokenWord w = true) [str "Paris"; str "visit"] /\
  linkWords existingOnly tripVault
    (linkWords existingOnly tripVault tasksDocument
       [str "Paris"; str "visit"])
    [str "Paris"; str "visit"]
  = linkWords existingOnly tripVault tasksDocument
      [str "Paris"; str "visit"] /\
  matchAt flagsGI (linkPattern (str "Paris")) (rev (str "see [["))
    (str "Paris]] now") = None /\
  plainTerm (str "New York City") = true /\
  linkWords existingOnly tripVault (str "[[New York City]]")
    [str "New York City"]
  = str "[[New York City]]".
Proof.
  destruct C1_relinking_own_output as (Hplain & Hidem & Hguard & Hown).
  assert (Hpl : Forall (fun w => plainTerm w = true)
                  [str "New York City"; str "C++"; str "Paris"])
    by (repeat constructor).
  assert (Hws : Forall (fun w => tokenWord w = true)
                  [str "Paris"; str "visit"])
    by (repeat constructor).
  split; [split; [reflexivity|exact Hpl]|].
  split; [now apply Hplain|].
  split; [exact Hws|]. split; [now apply Hidem|]. split.
  - apply Hguard. left. vm_compute. reflexivity.
  - split; [reflexivity|].
    apply (Hown existingOnly tripVault (str "New York City")). reflexivity.
Defined.

Lemma C4_witness :
  let p1 := autoLinkCurrentFile tripPlugin in
  (lastChanges p1 <> [] /\ recorded (data (vault p1)) (lastChanges p1)) /\
  data (vault (fst (undoLastChanges p1))) = data tripVault /\
  lastChanges (fst (undoLastChanges p1)) = [] /\
  vault (fst (undoLastChanges (extendLinkingToDirectory tripPlugin)))
  = vault tripPlugin.
Proof.
  intros p1.
  destruct C4_undo_restores_recorded_content as (_ & Hrestore & _ & _ & Hdir).
  assert (Hne : lastChanges p1 <> []) by (vm_compute; discriminate).
  assert (Hrec : recorded (data (vault p1)) (lastChanges p1)).
  { intros c Hc. vm_compute in Hc. apply list_elem_of_singleton in Hc.
    subst c. split; [vm_compute; eexists; reflexivity|reflexivity]. }
  split; [split; assumption|].
  rewrite (Hrestore p1 Hne Hrec). cbn [fst vault data lastChanges].
  split; [vm_compute; reflexivity|]. split; [reflexivity|].
  apply (Hdir tripPlugin); [reflexivity|].
  intros dp ch Hdp. vm_compute in Hdp. injection Hdp as <- <-.
  split; [|intros f _; reflexivity].
  vm_compute. apply NoDup_cons. split.
  - intros Hin. apply list_elem_of_singleton in Hin. discriminate Hin.
  - apply NoDup_singleton.
Defined.

Lemma C5_witness :
  (parseList (whitelistedStrings alphaOnly) <> [] /\
   toLowerCase (str "Beta") ∉ parseList (whitelistedStrings alphaOnly)) /\
  linkWords alphaOnly greekVault (str "Alpha and Beta")
    [str "Alpha"; str "Beta"]
  = linkWords alphaOnly greekVault (str "Alpha and Beta") [str "Alpha"] /\
  toLowerCase (str "Rome") ∈ parseList (blacklistedStrings tripSettings) /\
  linkWords tripSettings tripVault (str "Paris and Rome")
    [str "Rome"; str "Paris"]
  = linkWords tripSettings tripVault (str "Paris and Rome") [str "Paris"] /\
  getWordsToLink alphaOnly greekVault = Some [str "Alpha"] /\
  toLowerCase (str "Alpha") ∈ parseList (whitelistedStrings alphaOnly).
Proof.
  assert (Hbeta : parseList (whitelistedStrings alphaOnly) <> [] /\
                  toLowerCase (str "Beta")
                    ∉ parseList (whitelistedStrings alphaOnly)).
  { split; [vm_compute; discriminate|].
    intros Hin. apply arrayIncludes_elem in Hin. vm_compute in Hin.
    discriminate Hin. }
  assert (Hrome : toLowerCase (str "Rome")
                    ∈ parseList (blacklistedStrings tripSettings)).
  { apply arrayIncludes_elem. vm_compute. reflexivity. }
  assert (Hwords : getWordsToLink alphaOnly greekVault = Some [str "Alpha"])
    by (vm_compute; reflexivity).
  split; [exact Hbeta|]. split.
  - destruct (C5_whitelist_blacklist_gating alphaOnly greekVault) as [HA _].
    destruct (HA (str "Beta") (or_intror Hbeta)) as (_ & _ & H).
    exact (H (str "Alpha and Beta") [str "Alpha"] []).
  - split; [exact Hrome|]. split.
    + destruct (C5_whitelist_blacklist_gating tripSettings tripVault)
        as [HA _].
      destruct (HA (str "Rome") (or_introl Hrome)) as (_ & _ & H).
      exact (H (str "Paris and Rome") [] [str "Paris"]).
    + split; [exact Hwords|].
      destruct (C5_whitelist_blacklist_gating alphaOnly greekVault)
        as [_ HB].
      apply (HB [str "Alpha"] Hwords (proj1 Hbeta)). now left.
Defined.

Lemma C6_witness :
  let sections := split flagsM headingPattern tasksDocument in
  let linked := linkSections tripSettings tripVault [str "Paris"] false
                  sections in
  (sections !! 1%nat = Some (str "# Tasks in Paris") /\
   str "tasks" ∈ parseList (excludedBlocks tripSettings) /\
   includes (toLowerCase (str "# Tasks in Paris")) (str "tasks") = true) /\
  linked !! 0%nat = Some (str "intro [[Paris]]" ++ [10]) /\
  linked !! 1%nat = Some (str "# Tasks in Paris") /\
  linked !! 2%nat = Some ([10] ++ str "visit Paris" ++ [10]) /\
  linked !! 4%nat = Some ([10] ++ str "more [[Paris]]").
Proof.
  intros sections linked.
  pose proof (C6_heading_exclusion tripSettings tripVault tasksDocument
                [str "Paris"]) as H.
  cbv zeta in H. fold sections in H. fold linked in H.
  destruct H as (_ & _ & _ & Hhead & Hexcl & Hscan & Hfirst).
  assert (H1 : sections !! 1%nat = Some (str "# Tasks in Paris"))
    by (vm_compute; reflexivity).
  assert (Hrule : str "tasks" ∈ parseList (excludedBlocks tripSettings))
    by (apply arrayIncludes_elem; vm_compute; reflexivity).
  assert (Hinc : includes (toLowerCase (str "# Tasks in Paris")) (str "tasks")
                 = true) by (vm_compute; reflexivity).
  split; [repeat split; assumption|]. split; [|split; [|split]].
  - destruct (Hfirst (str "intro Paris" ++ [10])) as [_ H0];
      [vm_compute; reflexivity|].
    rewrite H0. vm_compute. reflexivity.
  - apply Hhead; [exact H1|vm_compute; reflexivity].
  - apply (Hexcl 1%nat (str "# Tasks in Paris") _ (str "tasks"));
      [exact H1|vm_compute; reflexivity|vm_compute; reflexivity
      |exact Hrule|exact Hinc].
  - rewrite (Hscan 3%nat (str "## Other") ([10] ++ str "more Paris")).
    + vm_compute. reflexivity.
    + vm_compute. reflexivity.
    + vm_compute. reflexivity.
    + vm_compute. reflexivity.
    + intros rule Hin.
      assert (Hl : parseList (excludedBlocks tripSettings) = [str "tasks"])
        by (vm_compute; reflexivity).
      rewrite Hl in Hin. apply list_elem_of_singleton in Hin. subst rule.
      vm_compute. reflexivity.
Defined.

(** C8, counterexample.  The name [Dr. Smith] has no suffix that reads
    as an extension, and [v1.] has an empty one: the rule as the
    specification words it keeps both, the extractor drops both. *)
Lemma C8_counterexample :
  suffixOf (str "Dr. Smith") = Some (str " Smith") /\
  extensionLike (str " Smith") = false /\
  retainsAsSpecified (str "Dr. Smith") = true /\
  retains (str "Dr. Smith") = false /\
  fileLinks (str "see [[Dr. Smith]] and [[Paris]]") = [str "Paris"] /\
  retainsAsSpecified (str "v1.") = true /\
  retains (str "v1.") = false.
Proof. vm_compute. repeat split. Qed.

Lemma C8_witness :
  ((91 ∉ str "see ") /\ (93 ∉ str "Rome|the city") /\ (124 ∉ str "Rome")) /\
  fileLinks (str "see [[Paris]] and [[Rome|the city]] [[pic.png]]")
  = [str "Paris"; str "Rome"] /\
  bracketed (str "[[a[b]]c") = Some (str "a[b", str "c") /\
  fileLinks (str "[x [[Paris]]") = [str "Paris"] /\
  targetOf (str "Rome|the city") = str "Rome" /\
  trim (str "  " ++ str "New York" ++ str " ") = str "New York" /\
  retains (str "note.md") = true.
Proof.
  destruct C8_corpus_link_extractor
    as (Hopen & Hunfold & Hnone & Hfirst & Hplain & Halias & Htrim & _ &
        Hkeep & _).
  assert (Hnot : forall (c : N) (l : jsstr),
            existsb (N.eqb c) l = false -> c ∉ l).
  { intros c l Hex Hin. apply list_elem_of_In in Hin.
    assert (Ht : existsb (N.eqb c) l = true)
      by (apply existsb_exists; exists c; split;
          [exact Hin|apply N.eqb_refl]).
    rewrite Hex in Ht. discriminate Ht. }
  assert (Hparis : fileLinks (str "x " ++ str "[[" ++ str "Paris" ++
                              str "]]" ++ []) = [str "Paris"]).
  { rewrite Hfirst;
      [|apply Hnot; vm_compute; reflexivity|discriminate
       |apply Hnot; vm_compute; reflexivity].
    rewrite (Hnone []); [|apply Hnot; reflexivity].
    vm_compute. reflexivity. }
  split; [repeat split; apply Hnot; vm_compute; reflexivity|].
  split; [|split; [|split; [|split; [|split]]]].
  - change (str "see [[Paris]] and [[Rome|the city]] [[pic.png]]")
      with (str "see " ++ str "[[" ++ str "Paris" ++ str "]]" ++
            str " and " ++ str "[[" ++ str "Rome|the city" ++ str "]]" ++
            str " " ++ str "[[" ++ str "pic.png" ++ str "]]" ++ []).
    rewrite Hfirst;
      [|apply Hnot; vm_compute; reflexivity|discriminate
       |apply Hnot; vm_compute; reflexivity].
    rewrite Hfirst;
      [|apply Hnot; vm_compute; reflexivity|discriminate
       |apply Hnot; vm_compute; reflexivity].
    rewrite Hfirst;
      [|apply Hnot; vm_compute; reflexivity|discriminate
       |apply Hnot; vm_compute; reflexivity].
    rewrite (Hnone []); [|apply Hnot; reflexivity].
    vm_compute. reflexivity.
  - apply Hopen. split; [reflexivity|]. split; [discriminate|].
    apply Hnot. vm_compute. reflexivity.
  - rewrite (Hunfold (str "[x [[Paris]]")). exact Hparis.
  - change (str "Rome|the city") with (str "Rome" ++ str "|" ++ str "the city").
    rewrite Halias; [vm_compute; reflexivity|].
    apply Hnot. vm_compute. reflexivity.
  - apply Htrim; try reflexivity; repeat constructor.
  - apply Hkeep. right. exists (str "note"). reflexivity.
Defined.

Lemma C10_witness :
  let p := autoLinkCurrentFile tripPlugin in
  let p1 := fst (removeLinksFromDirectory p) in
  (lastChanges p <> [] /\ recorded (data (vault p)) (lastChanges p)) /\
  data (vault p1) !! str "notes/A.md" = Some (str "See Paris.") /\
  lastChanges p1 = [{| file := noteC; oldContent := str "Paris again" |}] /\
  data (vault (fst (undoLastChanges p1))) !! str "notes/A.md"
  = Some (str "See Paris.") /\
  data (vault (fst (undoLastChanges p1))) !! str "C.md"
  = Some (str "Paris again").
Proof.
  intros p p1.
  pose proof (C10_removal_leaves_ledger p) as H. cbv zeta in H.
  fold p1 in H. destruct H as (Hledger & _ & Hundo).
  assert (Hne : lastChanges p <> []) by (vm_compute; discriminate).
  assert (Hrec : recorded (data (vault p)) (lastChanges p)).
  { intros c Hc. vm_compute in Hc. apply list_elem_of_singleton in Hc.
    subst c. split; [vm_compute; eexists; reflexivity|reflexivity]. }
  split; [split; assumption|].
  split; [vm_compute; reflexivity|].
  split; [rewrite Hledger; vm_compute; reflexivity|].
  rewrite (Hundo Hne Hrec). cbn [fst vault data].
  split; vm_compute; reflexivity.
Defined.

Lemma fileExists_ignores_md_suffix_witness :
  endsWith (str "C") (str ".md") = false /\
  fileExists tripVault (str "C") = true /\
  fileExists tripVault (str "C.md") = true /\
  fileExists tripVault (str "notes") = false.
Proof.
  assert (H : endsWith (str "C") (str ".md") = false) by reflexivity.
  destruct (fileExists_ignores_md_suffix tripVault) as [_ Hx].
  destruct (Hx (str "C") H) as [H1 H2].
  split; [exact H|]. split; [|split].
  - rewrite H1. vm_compute. reflexivity.
  - change (str "C.md") with (str "C" ++ str ".md").
    rewrite H2, H1. vm_compute. reflexivity.
  - vm_compute. reflexivity.
Defined.

Lemma fileExists_emptyVault (m : jsstr) : fileExists emptyVault m = false.
Proof.
  unfold fileExists, getAbstractFileByPath, emptyVault. cbn [root findByPath].
  match goal with |- context [jsstr_eqb ?a ?b] => destruct (jsstr_eqb a b) end;
    reflexivity.
Qed.

Lemma linkWords_without_existing_files_witness :
  existingFilesOnly existingOnly = true /\
  (forall w m : jsstr, w ∈ [str "Paris"] -> length m = length w ->
     matchesLit flagsGI w m = true -> fileExists emptyVault m = false) /\
  linkWords existingOnly emptyVault (str "Paris is nice.") [str "Paris"]
  = str "Paris is nice.".
Proof.
  assert (H : forall w m : jsstr, w ∈ [str "Paris"] -> length m = length w ->
            matchesLit flagsGI w m = true -> fileExists emptyVault m = false)
    by (intros w m _ _ _; apply fileExists_emptyVault).
  split; [reflexivity|]. split; [exact H|].
  apply linkWords_without_existing_files; [reflexivity|exact H].
Defined.

Lemma linkWords_wraps_standalone_mention_witness :
  linkWords tripSettings tripVault (str "-> " ++ str "PARIS" ++ str " !")
    [str "Paris"]
  = str "-> " ++ str "[[" ++ str "PARIS" ++ str "]]" ++ str " !".
Proof.
  apply linkWords_wraps_standalone_mention; try reflexivity.
  - left. reflexivity.
  - repeat constructor.
  - repeat constructor.
  - intros Hin. apply list_elem_of_In in Hin. cbn in Hin.
    repeat (destruct Hin as [Hin|Hin]; [discriminate Hin|]). exact Hin.
  - intros Hin. apply list_elem_of_In in Hin. cbn in Hin.
    repeat (destruct Hin as [Hin|Hin]; [discriminate Hin|]). exact Hin.
Defined.

Lemma linkWords_app_witness :
  Forall (fun w => tokenWord w = true) [str "Paris"] /\
  linkWords tripSettings tripVault
    (linkWords tripSettings tripVault tasksDocument [str "Paris"])
    [str "visit"]
  = linkWords tripSettings tripVault tasksDocument [str "Paris"; str "visit"].
Proof.
  assert (H : Forall (fun w => tokenWord w = true) [str "Paris"])
    by (repeat constructor).
  split; [exact H|].
  exact (linkWords_app tripSettings tripVault tasksDocument
           [str "Paris"] [str "visit"] H).
Defined.

Lemma removeLinks_needs_open_brackets_witness :
  includes (str "Paris [and] Rome") (str "[[") = false /\
  removeLinks (str "Paris [and] Rome") [str "Paris"; str "and"]
  = str "Paris [and] Rome".
Proof.
  assert (H : includes (str "Paris [and] Rome") (str "[[") = false)
    by reflexivity.
  split; [exact H|].
  exact (removeLinks_needs_open_brackets _ [str "Paris"; str "and"] H).
Defined.

Lemma removeLinks_keeps_aliased_link_witness :
  removeLinks (str "[[" ++ str "Paris" ++ str "|" ++ str "the city" ++ str "]]")
    [str "Paris"]
  = str "[[Paris|the city]]".
Proof.
  apply (removeLinks_keeps_aliased_link (str "Paris") (str "Paris")
           (str "the city"));
    intros Hin; apply list_elem_of_In in Hin; cbn in Hin;
    repeat (destruct Hin as [Hin|Hin]; [discriminate Hin|]); exact Hin.
Defined.

Lemma removeLinks_first_link_witness :
  removeLinks (str "in " ++ str "[[" ++ str "PARIS" ++ str "]]" ++
               str " or [[paris]]") [str "Paris"]
  = str "in " ++ str "Paris" ++ removeLinks (str " or [[paris]]") [str "Paris"].
Proof.
  apply removeLinks_first_link; try reflexivity;
    intros Hin; apply list_elem_of_In in Hin; cbn in Hin;
    repeat (destruct Hin as [Hin|Hin]; [discriminate Hin|]); exact Hin.
Defined.

Lemma tripDirectory :
  getAbstractFileByPath (vault tripPlugin)
    (specifiedDirectory (settings tripPlugin))
  = Some (AFolder (str "notes") [AFile noteA; AFile noteB]).
Proof. vm_compute. reflexivity. Qed.

Lemma tripDirectory_paths :
  NoDup (path <$> getMarkdownFiles
                    (AFolder (str "notes") [AFile noteA; AFile noteB])).
Proof.
  vm_compute. apply NoDup_cons. split.
  - intros Hin. apply list_elem_of_singleton in Hin. discriminate Hin.
  - apply NoDup_singleton.
Qed.

Lemma removeLinksFromDirectory_rewrites_directory_witness :
  snd (removeLinksFromDirectory tripPlugin) = Returned /\
  read (vault (fst (removeLinksFromDirectory tripPlugin))) noteA
  = Some (str "See Paris.") /\
  data (vault (fst (removeLinksFromDirectory tripPlugin))) !! str "C.md"
  = Some (str "Paris again") /\
  notices (fst (removeLinksFromDirectory tripPlugin))
  = [NoticeRemoved 1 (str "notes")].
Proof.
  assert (Hread : forall f,
            f ∈ getMarkdownFiles
                  (AFolder (str "notes") [AFile noteA; AFile noteB]) ->
            is_Some (read (vault tripPlugin) f) /\
            writable (path f) = true).
  { intros f Hf. split; [|reflexivity].
    vm_compute in Hf. apply elem_of_cons in Hf as [->|Hf].
    - vm_compute. eexists. reflexivity.
    - apply list_elem_of_singleton in Hf. subst f. vm_compute.
      eexists. reflexivity. }
  destruct (removeLinksFromDirectory_rewrites_directory tripPlugin _ _
              tripDirectory tripDirectory_paths Hread)
    as (H1 & H2 & H3 & H4).
  split; [exact H1|]. split; [|split].
  - rewrite (H2 noteA (str "See [[Paris]].")).
    + vm_compute. reflexivity.
    + vm_compute. now left.
    + vm_compute. reflexivity.
  - rewrite H3; [vm_compute; reflexivity|].
    vm_compute. intros Hin. apply elem_of_cons in Hin as [Hin|Hin];
      [discriminate Hin|].
    apply list_elem_of_singleton in Hin. discriminate Hin.
  - rewrite H4. vm_compute. reflexivity.
Defined.

Lemma brokenDirectory :
  getAbstractFileByPath (vault brokenPlugin)
    (specifiedDirectory (settings brokenPlugin))
  = Some (AFolder (str "notes") [AFile noteA; AFile noteB]).
Proof. vm_compute. reflexivity. Qed.

Lemma removeLinksFromDirectory_rejects_unreadable_witness :
  snd (removeLinksFromDirectory brokenPlugin) = Rejected /\
  notices (fst (removeLinksFromDirectory brokenPlugin)) = [] /\
  read (vault tripPlugin) noteA = Some (str "See [[Paris]].") /\
  snd (@removeLinksFromDirectory lockedRuntime tripPlugin) = Rejected /\
  vault (fst (@removeLinksFromDirectory lockedRuntime tripPlugin))
  = tripVault.
Proof.
  destruct (removeLinksFromDirectory_rejects_unreadable brokenPlugin _ _
              brokenDirectory) as [Hiff Hn].
  assert (Hrej : snd (removeLinksFromDirectory brokenPlugin) = Rejected).
  { apply Hiff. exists noteA. split; [vm_compute; now left|].
    left. vm_compute. reflexivity. }
  destruct (@removeLinksFromDirectory_rejects_unreadable lockedRuntime
              tripPlugin _ _ tripDirectory) as [Hlocked _].
  split; [exact Hrej|]. split; [now apply Hn|].
  split; [vm_compute; reflexivity|]. split.
  - apply Hlocked. exists noteA. split; [vm_compute; now left|].
    right. split; vm_compute; reflexivity.
  - vm_compute. reflexivity.
Defined.

Lemma settings_lists_split_at_commas_witness :
  (44 ∉ str " Tasks ") /\
  parseList (str " Tasks " ++ str "," ++ str "Notes,,") = [str "tasks"; str "notes"] /\
  parseListCased (str " Tasks ") = [str "Tasks"].
Proof.
  assert (H : 44 ∉ str " Tasks ").
  { intros Hin. apply list_elem_of_In in Hin. cbn in Hin.
    repeat (destruct Hin as [Hin|Hin]; [discriminate Hin|]). exact Hin. }
  destruct settings_lists_split_at_commas as [Happ Hone].
  split; [exact H|]. split.
  - rewrite (proj1 (Happ _ _)), (proj1 (Hone _ H)). vm_compute. reflexivity.
  - rewrite (proj2 (Hone _ H)). vm_compute. reflexivity.
Defined.

Lemma getWordsToLink_vocabulary_witness :
  getWordsToLink alphaOnly greekVault = Some [str "Alpha"] /\
  NoDup [str "Alpha"] /\
  exists f content,
    f ∈ getMarkdownFiles (root greekVault) /\
    read greekVault f = Some content /\ str "Alpha" ∈ fileLinks content.
Proof.
  assert (H : getWordsToLink alphaOnly greekVault = Some [str "Alpha"])
    by (vm_compute; reflexivity).
  destruct (getWordsToLink_vocabulary _ _ _ H) as [Hnd Hin].
  split; [exact H|]. split; [exact Hnd|].
  apply (Hin (str "Alpha")). now left.
Defined.

Lemma autoLinkFile_links_the_document_witness :
  read (vault tripPlugin) noteB = Some (str "Paris is nice.") /\
  getWordsToLink (settings tripPlugin) (vault tripPlugin)
  = Some [str "Paris"] /\
  read (vault (autoLinkFile tripPlugin noteB)) noteB
  = Some (str "[[Paris]] is nice.") /\
  lastChanges (autoLinkFile tripPlugin noteB)
  = [{| file := noteB; oldContent := str "Paris is nice." |}] /\
  vault (@autoLinkFile lockedRuntime tripPlugin noteB) = tripVault /\
  lastChanges (@autoLinkFile lockedRuntime tripPlugin noteB)
  = [{| file := noteB; oldContent := str "Paris is nice." |}] /\
  notices (@autoLinkFile lockedRuntime tripPlugin noteB)
  = [NoticeFailed (str "notes/B.md")].
Proof.
  assert (Hr : read (vault tripPlugin) noteB = Some (str "Paris is nice."))
    by (vm_compute; reflexivity).
  assert (Hw : getWordsToLink (settings tripPlugin) (vault tripPlugin)
               = Some [str "Paris"]) by (vm_compute; reflexivity).
  destruct (autoLinkFile_links_the_document tripPlugin noteB _ _ Hr Hw)
    as (_ & H & _).
  destruct H as (H1 & H2 & _); [vm_compute; reflexivity|reflexivity|].
  destruct (@autoLinkFile_links_the_document lockedRuntime tripPlugin noteB
              _ _ Hr Hw) as (_ & _ & H).
  destruct H as (H3 & H4 & H5);
    [vm_compute; reflexivity|vm_compute; reflexivity|].
  split; [exact Hr|]. split; [exact Hw|].
  split; [rewrite H1; vm_compute; reflexivity|].
  split; [rewrite H2; vm_compute; reflexivity|].
  split; [exact H3|].
  split; [rewrite H4; vm_compute; reflexivity|].
  rewrite H5. vm_compute. reflexivity.
Defined.

Lemma unreadable_note_blocks_linking_witness :
  noteA ∈ getMarkdownFiles (root (vault brokenPlugin)) /\
  read (vault brokenPlugin) noteA = None /\
  autoLinkFile brokenPlugin noteB
  = notify brokenPlugin (NoticeFailed (str "notes/B.md")) /\
  vault (extendLinkingToDirectory brokenPlugin) = brokenVault.
Proof.
  assert (Hin : noteA ∈ getMarkdownFiles (root (vault brokenPlugin)))
    by (vm_compute; now left).
  assert (Hr : read (vault brokenPlugin) noteA = None)
    by (vm_compute; reflexivity).
  destruct (unreadable_note_blocks_linking brokenPlugin noteA Hin Hr)
    as (H1 & _ & _ & H4).
  split; [exact Hin|]. split; [exact Hr|]. split.
  - apply H1.
  - rewrite (H4 _ _ brokenDirectory). reflexivity.
Defined.

Lemma extendLinkingToDirectory_stays_in_directory_witness :
  data (vault (extendLinkingToDirectory tripPlugin)) !! str "C.md"
  = Some (str "Paris again").
Proof.
  destruct (extendLinkingToDirectory_stays_in_directory tripPlugin)
    as [H _].
  rewrite (H (str "C.md")); [vm_compute; reflexivity|].
  intros dp ch Hdir. rewrite tripDirectory in Hdir. injection Hdir as <- <-.
  vm_compute. intros Hin. apply elem_of_cons in Hin as [Hin|Hin];
    [discriminate Hin|].
  apply list_elem_of_singleton in Hin. discriminate Hin.
Defined.

Lemma undo_last_record_decides_witness :
  lastChanges twiceRecorded <> [] /\
  recorded (data (vault twiceRecorded)) (lastChanges twiceRecorded) /\
  data (vault (fst (undoLastChanges twiceRecorded))) !! str "notes/B.md"
  = Some (str "second") /\
  data (vault (fst (undoLastChanges twiceRecorded))) !! str "C.md"
  = Some (str "Paris again").
Proof.
  assert (Hne : lastChanges twiceRecorded <> []) by discriminate.
  assert (Hrec : recorded (data (vault twiceRecorded))
                   (lastChanges twiceRecorded)).
  { intros c Hc. split; [|reflexivity].
    vm_compute in Hc. apply elem_of_cons in Hc as [->|Hc].
    - vm_compute. eexists. reflexivity.
    - apply list_elem_of_singleton in Hc. subst c. vm_compute.
      eexists. reflexivity. }
  split; [exact Hne|]. split; [exact Hrec|]. split.
  - rewrite (undo_last_record_decides twiceRecorded _ Hne Hrec).
    vm_compute. reflexivity.
  - rewrite (undo_last_record_decides twiceRecorded _ Hne Hrec).
    vm_compute. reflexivity.
Defined.

Lemma undo_rejected_keeps_ledger_witness :
  snd (@undoLastChanges lockedRuntime twiceRecorded) = Rejected /\
  lastChanges (fst (@undoLastChanges lockedRuntime twiceRecorded))
  = lastChanges twiceRecorded /\
  notices (fst (@undoLastChanges lockedRuntime twiceRecorded)) = [].
Proof.
  destruct (@undo_rejected_keeps_ledger lockedRuntime twiceRecorded)
    as [Hiff Hkeep].
  assert (Hrej : snd (@undoLastChanges lockedRuntime twiceRecorded)
                 = Rejected).
  { apply Hiff. exists {| file := noteB; oldContent := str "first" |}.
    split; [vm_compute; now left|]. right. vm_compute. reflexivity. }
  destruct (Hkeep Hrej) as [H1 H2].
  split; [exact Hrej|]. split; [exact H1|exact H2].
Defined.

Lemma linkWords_absent_words_witness :
  occursIn flagsGI (str "Rome") (str "Paris is nice.") = false /\
  linkWords DEFAULT_SETTINGS tripVault (str "Paris is nice.") [str "Rome"]
  = str "Paris is nice.".
Proof.
  assert (H : occursIn flagsGI (str "Rome") (str "Paris is nice.") = false)
    by (vm_compute; reflexivity).
  split; [exact H|].
  apply linkWords_absent_words. intros w Hw.
  apply list_elem_of_singleton in Hw. subst w. exact H.
Defined.

Lemma removeLinks_undoes_linking_witness :
  removeLinks
    (linkWords tripSettings tripVault (str "-> " ++ str "PARIS" ++ str " !")
       [str "Paris"]) [str "Paris"]
  = str "-> " ++ str "Paris" ++ str " !".
Proof.
  apply removeLinks_undoes_linking; try reflexivity;
    try (left; reflexivity); try (repeat constructor; fail);
    intros Hin; apply list_elem_of_In in Hin; cbn in Hin;
    repeat (destruct Hin as [Hin|Hin]; [discriminate Hin|]); exact Hin.
Defined.

Lemma getFileLinks_targets_are_clean_witness :
  getFileLinks tripVault noteA = Some [str "Paris"] /\
  trim (str "Paris") = str "Paris" /\ (93 ∉ str "Paris").
Proof.
  assert (H : getFileLinks tripVault noteA = Some [str "Paris"])
    by (vm_compute; reflexivity).
  destruct (getFileLinks_targets_are_clean tripVault noteA _ (str "Paris") H)
    as (H1 & H2 & _); [now left|].
  split; [exact H|]. split; [exact H1|exact H2].
Defined.

Lemma extendLinkingToDirectory_records_changes_witness :
  lastChanges (extendLinkingToDirectory tripPlugin)
  = [{| file := noteB; oldContent := str "Paris is nice." |}] /\
  data (vault tripPlugin) !! str "notes/B.md" = Some (str "Paris is nice.") /\
  data (vault (extendLinkingToDirectory tripPlugin)) !! str "notes/A.md"
  = Some (str "See [[Paris]].").
Proof.
  destruct (extendLinkingToDirectory_records_changes tripPlugin _ _
              tripDirectory eq_refl tripDirectory_paths) as (H1 & H2 & _).
  assert (Hl : lastChanges (extendLinkingToDirectory tripPlugin)
               = [{| file := noteB; oldContent := str "Paris is nice." |}])
    by (vm_compute; reflexivity).
  split; [exact Hl|]. split.
  - apply (H1 {| file := noteB; oldContent := str "Paris is nice." |}).
    rewrite Hl. now left.
  - rewrite H2; [vm_compute; reflexivity|].
    rewrite Hl. vm_compute. intros Hin.
    apply list_elem_of_singleton in Hin. discriminate Hin.
Defined.

End Scenarios.
